(** * sale_payment: payments, settlement and reconciliation of sales

    A shallow embedding of [sale.py] of the Tryton module [sale_payment].

    Conventions of the embedding.
    - Records of the ORM are rows of a [Store]; a browse instance is the
      identifier of its row and every attribute access reads the store.
    - Amounts ([Decimal], SQL numeric) are integers counted in the
      smallest unit of the currency; sums and comparisons are exact.
    - [None] of Python and [NULL] of SQL are [None] of [option].
    - The database is PostgreSQL: the type [INTEGER] has 32 bits, and the
      cast of a text to it is its integer input.
    - Methods of other modules (the transitions of the sale, the posting
      of invoices, the reconciliation of move lines, ...) are the fields
      of the class [Collaborators]: the properties hold for every
      behaviour they have.
    - The module is Python 3 (its classes take [metaclass=]): the variable
      of a comprehension is local to the comprehension. *)

From Stdlib Require Import Ascii.
From stdpp Require Import gmap strings list fin_maps sorting.

Local Open Scope string_scope.
Local Open Scope Z_scope.
Local Open Scope list_scope.

(** ** Data model *)

Inductive SaleState :=
  | SaleDraft | SaleQuotation | SaleConfirmed | SaleProcessing | SaleDone
  | SaleCancel.

Inductive InvoiceState :=
  | InvDraft | InvValidated | InvPosted | InvPaid | InvCancel.

Inductive InvoiceMethod :=
  | MethodManual | MethodOrder | MethodShipment.

Inductive StatementState :=
  | StDraft | StValidated | StPosted | StCancel.

#[global] Instance SaleState_eq_dec : EqDecision SaleState.
Proof. solve_decision. Defined.
#[global] Instance InvoiceState_eq_dec : EqDecision InvoiceState.
Proof. solve_decision. Defined.
#[global] Instance InvoiceMethod_eq_dec : EqDecision InvoiceMethod.
Proof. solve_decision. Defined.
#[global] Instance StatementState_eq_dec : EqDecision StatementState.
Proof. solve_decision. Defined.

(** [party.party], with the two attributes the module reads.
    [sale_invoice_grouping_method] is read with
    [getattr(party, 'sale_invoice_grouping_method', False)]: [None] stands
    for a missing attribute as well as for an empty value. *)
Module Party.
Record t := mk {
  name : string;
  account_receivable : option Z;
  sale_invoice_grouping_method : option string;
}.
End Party.

(** [sale.sale]. [total_amount] is the value of the function field as
    Python sees it, [total_amount_cache] the column the search reads. *)
Module Sale.
Record t := mk {
  state : SaleState;
  total_amount : option Z;
  total_amount_cache : option Z;
  invoice_method : InvoiceMethod;
  reference : string;
  number : option string;
  description : option string;
  party : Z;
  sale_device : option Z;
  currency_digits : Z;
  invoices : list Z;
}.
End Sale.

(** [account.invoice]. *)
Module Invoice.
Record t := mk {
  state : InvoiceState;
  invoice_date : option Z;
  accounting_date : option Z;
  description : option string;
  party : Z;
  lines_to_pay : list Z;
}.
End Invoice.

(** [account.statement.line], the payments of a sale. *)
Module Payment.
Record t := mk {
  id : Z;
  statement : Z;
  date : Z;
  amount : Z;
  party : option Z;
  account : Z;
  description : option string;
  sale : option Z;
  invoice : option Z;
  move : option Z;
}.
End Payment.

(** [account.move.line]. *)
Module MoveLine.
Record t := mk {
  id : Z;
  debit : Z;
  credit : Z;
  account : Z;
  reconciliation : option Z;
  move : Z;
}.
End MoveLine.

(** [account.statement]. *)
Module Statement.
Record t := mk {
  id : Z;
  journal : Z;
  state : StatementState;
  date : Z;
}.
End Statement.

(** [sale.device]. *)
Module Device.
Record t := mk {
  journal : option Z;
  journals : list Z;
}.
End Device.

(** [sale.line] and [account.invoice.line], as the search joins them. *)
Module SaleLine.
Record t := mk {
  id : Z;
  sale : Z;
}.
End SaleLine.

Module InvoiceLine.
Record t := mk {
  id : Z;
  origin : option string;
  invoice : option Z;
}.
End InvoiceLine.

(** The record store. Tables read by identifier are maps from the
    identifier; tables read through a foreign key are lists of rows. *)
Record Store := mkStore {
  sales : gmap Z Sale.t;
  parties : gmap Z Party.t;
  invoices : gmap Z Invoice.t;
  payments : list Payment.t;
  move_lines : list MoveLine.t;
  statements : list Statement.t;
  devices : gmap Z Device.t;
  user_devices : gmap Z Z;
  sale_lines : list SaleLine.t;
  invoice_lines : list InvoiceLine.t;
}.

Definition sumZ (l : list Z) : Z := foldr Z.add 0 l.

(** [sale.payments]: the One2Many over the [sale] column of the lines. *)
Definition payments_of (σ : Store) (sid : Z) : list Payment.t :=
  filter (λ p, Payment.sale p = Some sid) (payments σ).

(** ** Payment aggregator *)

(** [{n: {s.id: Decimal(0) for s in sales} for n in names}] *)
Definition zero_result (sale_ids : list Z) (names : list string)
  : gmap string (gmap Z Z) :=
  list_to_map ((λ n, (n, list_to_map ((λ s, (s, 0)) <$> sale_ids))) <$> names).

(** [result[name][sale.id] += amount] *)
Definition add_amount (name : string) (sid : Z) (a : Z)
    (result : gmap string (gmap Z Z)) : gmap string (gmap Z Z) :=
  alter (alter (λ x, x + a) sid) name result.

(** [Sale.get_paid_amount(sales, names)] *)
Definition get_paid_amount (σ : Store) (sale_ids : list Z) (names : list string)
  : gmap string (gmap Z Z) :=
  foldl (λ result name,
    foldl (λ result sid,
      foldl (λ result payment,
               add_amount name sid (Payment.amount payment) result)
            result (payments_of σ sid))
      result sale_ids)
    (zero_result sale_ids names) names.

(** [result[name][id]] *)
Definition entry (result : gmap string (gmap Z Z)) (name : string) (sid : Z)
  : option Z :=
  result !! name ≫= (λ m, m !! sid).

(** [sale.paid_amount]: the function field, read for one record. *)
Definition paid_amount (σ : Store) (sid : Z) : Z :=
  default 0 (entry (get_paid_amount σ [sid] ["paid_amount"]) "paid_amount" sid).

(** ** Exceptions

    The exceptions the module raises or runs into, and the outcome of a
    computation that can raise. *)
Inductive Error :=
  | UserError (key : string) (args : list string)
  | UnboundLocalError (name : string)
  | AttributeError (message : string)
  | TypeError (message : string)
  | DataError (message : string)
  | DoesNotExist (model : string) (id : Z)
  | CollaboratorError (message : string).

Inductive Res (A : Type) :=
  | Ok (a : A)
  | Raise (e : Error).
Arguments Ok {A} a.
Arguments Raise {A} e.

Definition res_bind {A B} (r : Res A) (k : A → Res B) : Res B :=
  match r with
  | Ok a => k a
  | Raise e => Raise e
  end.

(** A comprehension whose element expression can raise. *)
Fixpoint res_map {A B} (f : A → Res B) (l : list A) : Res (list B) :=
  match l with
  | [] => Ok []
  | x :: l' =>
      res_bind (f x) (λ y, res_bind (res_map f l') (λ ys, Ok (y :: ys)))
  end.

(** A [for] loop over [l] that threads the local variables [s] and can
    raise. *)
Fixpoint res_fold {A S} (body : S → A → Res S) (l : list A) (s : S) : Res S :=
  match l with
  | [] => Ok s
  | x :: l' => res_bind (body s x) (res_fold body l')
  end.

(** One item [s.id: s.total_amount - s.paid_amount] of the inner
    comprehension of [get_residual_amount]. The subtraction of a
    [Decimal] from [None] raises [TypeError]. *)
Definition residual_of (σ : Store) (sid : Z) : Res (Z * Z) :=
  match sales σ !! sid with
  | None => Raise (DoesNotExist "sale.sale" sid)
  | Some s =>
      match Sale.total_amount s with
      | None => Raise (TypeError "unsupported operand type(s) for -")
      | Some total => Ok (sid, total - paid_amount σ sid)
      end
  end.

(** [Sale.get_residual_amount(sales, names)]:
    [{n: {s.id: s.total_amount - s.paid_amount for s in sales}
      for n in names}] *)
Definition get_residual_amount (σ : Store) (sale_ids : list Z)
    (names : list string) : Res (gmap string (gmap Z Z)) :=
  res_bind
    (res_map (λ n, res_bind (res_map (residual_of σ) sale_ids)
                     (λ kv, Ok (n, list_to_map kv : gmap Z Z)))
             names)
    (λ kv, Ok (list_to_map kv)).

(** ** Effects

    An operation runs in a world: the store and the log of the calls it
    made (the writes of the ORM and the methods of other modules), oldest
    first. An exception leaves the world as it was when it was raised. *)

Record InvoiceValues := mkInvoiceValues {
  v_invoice_date : option Z;
  v_accounting_date : option Z;
  v_description : string;
}.

Record PaymentValues := mkPaymentValues {
  v_invoice : Z;
  v_party : option Z;
}.

(** The calls, with their arguments. [EvWorkflowToEnd] is the entry into
    [workflow_to_end], logged so that its invocations can be counted. *)
Inductive Event :=
  | EvWorkflowToEnd (sale_ids : list Z)
  | EvQuote (sale_ids : list Z)
  | EvConfirm (sale_ids : list Z)
  | EvProcess (sale_ids : list Z)
  | EvDo (sale_ids : list Z)
  | EvInvoiceWrite (staged : list (Z * InvoiceValues))
  | EvInvoicePost (invoice_ids : list Z)
  | EvStatementLineWrite (staged : list (Z * PaymentValues))
  | EvStatementLineSave (payment : Payment.t)
  | EvSaleSave (sale_id : Z)
  | EvSetNumber (sale_ids : list Z)
  | EvReconcile (line_ids : list Z).

Record World := mkWorld {
  store : Store;
  log : list Event;
}.

Definition M (A : Type) : Type := World → Res A * World.

Definition ret {A} (a : A) : M A := λ w, (Ok a, w).

Definition bind {A B} (m : M A) (k : A → M B) : M B :=
  λ w, match m w with
       | (Ok a, w') => k a w'
       | (Raise e, w') => (Raise e, w')
       end.

Definition raise {A} (e : Error) : M A := λ w, (Raise e, w).

Definition gets {A} (f : Store → A) : M A := λ w, (Ok (f (store w)), w).

Definition lift {A} (f : Store → Res A) : M A := λ w, (f (store w), w).

Definition emit (ev : Event) : M unit :=
  λ w, (Ok tt, mkWorld (store w) (log w ++ [ev])).

(** A call of a method of another module: logged, then run. *)
Definition call (ev : Event) (f : Store → Res Store) : M unit :=
  λ w, match f (store w) with
       | Ok σ' => (Ok tt, mkWorld σ' (log w ++ [ev]))
       | Raise e => (Raise e, mkWorld (store w) (log w ++ [ev]))
       end.

(** A write of the ORM: logged, and the rows updated. *)
Definition write (ev : Event) (f : Store → Store) : M unit :=
  λ w, (Ok tt, mkWorld (f (store w)) (log w ++ [ev])).

Declare Scope m_scope.
Delimit Scope m_scope with M.
Notation "x <- c1 ;; c2" := (bind c1 (λ x, c2))
  (at level 100, c1 at next level, right associativity) : m_scope.
Notation "c1 ;;; c2" := (bind c1 (λ _, c2))
  (at level 100, right associativity) : m_scope.
Local Open Scope m_scope.

Definition when (b : bool) (m : M unit) : M unit := if b then m else ret tt.

(** A [for] loop with effects, threading the local variables. *)
Fixpoint for_each {A S} (body : S → A → M S) (l : list A) (s : S) : M S :=
  match l with
  | [] => ret s
  | x :: l' => s' <- body s x ;; for_each body l' s'
  end.

Definition read_sale (sid : Z) : M Sale.t :=
  lift (λ σ, match sales σ !! sid with
             | Some s => Ok s
             | None => Raise (DoesNotExist "sale.sale" sid)
             end).

Definition read_party (pid : Z) : M Party.t :=
  lift (λ σ, match parties σ !! pid with
             | Some p => Ok p
             | None => Raise (DoesNotExist "party.party" pid)
             end).

(** [sale.invoices]: the rows of the invoices the function field lists. *)
Definition sale_invoices (σ : Store) (s : Sale.t) : list (Z * Invoice.t) :=
  omap (λ i, (λ inv, (i, inv)) <$> invoices σ !! i) (Sale.invoices s).

(** Methods of other modules. Each takes the records it is called on and
    the store, and returns the new store or raises. *)
Class Collaborators := {
  quote : list Z → Store → Res Store;
  confirm : list Z → Store → Res Store;
  process : list Z → Store → Res Store;
  do_ : list Z → Store → Res Store;
  is_done : Store → Z → bool;
  post : list Z → Store → Res Store;
  set_number : list Z → Store → Res Store;
  reconcile : list Z → Store → Res Store;
  today : Z;
}.

(** ** Sale settlement workflow *)

Section Workflow.
Context `{Collaborators}.

(** The three guarded transitions at the head of the first loop. The
    state is read again after each call. *)
Definition advance (sid : Z) : M unit :=
  s <- read_sale sid ;;
  when (bool_decide (Sale.state s = SaleDraft))
       (call (EvQuote [sid]) (quote [sid])) ;;;
  s <- read_sale sid ;;
  when (bool_decide (Sale.state s = SaleQuotation))
       (call (EvConfirm [sid]) (confirm [sid])) ;;;
  s <- read_sale sid ;;
  when (bool_decide (Sale.state s = SaleConfirmed))
       (call (EvProcess [sid]) (process [sid])).

(** The local variables of the first loop: the arguments staged for
    [Invoice.write], the set [to_post], and the variable [invoice] of the
    inner [for], unbound until that loop runs once. *)
Record Locals := mkLocals {
  staged_invoices : list (Z * InvoiceValues);
  to_post : list Z;
  invoice_var : option Z;
}.

Definition no_locals : Locals := mkLocals [] [] None.

(** [to_post.add(invoice)]. The set is kept as the list of its elements
    in the order they came in; [list(to_post)] gives them in the order of
    the Python set, which is not this one. The properties read it for
    membership and for the absence of duplicates only. *)
Definition set_add (i : Z) (s : list Z) : list Z :=
  if bool_decide (i ∈ s) then s else s ++ [i].

(** The body of [for invoice in sale.invoices]. *)
Definition stage_invoice (reference : string) (loc : Locals)
    (i : Z * Invoice.t) : Locals :=
  let '(iid, inv) := i in
  if bool_decide (Invoice.state inv ≠ InvDraft) then
    mkLocals (staged_invoices loc) (to_post loc) (Some iid)
  else
    let values :=
      mkInvoiceValues
        (match Invoice.invoice_date inv with Some _ => None | None => Some today end)
        (match Invoice.accounting_date inv with Some _ => None | None => Some today end)
        reference in
    mkLocals (staged_invoices loc ++ [(iid, values)])
             (set_add iid (to_post loc))
             (Some iid).

(** [getattr(sale.party, 'sale_invoice_grouping_method', False)], as a
    truth value. *)
Definition grouping (p : Party.t) : bool :=
  match Party.sale_invoice_grouping_method p with
  | None => false
  | Some m => bool_decide (m ≠ "")
  end.

(** The body of the first [for sale in sales]. *)
Definition prepare_sale (loc : Locals) (sid : Z) : M Locals :=
  advance sid ;;;
  s <- read_sale sid ;;
  invs <- gets (λ σ, sale_invoices σ s) ;;
  if bool_decide (invs = []) && bool_decide (Sale.invoice_method s = MethodOrder)
  then raise (UserError "not_customer_invoice" [Sale.reference s])
  else
    p <- read_party (Sale.party s) ;;
    if bool_decide (invs ≠ []) && negb (grouping p)
    then ret (foldl (stage_invoice (Sale.reference s)) loc invs)
    else ret loc.

(** [Invoice.write] on the staged arguments *)
Definition apply_invoice_values (v : InvoiceValues) (inv : Invoice.t)
  : Invoice.t :=
  Invoice.mk (Invoice.state inv)
    (match v_invoice_date v with Some d => Some d | None => Invoice.invoice_date inv end)
    (match v_accounting_date v with
     | Some d => Some d
     | None => Invoice.accounting_date inv
     end)
    (Some (v_description v))
    (Invoice.party inv)
    (Invoice.lines_to_pay inv).

Definition with_invoices (σ : Store) (m : gmap Z Invoice.t) : Store :=
  mkStore (sales σ) (parties σ) m (payments σ) (move_lines σ) (statements σ)
          (devices σ) (user_devices σ) (sale_lines σ) (invoice_lines σ).

Definition with_payments (σ : Store) (l : list Payment.t) : Store :=
  mkStore (sales σ) (parties σ) (invoices σ) l (move_lines σ) (statements σ)
          (devices σ) (user_devices σ) (sale_lines σ) (invoice_lines σ).

Definition with_sales (σ : Store) (m : gmap Z Sale.t) : Store :=
  mkStore m (parties σ) (invoices σ) (payments σ) (move_lines σ)
          (statements σ) (devices σ) (user_devices σ) (sale_lines σ)
          (invoice_lines σ).

Definition invoice_write (staged : list (Z * InvoiceValues)) : M unit :=
  write (EvInvoiceWrite staged)
    (λ σ, with_invoices σ
       (foldl (λ m '(iid, v), alter (apply_invoice_values v) iid m)
              (invoices σ) staged)).

(** [StatementLine.write] on the staged arguments *)
Definition apply_payment_values (v : PaymentValues) (p : Payment.t)
  : Payment.t :=
  Payment.mk (Payment.id p) (Payment.statement p) (Payment.date p)
    (Payment.amount p)
    (match v_party v with Some q => Some q | None => Payment.party p end)
    (Payment.account p) (Payment.description p) (Payment.sale p)
    (Some (v_invoice v)) (Payment.move p).

Definition statement_line_write (staged : list (Z * PaymentValues)) : M unit :=
  write (EvStatementLineWrite staged)
    (λ σ, with_payments σ
       (foldl (λ l '(pid, v),
                 (λ p, if bool_decide (Payment.id p = pid)
                       then apply_payment_values v p else p) <$> l)
              (payments σ) staged)).

(** [[invoice for invoice in sale.invoices
      if invoice and invoice.state == 'posted']] *)
Definition posted_invoices (σ : Store) (s : Sale.t) : list (Z * Invoice.t) :=
  filter (λ i, Invoice.state i.2 = InvPosted) (sale_invoices σ s).

(** The body of [for payment in sale.payments]. The comprehension binds
    its own [invoice] (Python 3); the [invoice] of [invoice.party] is the
    variable of the function, left by the inner [for] of the first loop,
    and reading it unbound raises [UnboundLocalError]. *)
Definition attribute_payment (σ : Store) (invoice : option Z) (s : Sale.t)
    (to_write : list (Z * PaymentValues)) (payment : Payment.t)
  : Res (list (Z * PaymentValues)) :=
  match posted_invoices σ s with
  | [] => Ok to_write
  | first :: _ =>
      match invoice with
      | None => Raise (UnboundLocalError "invoice")
      | Some iid =>
          match invoices σ !! iid with
          | None => Raise (DoesNotExist "account.invoice" iid)
          | Some inv =>
              let party :=
                if bool_decide (Payment.party payment ≠ Some (Invoice.party inv))
                then Some (Invoice.party inv) else None in
              Ok (to_write ++
                  [(Payment.id payment, mkPaymentValues first.1 party)])
          end
      end
  end.

(** The body of the second [for sale in sales]. *)
Definition settle_sale (σ : Store) (invoice : option Z)
    (acc : list (Z * PaymentValues) * list Z) (sid : Z)
  : Res (list (Z * PaymentValues) * list Z) :=
  match sales σ !! sid with
  | None => Raise (DoesNotExist "sale.sale" sid)
  | Some s =>
      res_bind
        (res_fold (attribute_payment σ invoice s) (payments_of σ sid) acc.1)
        (λ to_write,
           Ok (to_write, if is_done σ sid then acc.2 ++ [sid] else acc.2))
  end.

(** [Sale.workflow_to_end(sales)] *)
Definition workflow_to_end (sale_ids : list Z) : M unit :=
  emit (EvWorkflowToEnd sale_ids) ;;;
  loc <- for_each prepare_sale sale_ids no_locals ;;
  when (bool_decide (to_post loc ≠ []))
       (invoice_write (staged_invoices loc) ;;;
        call (EvInvoicePost (to_post loc)) (post (to_post loc))) ;;;
  acc <- lift (λ σ, res_fold (settle_sale σ (invoice_var loc)) sale_ids
                      ([], [])) ;;
  when (bool_decide (acc.1 ≠ [])) (statement_line_write acc.1) ;;;
  when (bool_decide (acc.2 ≠ [])) (call (EvDo acc.2) (do_ acc.2)).

End Workflow.

(** ** Payment wizard *)

Inductive WizardState := StateStart | StateEnd.

(** The values of [sale.payment.form] the transitions read. *)
Module Form.
Record t := mk {
  journal : Z;
  journal_name : string;
  payment_amount : option Z;
}.
End Form.

(** The dictionary [default_start] returns. *)
Module Defaults.
Record t := mk {
  journal : option Z;
  journals : list Z;
  payment_amount : option Z;
  currency_digits : Z;
  party : Z;
}.
End Defaults.

(** [sale.sale_device or user.sale_device or False], [None] for [False]. *)
Definition resolve_device (σ : Store) (s : Sale.t) (user : Z) : option Z :=
  match Sale.sale_device s with
  | Some d => Some d
  | None => user_devices σ !! user
  end.

(** [sale.total_amount - sale.paid_amount if sale.paid_amount
     else sale.total_amount] *)
Definition default_payment_amount (σ : Store) (s : Sale.t) (sid : Z)
  : Res (option Z) :=
  if bool_decide (paid_amount σ sid ≠ 0) then
    match Sale.total_amount s with
    | None => Raise (TypeError "unsupported operand type(s) for -")
    | Some total => Ok (Some (total - paid_amount σ sid))
    end
  else Ok (Sale.total_amount s).

(** [WizardSalePayment.default_start], for the sale [active_id] of the
    context and the user [user] of the transaction. *)
Definition default_start (σ : Store) (active_id user : Z) : Res Defaults.t :=
  match sales σ !! active_id with
  | None => Raise (DoesNotExist "sale.sale" active_id)
  | Some s =>
      let sale_device := resolve_device σ s user in
      if bool_decide (user ≠ 0) && bool_decide (sale_device = None)
      then Raise (UserError "not_sale_device" [])
      else
        match sale_device with
        | None => Raise (AttributeError "'bool' object has no attribute 'journal'")
        | Some d =>
            match devices σ !! d with
            | None => Raise (DoesNotExist "sale.device" d)
            | Some dev =>
                res_bind (default_payment_amount σ s active_id)
                  (λ amount,
                     Ok (Defaults.mk (Device.journal dev) (Device.journals dev)
                           amount (Sale.currency_digits s) (Sale.party s)))
            end
        end
  end.

(** [Statement.search([('journal', '=', form.journal),
      ('state', '=', 'draft')], order=[('date', 'DESC')])] *)
Definition date_desc (a b : Statement.t) : Prop :=
  Statement.date b ≤ Statement.date a.

#[global] Instance date_desc_dec : RelDecision date_desc.
Proof. intros a b. unfold date_desc. apply _. Defined.

Definition draft_statements (σ : Store) (journal : Z) : list Statement.t :=
  merge_sort date_desc
    (filter (λ st, Statement.journal st = journal ∧ Statement.state st = StDraft)
            (statements σ)).

(** The identifier the database gives to a new statement line. *)
Definition next_payment_id (σ : Store) : Z :=
  1 + foldr Z.max 0 (Payment.id <$> payments σ).

(** Python's truth value of [sale.number] and of [form.payment_amount]. *)
Definition truthy_string (s : option string) : bool :=
  match s with
  | None => false
  | Some v => bool_decide (v ≠ "")
  end.

Definition truthy_amount (a : option Z) : bool :=
  match a with
  | None => false
  | Some v => bool_decide (v ≠ 0)
  end.

Definition set_description (s : Sale.t) : Sale.t :=
  Sale.mk (Sale.state s) (Sale.total_amount s) (Sale.total_amount_cache s)
    (Sale.invoice_method s) (Sale.reference s) (Sale.number s)
    (Some (Sale.reference s)) (Sale.party s) (Sale.sale_device s)
    (Sale.currency_digits s) (Sale.invoices s).

(** [sale.party.account_receivable and sale.party.account_receivable.id],
    as the [or] that follows reads it: [None] when the party has no
    receivable account and when the identifier of the account is 0, both
    false in Python. *)
Definition receivable_id (p : Party.t) : option Z :=
  match Party.account_receivable p with
  | Some account => if bool_decide (account ≠ 0) then Some account else None
  | None => None
  end.

Section Wizards.
Context `{Collaborators}.

(** [transition_pay_] up to [payment.save()]. *)
Definition record_payment (form : Form.t) (active_id : Z) : M unit :=
  found <- gets (λ σ, draft_statements σ (Form.journal form)) ;;
  match found with
  | [] => raise (UserError "not_draft_statement" [Form.journal_name form])
  | statement :: _ =>
      s <- read_sale active_id ;;
      when (negb (truthy_string (Sale.number s)))
           (call (EvSetNumber [active_id]) (set_number [active_id])) ;;;
      s <- read_sale active_id ;;
      p <- read_party (Sale.party s) ;;
      match receivable_id p with
      | None =>
          raise (UserError "party_without_account_receivable" [Party.name p])
      | Some account =>
          match Form.payment_amount form with
          | Some amount =>
              when (truthy_amount (Some amount))
                (pid <- gets next_payment_id ;;
                 let payment :=
                   Payment.mk pid (Statement.id statement) today amount
                     (Some (Sale.party s)) account (Sale.number s)
                     (Some active_id) None None in
                 write (EvStatementLineSave payment)
                   (λ σ, with_payments σ (payments σ ++ [payment])))
          | None => ret tt
          end
      end
  end.

(** [transition_pay_] from [if sale.total_amount != sale.paid_amount]. *)
Definition next_state (active_id : Z) : M WizardState :=
  s <- read_sale active_id ;;
  paid <- gets (λ σ, paid_amount σ active_id) ;;
  if bool_decide (Sale.total_amount s ≠ Some paid) then ret StateStart
  else if bool_decide (Sale.state s ≠ SaleDraft) then ret StateEnd
  else
    write (EvSaleSave active_id)
      (λ σ, with_sales σ (alter set_description active_id (sales σ))) ;;;
    workflow_to_end [active_id] ;;;
    ret StateEnd.

(** [WizardSalePayment.transition_pay_] *)
Definition transition_pay_ (form : Form.t) (active_id : Z) : M WizardState :=
  record_payment form active_id ;;;
  next_state active_id.

(** ** Ledger reconciler *)

(** [invoice.lines_to_pay] and [payment.move.lines] *)
Definition lines_to_pay_of (σ : Store) (inv : Invoice.t) : list MoveLine.t :=
  omap (λ i, head (filter (λ l, MoveLine.id l = i) (move_lines σ)))
       (Invoice.lines_to_pay inv).

Definition move_lines_of (σ : Store) (m : Z) : list MoveLine.t :=
  filter (λ l, MoveLine.move l = m) (move_lines σ).

(** [lines.append(line); amount += line.debit - line.credit] *)
Definition take_line (acc : list Z * Z) (l : MoveLine.t) : list Z * Z :=
  (acc.1 ++ [MoveLine.id l], acc.2 + (MoveLine.debit l - MoveLine.credit l)).

(** [for invoice in sale.invoices: for line in invoice.lines_to_pay] *)
Definition collect_invoice_lines (σ : Store) (s : Sale.t)
    (acc : list Z * Z) : list Z * Z :=
  foldl (λ acc inv,
           foldl (λ acc l,
                    match MoveLine.reconciliation l with
                    | None => take_line acc l
                    | Some _ => acc
                    end)
                 acc (lines_to_pay_of σ inv.2))
        acc (sale_invoices σ s).

(** The body of [for line in payment.move.lines]: the test
    [not line.reconciliation and line.account.id == account.id], whose
    second operand reads [account.id]. *)
Definition collect_payment_line (account : option Z) (acc : list Z * Z)
    (l : MoveLine.t) : Res (list Z * Z) :=
  match MoveLine.reconciliation l with
  | Some _ => Ok acc
  | None =>
      match account with
      | None => Raise (AttributeError "'NoneType' object has no attribute 'id'")
      | Some a =>
          Ok (if bool_decide (MoveLine.account l = a) then take_line acc l
              else acc)
      end
  end.

(** [for payment in sale.payments] *)
Definition collect_payment_lines (σ : Store) (account : option Z) (sid : Z)
    (acc : list Z * Z) : Res (list Z * Z) :=
  res_fold (λ acc payment,
              match Payment.move payment with
              | None => Ok acc
              | Some m =>
                  res_fold (collect_payment_line account) (move_lines_of σ m)
                           acc
              end)
           (payments_of σ sid) acc.

(** The body of [for sale in Sale.browse(active_ids)]. *)
Definition reconcile_sale (sid : Z) : M unit :=
  s <- read_sale sid ;;
  p <- read_party (Sale.party s) ;;
  let account := Party.account_receivable p in
  acc <- lift (λ σ, collect_payment_lines σ account sid
                      (collect_invoice_lines σ s ([], 0))) ;;
  when (bool_decide (acc.1 ≠ []) && bool_decide (acc.2 = 0))
       (call (EvReconcile acc.1) (reconcile acc.1)).

(** [WizardSaleReconcile.transition_start] *)
Definition transition_start (active_ids : list Z) : M WizardState :=
  for_each (λ _ sid, reconcile_sale sid) active_ids tt ;;;
  ret StateEnd.

End Wizards.

(** ** Residual query engine

    The search builds one SQL query; its meaning is given here on the
    tables of the store, rows as lists. A comparison with [NULL] is not
    true. *)

Definition left_join {A B} (on : A → B → bool) (l : list A) (r : list B)
  : list (A * option B) :=
  l ≫= λ a, match filter (λ b, on a b) r with
             | [] => [(a, None)]
             | bs => (λ b, (a, Some b)) <$> bs
             end.

Definition inner_join {A B} (on : A → B → bool) (l : list A) (r : list B)
  : list (A * B) :=
  l ≫= λ a, (λ b, (a, b)) <$> filter (λ b, on a b) r.

Definition group_by {A} (key : A → Z) (rows : list A) : list (Z * list A) :=
  (λ k, (k, filter (λ r, key r = k) rows)) <$> remove_dups (key <$> rows).

(** [Position(',', origin)]: the place of the first comma, counted from
    1, and 0 when there is none. *)
Definition position_comma (origin : string) : nat :=
  match String.index 0 "," origin with
  | Some n => S n
  | None => 0%nat
  end.

(** [Substring(origin, n)]: the characters from the place [n], counted
    from 1. *)
Definition substring_from (n : nat) (origin : string) : string :=
  String.substring (n - 1) (String.length origin) origin.

Definition digit_of (c : Ascii.ascii) : option Z :=
  let n := Z.of_nat (Ascii.nat_of_ascii c) in
  if bool_decide (48 ≤ n ≤ 57) then Some (n - 48) else None.

(** C's [isspace]: the blanks the integer input skips. *)
Definition is_blank (c : Ascii.ascii) : bool :=
  bool_decide (Ascii.nat_of_ascii c ∈ [9; 10; 11; 12; 13; 32]%nat).

Fixpoint skip_blanks (l : list Ascii.ascii) : list Ascii.ascii :=
  match l with
  | [] => []
  | c :: l' => if is_blank c then skip_blanks l' else l
  end.

(** The digits at the head of a text, read on to [acc], and the rest of
    the text. *)
Fixpoint read_digits (acc : Z) (l : list Ascii.ascii)
  : Z * list Ascii.ascii :=
  match l with
  | [] => (acc, [])
  | c :: l' =>
      match digit_of c with
      | Some d => read_digits (10 * acc + d) l'
      | None => (acc, l)
      end
  end.

(** The values of the type [INTEGER] of PostgreSQL, 32 bits. *)
Definition int4_min : Z := -2147483648.
Definition int4_max : Z := 2147483647.

(** [Cast(_, INTEGER)] of a text on PostgreSQL, the integer input
    [pg_strtoint32] in its order: blanks are skipped, a sign is taken, a
    digit is required, the digits are read into a negative 32-bit
    accumulator (out of range as soon as it overflows), blanks may follow
    and nothing else, and a number that is not negative must not be
    2147483648. The decimal form only; the prefixes and the underscores
    that version 16 adds are not read. *)
Definition cast_digits (negative : bool) (l : list Ascii.ascii) : Res Z :=
  match l with
  | [] => Raise (DataError "invalid input syntax for type integer")
  | c :: _ =>
      match digit_of c with
      | None => Raise (DataError "invalid input syntax for type integer")
      | Some _ =>
          let '(v, rest) := read_digits 0 l in
          if bool_decide (- int4_min < v)
          then Raise (DataError "value is out of range for type integer")
          else if bool_decide (skip_blanks rest ≠ [])
          then Raise (DataError "invalid input syntax for type integer")
          else if negb negative && bool_decide (v = - int4_min)
          then Raise (DataError "value is out of range for type integer")
          else Ok (if negative then - v else v)
      end
  end.

Definition cast_chars (l : list Ascii.ascii) : Res Z :=
  match skip_blanks l with
  | [] => cast_digits false []
  | c :: r =>
      if bool_decide (c = "-"%char) then cast_digits true r
      else if bool_decide (c = "+"%char) then cast_digits false r
      else cast_digits false (c :: r)
  end.

Definition cast_integer (s : string) : Res Z :=
  cast_chars (String.list_ascii_of_string s).

(** [Cast(Substring(origin, Position(',', origin) + Literal(1)), INTEGER)] *)
Definition origin_id (origin : string) : Res Z :=
  cast_integer (substring_from (position_comma origin + 1) origin).

(** The cast over the column [origin] of an invoice line: [NULL] for a
    [NULL] origin, an error of the database for a text that is no
    integer of 32 bits. *)
Definition origin_key (il : InvoiceLine.t) : Res (InvoiceLine.t * option Z) :=
  match InvoiceLine.origin il with
  | None => Ok (il, None)
  | Some o => res_bind (origin_id o) (λ n, Ok (il, Some n))
  end.

(** [Coalesce(line.amount, 0)] on a row of the left join. *)
Definition coalesce_amount (line : option Payment.t) : Z :=
  match line with
  | Some l => Payment.amount l
  | None => 0
  end.

Definition residual_state (st : SaleState) : bool :=
  bool_decide (st ∈ [SaleConfirmed; SaleProcessing; SaleDone]).

(** The sub-query [grouped]: [sale] left-joined with the statement lines,
    kept where the total is cached and the state is one of the three,
    grouped by [sale.id], the groups kept by [having]. The cached total
    of a group is the one of its sale, [sale.id] being the key. *)
Definition grouped (σ : Store) : list Z :=
  let joined :=
    left_join (λ (s : Z * Sale.t) line, bool_decide (Payment.sale line = Some s.1))
              (map_to_list (sales σ)) (payments σ) in
  let kept :=
    filter (λ r : (Z * Sale.t) * option Payment.t,
              is_Some (Sale.total_amount_cache r.1.2) ∧
              residual_state (Sale.state r.1.2))
           joined in
  let having (g : Z * list ((Z * Sale.t) * option Payment.t)) : bool :=
    match g.2 with
    | [] => false
    | r :: _ =>
        match Sale.total_amount_cache r.1.2 with
        | Some total =>
            bool_decide (sumZ ((λ r, coalesce_amount r.2) <$> g.2) < total)
        | None => false
        end
    end in
  fst <$> filter (λ g, having g) (group_by (λ r, r.1.1) kept).

(** The query: [grouped] joined with the sale lines, the invoice lines
    (on the cast of their origin) and the invoices, kept where the invoice
    is posted, grouped by [grouped.id]. The cast is taken here over every
    invoice line, so one origin that is no integer fails the query; a
    database evaluates it on the rows its plan reaches and may return
    where this fails. The two agree where every origin is an integer. *)
Definition residual_query (σ : Store) : Res (list Z) :=
  res_bind (res_map origin_key (invoice_lines σ))
    (λ keyed,
       let with_lines :=
         inner_join (λ g sl, bool_decide (SaleLine.sale sl = g))
                    (grouped σ) (sale_lines σ) in
       let with_invoice_lines :=
         inner_join (λ (r : Z * SaleLine.t) (il : InvoiceLine.t * option Z),
                       bool_decide (il.2 = Some (SaleLine.id r.2)))
                    with_lines keyed in
       let with_invoices :=
         inner_join (λ (r : (Z * SaleLine.t) * (InvoiceLine.t * option Z))
                       (inv : Z * Invoice.t),
                       bool_decide (InvoiceLine.invoice r.2.1 = Some inv.1))
                    with_invoice_lines (map_to_list (invoices σ)) in
       let posted :=
         filter (λ r : ((Z * SaleLine.t) * (InvoiceLine.t * option Z))
                       * (Z * Invoice.t),
                   Invoice.state r.2.2 = InvPosted)
                with_invoices in
       Ok (fst <$> group_by (λ r, r.1.1.1) posted)).

(** [Sale.search_residual_amount(name, clause)]: the domain
    [[('id', 'in', query)]], given as the identifiers it selects. Neither
    [name] nor [clause] is read. *)
Definition search_residual_amount (name : string) (clause : string * string * Z)
    (σ : Store) : Res (list Z) :=
  residual_query σ.

(** ** Vocabulary of the properties *)

(** The total of a sale as a number, for the sales that have one. *)
Definition total_of (σ : Store) (sid : Z) : Z :=
  default 0 (sales σ !! sid ≫= Sale.total_amount).

(** The calls that write or post invoices, and the ones that write
    statement lines. *)
Definition invoice_event (ev : Event) : bool :=
  match ev with
  | EvInvoiceWrite _ | EvInvoicePost _ => true
  | _ => false
  end.

Definition payment_event (ev : Event) : bool :=
  match ev with
  | EvStatementLineWrite _ | EvStatementLineSave _ => true
  | _ => false
  end.

Definition transition_event (ev : Event) : bool :=
  match ev with
  | EvQuote _ | EvConfirm _ | EvProcess _ => true
  | _ => false
  end.

Definition settlement_event (ev : Event) : bool :=
  match ev with
  | EvWorkflowToEnd _ => true
  | _ => false
  end.

(** Every call [m] makes, in any world and whatever its outcome,
    satisfies [P]. *)
Definition emits {A} (P : Event → Prop) (m : M A) : Prop :=
  ∀ w r w', m w = (r, w') → ∃ evs, log w' = log w ++ evs ∧ Forall P evs.

(** What the second loop of [workflow_to_end] stages for a payment: the
    invoice it is attributed to, and the party when it differs from the
    one it is compared with. *)
Definition restaged (invoice_id compared_party : Z) (payment : Payment.t)
  : Z * PaymentValues :=
  (Payment.id payment,
   mkPaymentValues invoice_id
     (if bool_decide (Payment.party payment ≠ Some compared_party)
      then Some compared_party else None)).

(** The candidate lines of a sale as the specification words them: the
    lines to pay of its invoices that are not reconciled, then the lines of
    the moves of its payments that are not reconciled and whose account is
    the receivable account of the party (none is, when the party has no
    such account); and their signed amount. *)
Definition unreconciled (l : MoveLine.t) : Prop :=
  MoveLine.reconciliation l = None.

#[global] Instance unreconciled_dec l : Decision (unreconciled l).
Proof. unfold unreconciled. apply _. Defined.


Definition payment_lines (σ : Store) (sid : Z) : list MoveLine.t :=
  payments_of σ sid ≫= λ payment,
    match Payment.move payment with
    | Some m => move_lines_of σ m
    | None => []
    end.





(** How the specification reads an origin, said without the functions of
    the query: the text after the first comma (the whole text when there
    is no comma) is an integer written in decimal, blanks around it and a
    sign before it allowed, that fits 32 bits. *)
Definition blank (c : Ascii.ascii) : Prop :=
  c ∈ [" "%char; Ascii.ascii_of_nat 9; Ascii.ascii_of_nat 10;
       Ascii.ascii_of_nat 11; Ascii.ascii_of_nat 12; Ascii.ascii_of_nat 13].

Definition digit_char (d : Z) : Ascii.ascii :=
  Ascii.ascii_of_nat (48 + Z.to_nat d).

Definition decimal (ds : list Z) : Z := foldl (λ acc d, 10 * acc + d) 0 ds.

Definition reads_integer (text : string) (n : Z) : Prop :=
  ∃ lead sign ds trail,
    String.list_ascii_of_string text =
      lead ++ sign ++ (digit_char <$> ds) ++ trail ∧
    Forall blank lead ∧ Forall blank trail ∧
    sign ∈ [[]; ["+"%char]; ["-"%char]] ∧
    ds ≠ [] ∧ Forall (λ d, 0 ≤ d ≤ 9) ds ∧
    n = (if bool_decide (sign = ["-"%char]) then - decimal ds else decimal ds) ∧
    -2147483648 ≤ n ≤ 2147483647.

Definition origin_token (origin rest : string) : Prop :=
  (∃ model, origin = (model +:+ "," +:+ rest) ∧
            ","%char ∉ String.list_ascii_of_string model) ∨
  (rest = origin ∧ ","%char ∉ String.list_ascii_of_string origin).

Definition origin_reads (origin : string) (n : Z) : Prop :=
  ∃ rest, origin_token origin rest ∧ reads_integer rest n.

(** The sales the specification says the residual search returns: in one
    of the three states, with a cached total the payments do not reach,
    and with a posted invoice one of whose lines has an origin that reads,
    after its first comma, as one of the lines of the sale. *)
Definition outstanding (σ : Store) (sid : Z) : Prop :=
  ∃ s total,
    sales σ !! sid = Some s ∧
    Sale.state s ∈ [SaleConfirmed; SaleProcessing; SaleDone] ∧
    Sale.total_amount_cache s = Some total ∧
    sumZ (Payment.amount <$> payments_of σ sid) < total ∧
    ∃ sl il origin iid inv,
      sl ∈ sale_lines σ ∧ SaleLine.sale sl = sid ∧
      il ∈ invoice_lines σ ∧ InvoiceLine.origin il = Some origin ∧
      origin_reads origin (SaleLine.id sl) ∧
      InvoiceLine.invoice il = Some iid ∧
      invoices σ !! iid = Some inv ∧ Invoice.state inv = InvPosted.

(** The rows the left join gives for one sale. *)
Definition joined_rows (σ : Store) (s : Z * Sale.t)
  : list ((Z * Sale.t) * option Payment.t) :=
  match filter (λ line, bool_decide (Payment.sale line = Some s.1)) (payments σ) with
  | [] => [(s, None)]
  | bs => (λ b, (s, Some b)) <$> bs
  end.

(** The [where] of the sub-query, on the sale of a row. *)
Definition candidate (s : Sale.t) : Prop :=
  is_Some (Sale.total_amount_cache s) ∧ residual_state (Sale.state s).

(** ** A model of the collaborators, to run the operations

    The properties below hold for every instance of [Collaborators]. This
    one gives the transitions their plain effect, so that the operations
    can be run on the stores that follow: [quote], [confirm], [process] and
    [do] set the state of the sale, [process] creates a draft invoice for a
    sale with a positive total and none yet, [post] posts, [set_number]
    numbers and [reconcile] marks the lines. *)
Module Demo.

Definition sale_with_state (st : SaleState) (s : Sale.t) : Sale.t :=
  Sale.mk st (Sale.total_amount s) (Sale.total_amount_cache s)
    (Sale.invoice_method s) (Sale.reference s) (Sale.number s)
    (Sale.description s) (Sale.party s) (Sale.sale_device s)
    (Sale.currency_digits s) (Sale.invoices s).

Definition set_state (st : SaleState) (ids : list Z) (σ : Store) : Res Store :=
  Ok (with_sales σ
        (foldl (λ m i, alter (sale_with_state st) i m) (sales σ) ids)).

Definition next_invoice_id (σ : Store) : Z :=
  1 + foldr Z.max 0 (fst <$> map_to_list (invoices σ)).

Definition process_one (σ : Store) (sid : Z) : Store :=
  match sales σ !! sid with
  | None => σ
  | Some s =>
      let s' := sale_with_state SaleProcessing s in
      if bool_decide (Sale.invoices s = []) &&
         bool_decide (0 < default 0 (Sale.total_amount s))
      then
        let iid := next_invoice_id σ in
        let inv := Invoice.mk InvDraft None None None (Sale.party s) [] in
        let s'' :=
          Sale.mk (Sale.state s') (Sale.total_amount s')
            (Sale.total_amount_cache s') (Sale.invoice_method s')
            (Sale.reference s') (Sale.number s') (Sale.description s')
            (Sale.party s') (Sale.sale_device s') (Sale.currency_digits s')
            [iid] in
        with_invoices (with_sales σ (<[sid := s'']> (sales σ)))
                      (<[iid := inv]> (invoices σ))
      else with_sales σ (<[sid := s']> (sales σ))
  end.

Definition invoice_with_state (st : InvoiceState) (inv : Invoice.t)
  : Invoice.t :=
  Invoice.mk st (Invoice.invoice_date inv) (Invoice.accounting_date inv)
    (Invoice.description inv) (Invoice.party inv) (Invoice.lines_to_pay inv).

Definition post_all (ids : list Z) (σ : Store) : Res Store :=
  Ok (with_invoices σ
        (foldl (λ m i, alter (invoice_with_state InvPosted) i m)
               (invoices σ) ids)).

Definition all_posted (σ : Store) (sid : Z) : bool :=
  match sales σ !! sid with
  | None => false
  | Some s =>
      bool_decide (Sale.invoices s ≠ []) &&
      forallb (λ i, bool_decide (Invoice.state i.2 = InvPosted))
              (sale_invoices σ s)
  end.

Definition sale_with_number (s : Sale.t) : Sale.t :=
  Sale.mk (Sale.state s) (Sale.total_amount s) (Sale.total_amount_cache s)
    (Sale.invoice_method s) (Sale.reference s) (Some (Sale.reference s))
    (Sale.description s) (Sale.party s) (Sale.sale_device s)
    (Sale.currency_digits s) (Sale.invoices s).

Definition number_all (ids : list Z) (σ : Store) : Res Store :=
  Ok (with_sales σ (foldl (λ m i, alter sale_with_number i m) (sales σ) ids)).

Definition line_reconciled (l : MoveLine.t) : MoveLine.t :=
  MoveLine.mk (MoveLine.id l) (MoveLine.debit l) (MoveLine.credit l)
    (MoveLine.account l) (Some 1) (MoveLine.move l).

Definition reconcile_all (ids : list Z) (σ : Store) : Res Store :=
  Ok (mkStore (sales σ) (parties σ) (invoices σ) (payments σ)
        ((λ l, if bool_decide (MoveLine.id l ∈ ids) then line_reconciled l
               else l) <$> move_lines σ)
        (statements σ) (devices σ) (user_devices σ) (sale_lines σ)
        (invoice_lines σ)).

Definition collaborators : Collaborators := {|
  quote := set_state SaleQuotation;
  confirm := set_state SaleConfirmed;
  process := λ ids σ, Ok (foldl process_one σ ids);
  do_ := set_state SaleDone;
  is_done := all_posted;
  post := post_all;
  set_number := number_all;
  reconcile := reconcile_all;
  today := 20261104;
|}.

End Demo.

(** ** A store to run the operations on

    Seven sales of four parties. Sale 1 is a draft of 100 with no payment
    yet; sale 2 is processing with a posted invoice and 20 paid out of 50;
    sale 3 is a draft of nothing to invoice; sale 4 belongs to a party with
    no receivable account and has a payment whose move is open; sale 5 has
    two receivable lines of 60 and 40 and a payment move of 100; sale 6
    belongs to a party with an invoice grouping method; sale 7 is
    processing with a posted invoice and a payment. *)
Module Example.

Definition alice := Party.mk "Alice" (Some 7) None.
Definition bob := Party.mk "Bob" (Some 7) None.
Definition carol := Party.mk "Carol" None None.
Definition dave := Party.mk "Dave" (Some 7) (Some "standard").

Definition sale1 :=
  Sale.mk SaleDraft (Some 100) None MethodOrder "S1" None None 10 (Some 1) 2 [].
Definition sale2 :=
  Sale.mk SaleProcessing (Some 50) (Some 50) MethodOrder "S2" (Some "2") None
          20 None 2 [2].
Definition sale3 :=
  Sale.mk SaleDraft (Some 0) None MethodOrder "S3" None None 10 None 2 [].
Definition sale4 :=
  Sale.mk SaleDone (Some 10) (Some 10) MethodOrder "S4" (Some "4") None
          30 None 2 [].
Definition sale5 :=
  Sale.mk SaleProcessing (Some 100) (Some 100) MethodOrder "S5" (Some "5")
          None 10 None 2 [5].
Definition sale6 :=
  Sale.mk SaleDone (Some 30) (Some 30) MethodOrder "S6" (Some "6") None
          40 None 2 [6].
Definition sale7 :=
  Sale.mk SaleProcessing (Some 70) (Some 70) MethodOrder "S7" (Some "7")
          None 10 None 2 [7].

Definition invoice2 := Invoice.mk InvPosted (Some 1) (Some 1) None 20 [].
Definition invoice5 := Invoice.mk InvPosted (Some 1) (Some 1) None 10 [1; 2].
Definition invoice6 := Invoice.mk InvPosted (Some 1) (Some 1) None 40 [].
Definition invoice7 := Invoice.mk InvPosted (Some 1) (Some 1) None 10 [].

Definition payment2 :=
  Payment.mk 2 1 1 20 (Some 20) 7 None (Some 2) None None.
Definition payment4 :=
  Payment.mk 4 1 1 10 (Some 30) 7 None (Some 4) None (Some 8).
Definition payment5 :=
  Payment.mk 5 1 1 100 (Some 10) 7 None (Some 5) None (Some 9).
Definition payment6 :=
  Payment.mk 6 1 1 30 (Some 40) 7 None (Some 6) None None.
Definition payment7 :=
  Payment.mk 7 1 1 70 (Some 10) 7 None (Some 7) None None.

Definition line1 := MoveLine.mk 1 60 0 7 None 50.
Definition line2 := MoveLine.mk 2 40 0 7 None 50.
Definition line3 := MoveLine.mk 3 0 100 7 None 9.
Definition line4 := MoveLine.mk 4 0 10 7 None 8.

Definition shop : Store :=
  mkStore
    {[1 := sale1; 2 := sale2; 3 := sale3; 4 := sale4; 5 := sale5;
      6 := sale6; 7 := sale7]}
    {[10 := alice; 20 := bob; 30 := carol; 40 := dave]}
    {[2 := invoice2; 5 := invoice5; 6 := invoice6; 7 := invoice7]}
    [payment2; payment4; payment5; payment6; payment7]
    [line1; line2; line3; line4]
    [Statement.mk 1 3 StDraft 5; Statement.mk 2 3 StDraft 9]
    {[1 := Device.mk (Some 3) [3; 4]]}
    {[5 := 1]}
    [SaleLine.mk 21 2]
    [InvoiceLine.mk 31 (Some "sale.line,21") (Some 2)].

Definition cash : Form.t := Form.mk 3 "Cash" (Some 100).

(** The world after the payment wizard has paid sale 1 in full, which
    settles it, with the log set back to empty. *)
Definition settled : World :=
  mkWorld
    (store (transition_pay_ (H := Demo.collaborators) cash 1
              (mkWorld shop [])).2)
    [].

End Example.
From stdpp Require Import pretty.
Local Open Scope string_scope.
Local Open Scope Z_scope.
Local Open Scope list_scope.
Local Open Scope m_scope.

(** ** The rest of the module *)

(** [Sale.default_sale_device()], for the user of the transaction:
    [user.sale_device and user.sale_device.id or None]. An identifier 0 is
    false in Python. *)
Definition default_sale_device (σ : Store) (user : Z) : option Z :=
  match user_devices σ !! user with
  | Some d => if bool_decide (d ≠ 0) then Some d else None
  | None => None
  end.

(** [Sale.copy(sales, default)] up to the call of the base class: the
    dictionary [default] as it is passed on, and as the caller's dictionary
    is left when one was given. [None] as a value is Python's [None]. *)
Definition copy_default {V} (default : option (gmap string (option V)))
  : gmap string (option V) :=
  <["payments" := None]>
    (match default with
     | Some d => d
     | None => ∅
     end).

(** [Sale.copy(sales, default)], over the [copy] of the base class: what
    it returns, and the dictionary of the caller after the call, which the
    assignment [default['payments'] = None] has changed in place. *)
Definition copy {V R} (super_copy : list Z → gmap string (option V) → R)
    (sales : list Z) (default : option (gmap string (option V)))
  : R * option (gmap string (option V)) :=
  (super_copy sales (copy_default default),
   (λ _, copy_default default) <$> default).

(** ** Vocabulary of the further properties *)

(** How many times [x] is in [l]. *)
Definition occurrences {A} `{EqDecision A} (x : A) (l : list A) : Z :=
  Z.of_nat (length (filter (λ y, y = x) l)).

(** The statement line [transition_pay_] creates. *)
Definition new_payment `{Collaborators} (σ : Store) (statement : Statement.t)
    (s : Sale.t) (active_id account amount : Z) : Payment.t :=
  Payment.mk (next_payment_id σ) (Statement.id statement) today amount
    (Some (Sale.party s)) account (Sale.number s) (Some active_id) None None.

(** The identifiers the second loop of [workflow_to_end] stages: for each
    sale in turn, its payments when it has a posted invoice. *)
Definition attributable (σ : Store) (sale_ids : list Z) : list Z :=
  sale_ids ≫= λ sid,
    match sales σ !! sid with
    | Some s =>
        match posted_invoices σ s with
        | [] => []
        | _ :: _ => Payment.id <$> payments_of σ sid
        end
    | None => []
    end.

(** ** Further example data

    Sale 8 has no total yet; sale 9 belongs to a party whose receivable
    account has the identifier 0; an invoice that is a draft and has its
    invoice date but no accounting date; the form of a payment of 30 in
    cash, of a payment with no amount, and of a payment on a journal that
    has no statement. *)
Module Cases.

Definition sale8 :=
  Sale.mk SaleDraft None None MethodManual "S8" None None 10 None 2 [].

Definition unpriced : Store :=
  with_sales Example.shop (<[8 := sale8]> (sales Example.shop)).

Definition erin := Party.mk "Erin" (Some 0) None.

Definition sale9 :=
  Sale.mk SaleDraft (Some 40) None MethodOrder "S9" (Some "9") None 50 None 2
          [].

Definition zero_account : Store :=
  mkStore (<[9 := sale9]> (sales Example.shop))
          (<[50 := erin]> (parties Example.shop))
          (invoices Example.shop) (payments Example.shop)
          (move_lines Example.shop) (statements Example.shop)
          (devices Example.shop) (user_devices Example.shop)
          (sale_lines Example.shop) (invoice_lines Example.shop).

Definition draft_invoice := Invoice.mk InvDraft (Some 3) None None 10 [].

Definition cash30 : Form.t := Form.mk 3 "Cash" (Some 30).
Definition nothing : Form.t := Form.mk 3 "Cash" None.
Definition bank : Form.t := Form.mk 4 "Bank" (Some 10).

End Cases.


(** * Properties *)

Local Open Scope m_scope.

(** ** Lists, maps and results *)

Lemma filter_all {A} (P : A → Prop) `{∀ x, Decision (P x)} (l : list A) :
  Forall P l → filter P l = l.
Proof.
  induction 1 as [|x l Hx _ IH]; [done|].
  rewrite filter_cons_True by done. by rewrite IH.
Qed.

Lemma filter_none {A} (P : A → Prop) `{∀ x, Decision (P x)} (l : list A) :
  Forall (λ x, ¬ P x) l → filter P l = [].
Proof.
  induction 1 as [|x l Hx _ IH]; [done|].
  by rewrite filter_cons_False.
Qed.

Lemma sumZ_app l1 l2 : sumZ (l1 ++ l2) = sumZ l1 + sumZ l2.
Proof.
  unfold sumZ. induction l1 as [|x l1 IH]; [done|].
  cbn [app foldr]. rewrite IH. lia.
Qed.

Lemma lookup_tabulate `{Countable K} {V} (f : K → V) (l : list K) (k : K) :
  (list_to_map ((λ x, (x, f x)) <$> l) : gmap K V) !! k =
  if decide (k ∈ l) then Some (f k) else None.
Proof.
  induction l as [|x l IH].
  - rewrite fmap_nil, list_to_map_nil, lookup_empty.
    destruct (decide (k ∈ [])) as [Hc|_]; [|done]. by apply elem_of_nil in Hc.
  - rewrite fmap_cons, list_to_map_cons, lookup_insert, IH.
    destruct (decide (x = k)) as [->|Hne].
    + destruct (decide (k ∈ k :: l)) as [_|Hc]; [done|]. set_solver.
    + destruct (decide (k ∈ l)), (decide (k ∈ x :: l)); try done; set_solver.
Qed.

Lemma res_map_ok {A B} (f : A → Res B) (g : A → B) (l : list A) :
  (∀ x, x ∈ l → f x = Ok (g x)) → res_map f l = Ok (g <$> l).
Proof.
  induction l as [|x l IH]; intros Hf; [done|].
  cbn [res_map]. rewrite Hf by set_solver. cbn [res_bind].
  rewrite IH by (intros; apply Hf; set_solver). done.
Qed.

(** ** Payment aggregator *)

Lemma entry_add_amount name sid a result name' sid' :
  entry (add_amount name sid a result) name' sid' =
  if decide (name = name' ∧ sid = sid')
  then (λ x, x + a) <$> entry result name' sid'
  else entry result name' sid'.
Proof.
  unfold entry, add_amount. rewrite lookup_alter.
  destruct (decide (name = name')) as [->|Hn].
  - destruct (result !! name') as [m|] eqn:Hm; simpl.
    + rewrite lookup_alter.
      destruct (decide (sid = sid')) as [->|Hs].
      * by destruct (decide (name' = name' ∧ sid' = sid')) as [_|[]].
      * by destruct (decide (name' = name' ∧ sid = sid')) as [[_ ?]|_].
    + by destruct (decide _).
  - by destruct (decide (name = name' ∧ sid = sid')) as [[? _]|_].
Qed.

Lemma entry_add_payments name sid (ps : list Payment.t) result name' sid' :
  entry (foldl (λ r p, add_amount name sid (Payment.amount p) r) result ps)
        name' sid' =
  if decide (name = name' ∧ sid = sid')
  then (λ x, x + sumZ (Payment.amount <$> ps)) <$> entry result name' sid'
  else entry result name' sid'.
Proof.
  revert result. induction ps as [|p ps IH]; intros result; cbn [foldl].
  - destruct (decide _); [|done].
    destruct (entry result name' sid') as [z|]; [|done].
    cbn. f_equal. unfold sumZ. cbn. lia.
  - rewrite IH, entry_add_amount.
    destruct (decide _); [|done].
    destruct (entry result name' sid') as [z|]; [|done].
    cbn [fmap option_fmap option_map]. f_equal.
    rewrite fmap_cons.
    change (sumZ (Payment.amount p :: (Payment.amount <$> ps)))
      with (Payment.amount p + sumZ (Payment.amount <$> ps)).
    lia.
Qed.

Lemma entry_add_sales σ name (sids : list Z) result name' sid' :
  NoDup sids →
  entry (foldl (λ r sid,
                  foldl (λ r p, add_amount name sid (Payment.amount p) r)
                        r (payments_of σ sid))
               result sids) name' sid' =
  if decide (name = name' ∧ sid' ∈ sids)
  then (λ x, x + sumZ (Payment.amount <$> payments_of σ sid'))
         <$> entry result name' sid'
  else entry result name' sid'.
Proof.
  intros Hnd. revert result.
  induction Hnd as [|sid sids Hnotin Hnd IH]; intros result; cbn [foldl].
  - destruct (decide _) as [[_ Hin]|_]; [|done]. by apply elem_of_nil in Hin.
  - rewrite IH, entry_add_payments.
    repeat case_decide; try done; destruct_and?; subst; set_solver.
Qed.

Lemma entry_add_names σ (names : list string) (sids : list Z) result name' sid' :
  NoDup sids → NoDup names →
  entry (foldl (λ r name,
           foldl (λ r sid,
                    foldl (λ r p, add_amount name sid (Payment.amount p) r)
                          r (payments_of σ sid))
                 r sids)
         result names) name' sid' =
  if decide (name' ∈ names ∧ sid' ∈ sids)
  then (λ x, x + sumZ (Payment.amount <$> payments_of σ sid'))
         <$> entry result name' sid'
  else entry result name' sid'.
Proof.
  intros Hs Hnd. revert result.
  induction Hnd as [|name names Hnotin Hnd IH]; intros result; cbn [foldl].
  - destruct (decide _) as [[Hin _]|_]; [|done]. by apply elem_of_nil in Hin.
  - rewrite IH, entry_add_sales by done.
    repeat case_decide; try done; destruct_and?; subst; set_solver.
Qed.

Lemma entry_zero_result (sids : list Z) (names : list string) name sid :
  entry (zero_result sids names) name sid =
  if decide (name ∈ names ∧ sid ∈ sids) then Some 0 else None.
Proof.
  unfold entry, zero_result.
  rewrite (lookup_tabulate (λ _, list_to_map ((λ s, (s, 0)) <$> sids))).
  destruct (decide (name ∈ names)) as [Hn|Hn]; cbn [mbind option_bind].
  - rewrite (lookup_tabulate (λ _, 0)).
    destruct (decide (sid ∈ sids)), (decide (_ ∧ _)) as [[_ ?]|Hc];
      try done. by destruct Hc.
  - by destruct (decide (_ ∧ _)) as [[? _]|_].
Qed.

Lemma entry_get_paid_amount σ (sids : list Z) (names : list string) name sid :
  NoDup sids → NoDup names → name ∈ names → sid ∈ sids →
  entry (get_paid_amount σ sids names) name sid =
  Some (sumZ (Payment.amount <$> payments_of σ sid)).
Proof.
  intros Hs Hn Hname Hsid. unfold get_paid_amount.
  rewrite entry_add_names, entry_zero_result by done.
  destruct (decide (name ∈ names ∧ sid ∈ sids)) as [_|Hno]; [|naive_solver].
  done.
Qed.

Lemma paid_amount_sum σ sid :
  paid_amount σ sid = sumZ (Payment.amount <$> payments_of σ sid).
Proof.
  unfold paid_amount. rewrite entry_get_paid_amount; [done| | | |].
  - apply NoDup_singleton.
  - apply NoDup_singleton.
  - set_solver.
  - set_solver.
Qed.

(** C7. For every sale, [paid_amount] is the sum of the amounts of its
    payments, and 0 when it has none; the computation is a function of the
    store alone, so it writes nothing; and the batch form
    [get_paid_amount] maps every requested sale, under every requested
    name, to that sum. The batch is a list of distinct records and of
    distinct field names, as the ORM passes them. *)
Theorem get_paid_amount_is_sum σ :
  (∀ sid, paid_amount σ sid = sumZ (Payment.amount <$> payments_of σ sid)) ∧
  (∀ sid, payments_of σ sid = [] → paid_amount σ sid = 0) ∧
  (∀ (sale_ids : list Z) (names : list string) name sid,
     NoDup sale_ids → NoDup names → name ∈ names → sid ∈ sale_ids →
     entry (get_paid_amount σ sale_ids names) name sid =
     Some (sumZ (Payment.amount <$> payments_of σ sid))).
Proof.
  split; [|split].
  - apply paid_amount_sum.
  - intros sid Hnone. rewrite paid_amount_sum, Hnone. done.
  - intros. by apply entry_get_paid_amount.
Qed.

Lemma residual_of_ok σ sid s total :
  sales σ !! sid = Some s → Sale.total_amount s = Some total →
  residual_of σ sid = Ok (sid, total_of σ sid - paid_amount σ sid).
Proof.
  intros Hs Ht. unfold residual_of, total_of. rewrite Hs. simpl. rewrite Ht. done.
Qed.

(** C8. When every sale of the batch has its total set,
    [get_residual_amount] returns, and maps every requested sale to its
    total minus its paid amount, that is minus the sum of its payments.
    Nothing is said of a batch with a sale whose total is unset. *)
Theorem get_residual_amount_is_difference σ (sale_ids : list Z)
    (names : list string) :
  (∀ sid, sid ∈ sale_ids →
     ∃ s total, sales σ !! sid = Some s ∧ Sale.total_amount s = Some total) →
  ∃ result,
    get_residual_amount σ sale_ids names = Ok result ∧
    ∀ name sid s total,
      name ∈ names → sid ∈ sale_ids →
      sales σ !! sid = Some s → Sale.total_amount s = Some total →
      entry result name sid = Some (total - paid_amount σ sid) ∧
      entry result name sid =
        Some (total - sumZ (Payment.amount <$> payments_of σ sid)).
Proof.
  intros Hset.
  set (row := (list_to_map ((λ sid, (sid, total_of σ sid - paid_amount σ sid))
                              <$> sale_ids) : gmap Z Z)).
  exists (list_to_map ((λ n, (n, row)) <$> names)). split.
  - unfold get_residual_amount.
    rewrite (res_map_ok _ (λ n, (n, row))); [done|].
    intros n _.
    rewrite (res_map_ok _ (λ sid, (sid, total_of σ sid - paid_amount σ sid)));
      [done|].
    intros sid Hin. destruct (Hset sid Hin) as (s & total & Hs & Ht).
    by eapply residual_of_ok.
  - intros name sid s total Hname Hsid Hs Ht.
    assert (entry (list_to_map ((λ n, (n, row)) <$> names)) name sid =
            Some (total - paid_amount σ sid)) as Hentry.
    { unfold entry. rewrite lookup_tabulate.
      destruct (decide (name ∈ names)) as [_|]; [|done].
      cbn [mbind option_bind]. unfold row. rewrite lookup_tabulate.
      destruct (decide (sid ∈ sale_ids)) as [_|]; [|done].
      unfold total_of. rewrite Hs. simpl. rewrite Ht. done. }
    split; [done|]. by rewrite Hentry, paid_amount_sum.
Qed.

(** ** The log of an operation *)

Section Emits.
Context {A B : Type} (P : Event → Prop).

Lemma emits_ret (a : A) : emits P (ret a).
Proof.
  intros w r w' [= <- <-]. exists []. by rewrite app_nil_r.
Qed.

Lemma emits_raise (e : Error) : emits P (raise e : M A).
Proof.
  intros w r w' [= <- <-]. exists []. by rewrite app_nil_r.
Qed.

Lemma emits_gets (f : Store → A) : emits P (gets f).
Proof.
  intros w r w' [= <- <-]. exists []. by rewrite app_nil_r.
Qed.

Lemma emits_lift (f : Store → Res A) : emits P (lift f).
Proof.
  intros w r w' [= <- <-]. exists []. by rewrite app_nil_r.
Qed.

Lemma emits_bind (m : M A) (k : A → M B) :
  emits P m → (∀ a, emits P (k a)) → emits P (bind m k).
Proof.
  intros Hm Hk w r w'. unfold bind.
  destruct (m w) as [[a|e] w1] eqn:Hrun; intros Hrest.
  - destruct (Hm _ _ _ Hrun) as (evs1 & Hlog1 & HP1).
    destruct (Hk a _ _ _ Hrest) as (evs2 & Hlog2 & HP2).
    exists (evs1 ++ evs2). split.
    + by rewrite Hlog2, Hlog1, app_assoc.
    + by apply Forall_app.
  - injection Hrest as <- <-. by apply (Hm _ _ _ Hrun).
Qed.
End Emits.

Lemma emits_emit (P : Event → Prop) ev : P ev → emits P (emit ev).
Proof.
  intros HP w r w' [= <- <-]. exists [ev]. split; [done|].
  by apply Forall_singleton.
Qed.

Lemma emits_call (P : Event → Prop) ev f : P ev → emits P (call ev f).
Proof.
  intros HP w r w'. unfold call.
  destruct (f (store w)); intros [= <- <-]; exists [ev];
    (split; [done|]); by apply Forall_singleton.
Qed.

Lemma emits_write (P : Event → Prop) ev f : P ev → emits P (write ev f).
Proof.
  intros HP w r w' [= <- <-]. exists [ev]. split; [done|].
  by apply Forall_singleton.
Qed.

Lemma emits_when (P : Event → Prop) (b : bool) m :
  (b = true → emits P m) → emits P (when b m).
Proof.
  destruct b; simpl; intros Hm; [by apply Hm|]. apply emits_ret.
Qed.

Lemma emits_for_each {A S} (P : Event → Prop) (body : S → A → M S) l s :
  (∀ s x, x ∈ l → emits P (body s x)) → emits P (for_each body l s).
Proof.
  revert s. induction l as [|x l IH]; intros s Hbody; cbn [for_each].
  - apply emits_ret.
  - apply emits_bind.
    + apply Hbody. set_solver.
    + intros s'. apply IH. intros s'' y Hy. apply Hbody. set_solver.
Qed.

Lemma emits_weaken {A} (P Q : Event → Prop) (m : M A) :
  (∀ ev, P ev → Q ev) → emits P m → emits Q m.
Proof.
  intros HPQ Hm w r w' Hrun. destruct (Hm _ _ _ Hrun) as (evs & Hlog & HP).
  exists evs. split; [done|]. eapply Forall_impl; eauto.
Qed.

Lemma for_each_app {A S} (body : S → A → M S) l1 l2 s w :
  for_each body (l1 ++ l2) s w =
  bind (for_each body l1 s) (for_each body l2) w.
Proof.
  revert s w. induction l1 as [|x l1 IH]; intros s w.
  - reflexivity.
  - cbn [app for_each]. unfold bind.
    destruct (body s x w) as [[s'|e] w1].
    + rewrite IH. reflexivity.
    + reflexivity.
Qed.

(** ** Sale settlement workflow *)

Section WorkflowLog.
Context `{Collaborators}.

Lemma emits_read_sale P sid : emits P (read_sale sid).
Proof. apply emits_lift. Qed.

Lemma emits_read_party P pid : emits P (read_party pid).
Proof. apply emits_lift. Qed.

Lemma emits_advance sid : emits transition_event (advance sid).
Proof.
  unfold advance.
  repeat (first [ apply emits_bind; [|intros ?]
                | apply emits_read_sale
                | apply emits_when; intros _
                | apply emits_call; done ]).
Qed.

Lemma emits_prepare_sale loc sid : emits transition_event (prepare_sale loc sid).
Proof.
  unfold prepare_sale.
  apply emits_bind; [apply emits_advance|intros _].
  apply emits_bind; [apply emits_read_sale|intros s].
  apply emits_bind; [apply emits_gets|intros invs].
  destruct (_ && _); [apply emits_raise|].
  apply emits_bind; [apply emits_read_party|intros p].
  destruct (_ && _); apply emits_ret.
Qed.

(** C4. In [workflow_to_end], when the sales before [sid] pass the first
    loop and [sid], once advanced, has no invoice and the invoice method
    'order', the operation raises the user error 'not_customer_invoice'
    with the reference of that sale. Up to there it has called nothing
    but transitions of sales: no invoice is written or posted and no
    statement line is written. *)
Theorem missing_invoice_stops (pre post : list Z) (sid : Z) (s : Sale.t)
    (w w1 w2 : World) (loc : Locals) :
  for_each prepare_sale pre no_locals
    (mkWorld (store w) (log w ++ [EvWorkflowToEnd (pre ++ sid :: post)]))
    = (Ok loc, w1) →
  advance sid w1 = (Ok (), w2) →
  sales (store w2) !! sid = Some s →
  sale_invoices (store w2) s = [] →
  Sale.invoice_method s = MethodOrder →
  workflow_to_end (pre ++ sid :: post) w =
    (Raise (UserError "not_customer_invoice" [Sale.reference s]), w2) ∧
  ∃ evs, log w2 = log w ++ EvWorkflowToEnd (pre ++ sid :: post) :: evs ∧
         Forall (λ ev, transition_event ev) evs ∧
         Forall (λ ev, invoice_event ev = false ∧ payment_event ev = false) evs.
Proof.
  intros Hpre Hadv Hs Hnone Hmethod.
  assert (prepare_sale loc sid w1 =
          (Raise (UserError "not_customer_invoice" [Sale.reference s]), w2))
    as Hraise.
  { unfold prepare_sale, bind. rewrite Hadv.
    unfold read_sale, lift, gets. rewrite Hs. cbn. rewrite Hnone, Hmethod.
    done. }
  split.
  - unfold workflow_to_end. unfold bind at 1. cbn [emit].
    unfold bind at 1. rewrite for_each_app. unfold bind at 1.
    rewrite Hpre. cbn [for_each]. unfold bind at 1. rewrite Hraise. done.
  - destruct (emits_for_each transition_event prepare_sale pre no_locals
                (λ s' x _, emits_prepare_sale s' x) _ _ _ Hpre)
      as (evs1 & Hlog1 & HP1).
    destruct (emits_advance sid _ _ _ Hadv) as (evs2 & Hlog2 & HP2).
    exists (evs1 ++ evs2). cbn [log] in Hlog1. split; [|split].
    + rewrite Hlog2, Hlog1. by rewrite <- !app_assoc.
    + by apply Forall_app.
    + apply Forall_app. split; (eapply Forall_impl; [eassumption|]);
        intros [] Hev; done.
Qed.
End WorkflowLog.



Section Rerun.
Context `{Collaborators}.

(** On a sale that is done, the three guards of [advance] are false. *)
Lemma advance_done sid s w :
  sales (store w) !! sid = Some s → Sale.state s = SaleDone →
  advance sid w = (Ok (), w).
Proof.
  intros Hs Hst. unfold advance, bind, read_sale, lift. rewrite Hs.
  cbn. rewrite Hst. rewrite !bool_decide_false by done.
  cbn. rewrite Hs, Hst. rewrite !bool_decide_false by done.
  cbn. rewrite Hs, Hst. rewrite !bool_decide_false by done.
  reflexivity.
Qed.

(** Invoices that are not drafts are passed over: only the variable of
    the loop moves. *)
Lemma stage_posted reference (invs : list (Z * Invoice.t)) loc :
  Forall (λ i, Invoice.state i.2 = InvPosted) invs →
  foldl (stage_invoice reference) loc invs =
  mkLocals (staged_invoices loc) (to_post loc)
           (match last invs with
            | Some i => Some i.1
            | None => invoice_var loc
            end).
Proof.
  induction invs as [|[iid inv] invs IH] using rev_ind; intros Hall.
  - by destruct loc.
  - apply Forall_app in Hall as [Hall Hlast].
    rewrite Forall_singleton in Hlast. simpl in Hlast.
    rewrite foldl_snoc, IH, last_snoc by done.
    unfold stage_invoice. rewrite Hlast.
    by rewrite bool_decide_true by done.
Qed.

Lemma attribute_all σ (s : Sale.t) first rest last_id inv (pays : list Payment.t)
    to_write :
  posted_invoices σ s = first :: rest →
  invoices σ !! last_id = Some inv →
  res_fold (attribute_payment σ (Some last_id) s) pays to_write =
  Ok (to_write ++ (restaged first.1 (Invoice.party inv) <$> pays)).
Proof.
  intros Hposted Hinv. revert to_write.
  induction pays as [|pay pays IH]; intros to_write.
  - cbn. by rewrite app_nil_r.
  - cbn [res_fold]. unfold attribute_payment at 1.
    rewrite Hposted, Hinv. cbn [res_bind]. rewrite IH.
    rewrite fmap_cons, <- app_assoc. done.
Qed.

Lemma sale_invoices_lookup σ s i :
  i ∈ sale_invoices σ s → invoices σ !! i.1 = Some i.2.
Proof.
  unfold sale_invoices. rewrite list_elem_of_omap.
  intros (iid & _ & Hlook).
  destruct (invoices σ !! iid) as [inv|] eqn:E; [|done].
  cbn in Hlook. injection Hlook as <-. done.
Qed.

Lemma attribute_none σ invoice (s : Sale.t) (pays : list Payment.t) to_write :
  posted_invoices σ s = [] →
  res_fold (attribute_payment σ invoice s) pays to_write = Ok to_write.
Proof.
  intros Hnone. induction pays as [|pay pays IH]; [done|].
  cbn [res_fold]. unfold attribute_payment at 1. rewrite Hnone. done.
Qed.

(** The first loop on a sale that is done and whose invoices are posted:
    no call, nothing staged. *)
Lemma prepare_done sid s p w :
  sales (store w) !! sid = Some s →
  Sale.state s = SaleDone →
  parties (store w) !! Sale.party s = Some p →
  Forall (λ i, Invoice.state i.2 = InvPosted) (sale_invoices (store w) s) →
  (∃ e, prepare_sale no_locals sid w = (Raise e, w) ∧
        sale_invoices (store w) s = []) ∨
  (∃ loc, prepare_sale no_locals sid w = (Ok loc, w) ∧
          staged_invoices loc = [] ∧ to_post loc = [] ∧
          (grouping p = false →
           ∀ last_, last (sale_invoices (store w) s) = Some last_ →
                    invoice_var loc = Some last_.1)).
Proof.
  intros Hs Hst Hp Hall.
  unfold prepare_sale, bind. rewrite (advance_done sid s w) by done.
  unfold read_sale, read_party, lift, gets. rewrite Hs.
  destruct (bool_decide (sale_invoices (store w) s = [])) eqn:Hempty.
  - apply bool_decide_eq_true in Hempty.
    destruct (bool_decide (Sale.invoice_method s = MethodOrder)) eqn:Horder.
    + left. eexists. split; [reflexivity|done].
    + right. cbn. rewrite Hp. rewrite bool_decide_false by (by intros []).
      cbn. exists no_locals. repeat split; try done.
      intros _ last_ Hlast. rewrite Hempty in Hlast. done.
  - right. cbn. rewrite Hp. rewrite bool_decide_true
      by (by apply bool_decide_eq_false in Hempty).
    destruct (grouping p) eqn:Hg; cbn.
    + exists no_locals. repeat split; done.
    + eexists. split; [reflexivity|]. rewrite stage_posted by done.
      repeat split; try done. intros _ last_ ->. done.
Qed.

(** The rest of [workflow_to_end], from the test of [to_post]. *)
Lemma emits_settle (sale_ids : list Z) loc :
  to_post loc = [] →
  emits (λ ev, invoice_event ev = false)
    (when (bool_decide (to_post loc ≠ []))
          (invoice_write (staged_invoices loc) ;;;
           call (EvInvoicePost (to_post loc)) (post (to_post loc))) ;;;
     acc <- lift (λ σ, res_fold (settle_sale σ (invoice_var loc)) sale_ids
                         ([], [])) ;;
     when (bool_decide (acc.1 ≠ [])) (statement_line_write acc.1) ;;;
     when (bool_decide (acc.2 ≠ [])) (call (EvDo acc.2) (do_ acc.2))).
Proof.
  intros Hnone. rewrite Hnone.
  apply emits_bind; [apply emits_when; intros Hc|intros _].
  { by apply bool_decide_eq_true in Hc. }
  apply emits_bind; [apply emits_lift|intros acc].
  apply emits_bind; [apply emits_when; intros _; by apply emits_write|intros _].
  apply emits_when; intros _. by apply emits_call.
Qed.

Lemma payment_id_unique (rows : list Payment.t) x y :
  NoDup (Payment.id <$> rows) → x ∈ rows → y ∈ rows →
  Payment.id x = Payment.id y → x = y.
Proof.
  induction rows as [|r rows IH]; intros Hnd Hx Hy Hid.
  - by apply elem_of_nil in Hx.
  - rewrite fmap_cons in Hnd. apply NoDup_cons in Hnd as [Hnotin Hnd].
    apply elem_of_cons in Hx as [->|Hx]; apply elem_of_cons in Hy as [->|Hy].
    + done.
    + exfalso. apply Hnotin. rewrite Hid. apply list_elem_of_fmap. by exists y.
    + exfalso. apply Hnotin. rewrite <- Hid. apply list_elem_of_fmap.
      by exists x.
    + by apply IH.
Qed.

Lemma apply_same_values invoice_id party pay :
  Payment.invoice pay = Some invoice_id →
  Payment.party pay = Some party →
  apply_payment_values (restaged invoice_id party pay).2 pay = pay.
Proof.
  destruct pay as [pid st d a pp acc de sa inv mv]. cbn. intros -> ->.
  unfold apply_payment_values, restaged. cbn.
  by rewrite bool_decide_false by (by intros Hne; apply Hne).
Qed.

(** Writing what is already stored leaves the statement lines as they
    are. *)
Lemma restage_keeps (rows pays : list Payment.t) invoice_id party :
  NoDup (Payment.id <$> rows) →
  (∀ pay, pay ∈ pays →
          pay ∈ rows ∧ Payment.invoice pay = Some invoice_id ∧
          Payment.party pay = Some party) →
  foldl (λ l '(pid, v),
           (λ p, if bool_decide (Payment.id p = pid)
                 then apply_payment_values v p else p) <$> l)
        rows (restaged invoice_id party <$> pays) = rows.
Proof.
  intros Hnd. induction pays as [|pay pays IH]; intros Hpays; [done|].
  rewrite fmap_cons. cbn [foldl].
  destruct (Hpays pay) as (Hin & Hinv & Hparty); [apply list_elem_of_here|].
  assert ((λ p, if bool_decide (Payment.id p = (restaged invoice_id party pay).1)
                then apply_payment_values (restaged invoice_id party pay).2 p
                else p) <$> rows = rows) as Hsame.
  { rewrite <- (list_fmap_id rows) at 2. apply list_fmap_ext.
    intros i r Hr. cbn [restaged fst snd].
    destruct (decide (Payment.id r = Payment.id pay)) as [Hid|Hid].
    - rewrite bool_decide_true by done.
      assert (r = pay) as ->.
      { apply (payment_id_unique rows); try done.
        by apply list_elem_of_lookup_2 in Hr. }
      by apply apply_same_values.
    - by rewrite bool_decide_false. }
  unfold restaged at 1. unfold restaged in Hsame. cbn [fst snd] in Hsame.
  rewrite Hsame. apply IH. intros pay' Hin'. apply Hpays.
  by apply list_elem_of_further.
Qed.

(** C6, as amended. On a sale that is done and whose invoices are all
    posted, [workflow_to_end] writes no invoice and posts none. The
    attribution of the payments is not skipped: when the party has no
    invoice grouping method and the sale has payments, the first call is
    [StatementLine.write], staging again every payment of the sale with
    the first posted invoice. That write stores what the payments already
    hold when they hold that invoice and the party compared with: the
    statement lines stay as they are. *)
Theorem rerun_on_done_sale sid s p w :
  sales (store w) !! sid = Some s →
  Sale.state s = SaleDone →
  parties (store w) !! Sale.party s = Some p →
  Forall (λ i, Invoice.state i.2 = InvPosted) (sale_invoices (store w) s) →
  ∃ r w' evs,
    workflow_to_end [sid] w = (r, w') ∧
    log w' = log w ++ EvWorkflowToEnd [sid] :: evs ∧
    Forall (λ ev, invoice_event ev = false) evs ∧
    (grouping p = false →
     ∀ first last_,
       head (sale_invoices (store w) s) = Some first →
       last (sale_invoices (store w) s) = Some last_ →
       payments_of (store w) sid ≠ [] →
       head evs =
         Some (EvStatementLineWrite
                 (restaged first.1 (Invoice.party last_.2)
                    <$> payments_of (store w) sid)) ∧
       (NoDup (Payment.id <$> payments (store w)) →
        (∀ pay, pay ∈ payments_of (store w) sid →
                Payment.invoice pay = Some first.1 ∧
                Payment.party pay = Some (Invoice.party last_.2)) →
        payments
          (store (statement_line_write
                    (restaged first.1 (Invoice.party last_.2)
                       <$> payments_of (store w) sid) w).2)
        = payments (store w))).
Proof.
  intros Hs Hst Hp Hall.
  set (w0 := mkWorld (store w) (log w ++ [EvWorkflowToEnd [sid]])).
  destruct (prepare_done sid s p w0 Hs Hst Hp Hall)
    as [(e & Hrun & Hnone)|(loc & Hrun & Hstaged & Hpost & Hvar)].
  - exists (Raise e), w0, []. split; [|split; [|split]].
    + unfold workflow_to_end. unfold bind at 1. cbn [emit]. fold w0.
      unfold bind at 1. cbn [for_each]. unfold bind at 1. rewrite Hrun. done.
    + done.
    + apply Forall_nil_2.
    + intros _ first last_ Hfirst. cbn [store w0] in Hnone.
      rewrite Hnone in Hfirst. done.
  - destruct ((when (bool_decide (to_post loc ≠ []))
          (invoice_write (staged_invoices loc) ;;;
           call (EvInvoicePost (to_post loc)) (post (to_post loc))) ;;;
        acc <- lift (λ σ, res_fold (settle_sale σ (invoice_var loc)) [sid]
                            ([], [])) ;;
        when (bool_decide (acc.1 ≠ [])) (statement_line_write acc.1) ;;;
        when (bool_decide (acc.2 ≠ [])) (call (EvDo acc.2) (do_ acc.2))) w0)
      as [r w'] eqn:Hrest.
    destruct (emits_settle [sid] loc Hpost _ _ _ Hrest) as (evs & Hlog & Hev).
    exists r, w', evs. split; [|split; [|split]].
    + unfold workflow_to_end. unfold bind at 1. cbn [emit]. fold w0.
      unfold bind at 1. cbn [for_each]. unfold bind at 1. rewrite Hrun.
      cbn [ret]. exact Hrest.
    + rewrite Hlog. subst w0. cbn. by rewrite <- app_assoc.
    + done.
    + intros Hg first last_ Hfirst Hlast Hpays. split.
      2: { intros Hnd Hheld. cbn. apply restage_keeps; [done|].
           intros pay Hpay. split; [|by apply Hheld].
           unfold payments_of in Hpay.
           by apply list_elem_of_filter in Hpay as [_ ?]. }
      specialize (Hvar Hg last_ Hlast).
      assert (Hlook : invoices (store w) !! last_.1 = Some last_.2).
      { apply (sale_invoices_lookup _ s). by apply last_Some_elem_of. }
      assert (Hposted : ∃ rest, posted_invoices (store w) s = first :: rest).
      { unfold posted_invoices. rewrite filter_all by done.
        destruct (sale_invoices (store w) s) as [|i rest]; [done|].
        injection Hfirst as ->. by exists rest. }
      destruct Hposted as (rest & Hposted).
      revert Hrest. rewrite Hpost, Hvar.
      unfold bind at 1. rewrite bool_decide_false by (by intros []).
      cbn [when ret]. unfold bind at 1. unfold lift at 1.
      cbn [res_fold store w0]. unfold settle_sale at 1. rewrite Hs.
      rewrite (attribute_all _ _ _ _ _ _ _ _ Hposted Hlook).
      cbn [res_bind fst snd app].
      unfold bind at 1.
      rewrite bool_decide_true
        by (destruct (payments_of (store w) sid); [done|by cbn]).
      cbn [when statement_line_write write].
      match goal with
      | |- context [when ?b ?m] => destruct (when b m _) as [r2 w2] eqn:Hdo
      end.
      intros Heq.
      assert (∃ evs2, log w2 = (log w0 ++
         [EvStatementLineWrite (restaged first.1 (Invoice.party last_.2)
            <$> payments_of (store w) sid)]) ++ evs2) as (evs2 & Hlog2).
      { eapply (emits_when (λ _, True)) in Hdo
          as (evs2 & Hlog2 & _); [by exists evs2|].
        intros _. by apply emits_call. }
      assert (w' = w2) as -> by (by destruct r2; injection Heq).
      rewrite Hlog, <- app_assoc in Hlog2.
      apply app_inv_head in Hlog2. rewrite Hlog2. done.
Qed.
End Rerun.

(** ** Payment wizard *)


Section PayTransition.
Context `{Collaborators}.

(** [workflow_to_end] marks its entry once; no call it makes is an
    entry of the workflow. *)
Lemma workflow_to_end_log sale_ids w r w' :
  workflow_to_end sale_ids w = (r, w') →
  ∃ evs, log w' = log w ++ EvWorkflowToEnd sale_ids :: evs ∧
         Forall (λ ev, settlement_event ev = false) evs.
Proof.
  unfold workflow_to_end. unfold bind at 1. cbn [emit]. intros Hrun.
  match type of Hrun with
  | ?m _ = _ =>
      assert (emits (λ ev, settlement_event ev = false) m) as Hemits
  end.
  { apply emits_bind.
    { apply emits_for_each. intros loc sid _.
      eapply emits_weaken; [|apply emits_prepare_sale].
      by intros []. }
    intros loc. apply emits_bind.
    { apply emits_when. intros _. apply emits_bind.
      - by apply emits_write.
      - intros _. by apply emits_call. }
    intros _. apply emits_bind; [apply emits_lift|intros acc].
    apply emits_bind.
    { apply emits_when. intros _. by apply emits_write. }
    intros _. apply emits_when. intros _. by apply emits_call. }
  destruct (Hemits _ _ _ Hrun) as (evs & Hlog & Hev).
  exists evs. split; [|done]. rewrite Hlog. cbn. by rewrite <- app_assoc.
Qed.


Lemma save_description active_id (s : Sale.t) (m : gmap Z Sale.t) :
  m !! active_id = Some s →
  alter set_description active_id m =
  <[active_id :=
      Sale.mk (Sale.state s) (Sale.total_amount s) (Sale.total_amount_cache s)
        (Sale.invoice_method s) (Sale.reference s) (Sale.number s)
        (Some (Sale.reference s)) (Sale.party s) (Sale.sale_device s)
        (Sale.currency_digits s) (Sale.invoices s)]> m.
Proof.
  intros Hs. apply map_eq. intros i.
  destruct (decide (i = active_id)) as [->|Hne].
  - by rewrite lookup_alter_eq, lookup_insert_eq, Hs.
  - by rewrite lookup_alter_ne, lookup_insert_ne.
Qed.

(** C5. After the optional creation of the payment, [transition_pay_]
    goes on as [next_state]: to 'start' when the total of the sale differs
    from its paid amount; else to 'end', with no call at all, when the sale
    is not a draft; else the sale is saved with its description set to its
    reference and every other field as it was, [workflow_to_end] runs on
    that sale alone, right after the save, and the wizard ends when the
    workflow returns. One transition enters the workflow at most once, and
    never for a sale that is not a draft. *)
Theorem next_state_decision (form : Form.t) (active_id : Z) (s : Sale.t)
    (w : World) :
  sales (store w) !! active_id = Some s →
  let paid := paid_amount (store w) active_id in
  let described :=
    Sale.mk (Sale.state s) (Sale.total_amount s) (Sale.total_amount_cache s)
      (Sale.invoice_method s) (Sale.reference s) (Sale.number s)
      (Some (Sale.reference s)) (Sale.party s) (Sale.sale_device s)
      (Sale.currency_digits s) (Sale.invoices s) in
  let saved :=
    mkWorld (with_sales (store w)
               (<[active_id := described]> (sales (store w))))
            (log w ++ [EvSaleSave active_id]) in
  (∀ w0, record_payment form active_id w0 = (Ok (), w) →
         transition_pay_ form active_id w0 = next_state active_id w) ∧
  (Sale.total_amount s ≠ Some paid →
     next_state active_id w = (Ok StateStart, w)) ∧
  (Sale.total_amount s = Some paid → Sale.state s ≠ SaleDraft →
     next_state active_id w = (Ok StateEnd, w)) ∧
  (Sale.total_amount s = Some paid → Sale.state s = SaleDraft →
     Sale.description described = Some (Sale.reference s) ∧
     sales (store saved) !! active_id = Some described ∧
     next_state active_id w =
     (workflow_to_end [active_id] ;;; ret StateEnd) saved ∧
     (∀ w1, workflow_to_end [active_id] saved = (Ok (), w1) →
            next_state active_id w = (Ok StateEnd, w1)) ∧
     (∀ e w1, workflow_to_end [active_id] saved = (Raise e, w1) →
              next_state active_id w = (Raise e, w1))) ∧
  (∀ r w', next_state active_id w = (r, w') →
     ∃ evs, log w' = log w ++ evs ∧
       (length (filter (λ ev, settlement_event ev = true) evs) ≤ 1)%nat ∧
       (Sale.state s ≠ SaleDraft →
          filter (λ ev, settlement_event ev = true) evs = []) ∧
       (Sale.total_amount s = Some paid → Sale.state s = SaleDraft →
          ∃ rest, evs = EvSaleSave active_id
                          :: EvWorkflowToEnd [active_id] :: rest ∧
                  Forall (λ ev, settlement_event ev = false) rest)).
Proof.
  intros Hs paid described saved.
  assert (Hstart : Sale.total_amount s ≠ Some paid →
                   next_state active_id w = (Ok StateStart, w)).
  { intros Hne. unfold next_state, bind, read_sale, lift, gets.
    rewrite Hs. fold paid. by rewrite bool_decide_true. }
  assert (Hend : Sale.total_amount s = Some paid → Sale.state s ≠ SaleDraft →
                 next_state active_id w = (Ok StateEnd, w)).
  { intros Heq Hst. unfold next_state, bind, read_sale, lift, gets.
    rewrite Hs. fold paid.
    rewrite bool_decide_false by (by intros Hne; apply Hne).
    by rewrite bool_decide_true. }
  assert (Hsettle : Sale.total_amount s = Some paid → Sale.state s = SaleDraft →
            next_state active_id w =
            (workflow_to_end [active_id] ;;; ret StateEnd) saved).
  { intros Heq Hst. unfold next_state. unfold bind at 1.
    unfold read_sale, lift. rewrite Hs. unfold bind at 1. unfold gets.
    fold paid. rewrite bool_decide_false by (by intros Hne; apply Hne).
    rewrite bool_decide_false by (by intros Hne; apply Hne).
    unfold bind at 1. unfold write.
    rewrite (save_description active_id s) by done. done. }
  split; [|split; [|split; [|split]]]; try done.
  - intros w0 Hrec. unfold transition_pay_, bind. by rewrite Hrec.
  - intros Heq Hst. split; [done|]. split; [|split; [|split]].
    + subst saved. cbn. by rewrite lookup_insert_eq.
    + by apply Hsettle.
    + intros w1 Hrun. rewrite (Hsettle Heq Hst). unfold bind.
      by rewrite Hrun.
    + intros e w1 Hrun. rewrite (Hsettle Heq Hst). unfold bind.
      by rewrite Hrun.
  - intros r w' Hrun.
    destruct (decide (Sale.total_amount s = Some paid)) as [Heq|Hne];
      [destruct (decide (Sale.state s = SaleDraft)) as [Hst|Hst]|].
    + rewrite (Hsettle Heq Hst) in Hrun. unfold bind in Hrun.
      destruct (workflow_to_end [active_id] saved) as [r1 w1] eqn:Hwf.
      destruct (workflow_to_end_log _ _ _ _ Hwf) as (evs & Hlog & Hev).
      assert (w' = w1) as -> by (destruct r1; by injection Hrun).
      assert (filter (λ ev, settlement_event ev = true) evs = []) as Hnone.
      { apply filter_none. eapply Forall_impl; [exact Hev|].
        intros ev ->. done. }
      exists (EvSaleSave active_id :: EvWorkflowToEnd [active_id] :: evs).
      split; [|split; [|split]].
      * rewrite Hlog. subst saved. cbn. by rewrite <- app_assoc.
      * rewrite filter_cons_False by done. rewrite filter_cons_True by done.
        rewrite Hnone. done.
      * done.
      * intros _ _. by exists evs.
    + rewrite (Hend Heq Hst) in Hrun. injection Hrun as <- <-.
      exists []. rewrite app_nil_r. split; [done|].
      split; [cbn; lia|]. split; done.
    + rewrite (Hstart Hne) in Hrun. injection Hrun as <- <-.
      exists []. rewrite app_nil_r. split; [done|].
      split; [cbn; lia|]. split; done.
Qed.
End PayTransition.

(** C10. [default_start] returns the defaults only when a device comes
    from the sale or from the user. With none, the user 0 passes the guard
    and the read of [sale_device.journal] raises [AttributeError]; any
    other user gets the user error 'not_sale_device'. *)
Theorem default_start_needs_device σ active_id user s :
  sales σ !! active_id = Some s →
  (∀ d, default_start σ active_id user = Ok d →
        ∃ dev, resolve_device σ s user = Some dev ∧
               (Sale.sale_device s = Some dev ∨ user_devices σ !! user = Some dev)) ∧
  (resolve_device σ s user = None → user = 0 →
     default_start σ active_id user =
     Raise (AttributeError "'bool' object has no attribute 'journal'")) ∧
  (resolve_device σ s user = None → user ≠ 0 →
     default_start σ active_id user = Raise (UserError "not_sale_device" [])).
Proof.
  intros Hs. unfold default_start. rewrite Hs.
  destruct (resolve_device σ s user) as [dev|] eqn:Hdev.
  - split; [|split]; try done. intros d _. exists dev. split; [done|].
    unfold resolve_device in Hdev.
    destruct (Sale.sale_device s); [left|right]; done.
  - split; [|split].
    + intros d. destruct (bool_decide (user ≠ 0)); cbn; done.
    + intros _ ->. done.
    + intros _ Hu. by rewrite bool_decide_true.
Qed.


(** ** Ledger reconciler *)










Lemma collect_payment_line_none (ls : list MoveLine.t) acc :
  res_fold (collect_payment_line None) ls acc =
  if decide (Forall (λ l, ¬ unreconciled l) ls) then Ok acc
  else Raise (AttributeError "'NoneType' object has no attribute 'id'").
Proof.
  revert acc. induction ls as [|l ls IH]; intros acc; cbn [res_fold].
  - destruct (decide _) as [|Hno]; [done|]. by destruct Hno.
  - unfold collect_payment_line at 1.
    destruct (MoveLine.reconciliation l) as [r|] eqn:Hr; cbn [res_bind].
    + rewrite IH. destruct (decide (Forall _ ls)) as [Hall|Hnot].
      * rewrite decide_True; [done|]. constructor; [|done].
        unfold unreconciled. congruence.
      * rewrite decide_False; [done|]. intros Hall. apply Hnot.
        by inversion Hall.
    + rewrite decide_False; [done|]. intros Hall. inversion Hall as [|? ? Hl _].
      by apply Hl.
Qed.

Lemma collect_payment_lines_none σ sid acc :
  collect_payment_lines σ None sid acc =
  if decide (Forall (λ l, ¬ unreconciled l) (payment_lines σ sid)) then Ok acc
  else Raise (AttributeError "'NoneType' object has no attribute 'id'").
Proof.
  unfold collect_payment_lines, payment_lines.
  generalize (payments_of σ sid). intros pays. revert acc.
  induction pays as [|pay pays IH]; intros acc; cbn [res_fold].
  - destruct (decide _) as [|Hno]; [done|]. by destruct Hno.
  - rewrite bind_cons.
    destruct (Payment.move pay) as [m|]; cbn [res_bind app].
    + rewrite collect_payment_line_none.
      destruct (decide (Forall _ (move_lines_of σ m))) as [Hm|Hm];
        cbn [res_bind].
      * rewrite IH. destruct (decide (Forall _ (_ ≫= _))) as [Hrest|Hrest].
        -- rewrite decide_True; [done|]. by apply Forall_app.
        -- rewrite decide_False; [done|]. intros Hall.
           apply Forall_app in Hall. naive_solver.
      * rewrite decide_False; [done|]. intros Hall.
        apply Forall_app in Hall. naive_solver.
    + by rewrite IH.
Qed.

Section Reconciler.
Context `{Collaborators}.



Lemma reconcile_sale_without_account sid s p w :
  sales (store w) !! sid = Some s →
  parties (store w) !! Sale.party s = Some p →
  Party.account_receivable p = None →
  Exists unreconciled (payment_lines (store w) sid) →
  reconcile_sale sid w =
  (Raise (AttributeError "'NoneType' object has no attribute 'id'"), w).
Proof.
  intros Hs Hp Ha Hopen. unfold reconcile_sale, bind, read_sale, read_party, lift.
  rewrite Hs, Hp, Ha. rewrite collect_payment_lines_none.
  rewrite decide_False; [done|].
  intros Hall. apply Exists_exists in Hopen as (l & Hl & Hopen).
  rewrite Forall_forall in Hall. by apply (Hall l).
Qed.

(** C9. The receivable account of the party is read without a guard. When
    the party of a selected sale has none and a move of a payment of that
    sale has a line that is not reconciled, [transition_start] raises
    [AttributeError], which is none of the user errors of the module; so it
    returns 'end' only if every such line is reconciled. *)
Theorem reconcile_without_receivable (pre post : list Z) sid s p w w1 :
  for_each (λ _ sid, reconcile_sale sid) pre () w = (Ok (), w1) →
  sales (store w1) !! sid = Some s →
  parties (store w1) !! Sale.party s = Some p →
  Party.account_receivable p = None →
  (Exists unreconciled (payment_lines (store w1) sid) →
     transition_start (pre ++ sid :: post) w =
     (Raise (AttributeError "'NoneType' object has no attribute 'id'"), w1)) ∧
  (∀ w', transition_start (pre ++ sid :: post) w = (Ok StateEnd, w') →
     Forall (λ l, ¬ unreconciled l) (payment_lines (store w1) sid)).
Proof.
  intros Hpre Hs Hp Ha.
  assert (Exists unreconciled (payment_lines (store w1) sid) →
          transition_start (pre ++ sid :: post) w =
          (Raise (AttributeError "'NoneType' object has no attribute 'id'"),
           w1)) as Hraise.
  { intros Hopen. unfold transition_start. unfold bind at 1.
    rewrite for_each_app. unfold bind at 1. rewrite Hpre.
    cbn [for_each]. unfold bind at 1.
    by rewrite (reconcile_sale_without_account sid s p w1). }
  split; [done|]. intros w' Hok.
  destruct (decide (Exists unreconciled (payment_lines (store w1) sid)))
    as [Hopen|Hclosed].
  - rewrite (Hraise Hopen) in Hok. done.
  - apply Forall_forall. intros l Hl Hopen. apply Hclosed.
    apply Exists_exists. by exists l.
Qed.
End Reconciler.
(** ** The origin of an invoice line *)

Lemma index_cons (s1 : string) (c : ascii) (s2 : string) :
  String.index 0 s1 (String c s2) =
  if String.prefix s1 (String c s2) then Some 0%nat
  else match String.index 0 s1 s2 with
       | Some n => Some (S n)
       | None => None
       end.
Proof. reflexivity. Qed.

Lemma prefix_comma (c : ascii) (s : string) :
  String.prefix "," (String c s) = bool_decide (c = ","%char).
Proof.
  change (String.prefix "," (String c s))
    with (match ascii_dec "," c with
          | left _ => String.prefix "" s
          | right _ => false
          end).
  destruct (ascii_dec "," c) as [<-|Hne].
  - by destruct s.
  - by rewrite bool_decide_false.
Qed.

Lemma index_comma (model rest : string) :
  ","%char ∉ String.list_ascii_of_string model →
  String.index 0 "," (model +:+ String "," rest) = Some (String.length model).
Proof.
  induction model as [|c model IH]; intros Hno.
  - change ("" +:+ String "," rest) with (String "," rest).
    by rewrite index_cons, prefix_comma.
  - cbn [String.list_ascii_of_string] in Hno.
    apply not_elem_of_cons in Hno as [Hc Hno].
    change (String c model +:+ String "," rest)
      with (String c (model +:+ String "," rest)).
    rewrite index_cons, prefix_comma, bool_decide_false by done.
    by rewrite IH.
Qed.

Lemma substring_all (s : string) (k : nat) :
  (String.length s ≤ k)%nat → String.substring 0 k s = s.
Proof.
  revert k. induction s as [|c s IH]; intros k Hk.
  - by destruct k.
  - destruct k as [|k]; cbn in Hk; [lia|].
    cbn [String.substring]. rewrite IH by lia. done.
Qed.

Lemma substring_tail (model rest : string) (k : nat) :
  (String.length rest ≤ k)%nat →
  String.substring (String.length model + 1) k (model +:+ String "," rest)
  = rest.
Proof.
  intros Hk. induction model as [|c model IH].
  - cbn. by apply substring_all.
  - simpl. exact IH.
Qed.

Lemma length_append (s t : string) :
  String.length (s +:+ t) = (String.length s + String.length t)%nat.
Proof. induction s as [|c s IH]; simpl; [done|]. by f_equal. Qed.

(** After the first comma of [model,rest] comes [rest]. *)
Lemma origin_split (model rest : string) :
  ","%char ∉ String.list_ascii_of_string model →
  substring_from (position_comma (model +:+ String "," rest) + 1)
                 (model +:+ String "," rest) = rest.
Proof.
  intros Hno. unfold position_comma, substring_from.
  rewrite index_comma by done.
  replace (S (String.length model) + 1 - 1)%nat
    with (String.length model + 1)%nat by lia.
  apply substring_tail. rewrite length_append. cbn. lia.
Qed.


Lemma no_comma_index (origin : string) :
  ","%char ∉ String.list_ascii_of_string origin →
  String.index 0 "," origin = None.
Proof.
  induction origin as [|c origin IH]; intros Hno; [done|].
  cbn [String.list_ascii_of_string] in Hno.
  apply not_elem_of_cons in Hno as [Hc Hno].
  rewrite index_cons, prefix_comma, bool_decide_false by done.
  by rewrite IH.
Qed.

(** A text has no comma, or splits at its first one. *)
Lemma comma_split (origin : string) :
  ","%char ∉ String.list_ascii_of_string origin ∨
  ∃ model rest, origin = model +:+ String "," rest ∧
                ","%char ∉ String.list_ascii_of_string model.
Proof.
  induction origin as [|c origin IH].
  - left. apply not_elem_of_nil.
  - destruct (decide (c = ","%char)) as [->|Hc].
    + right. exists "", origin. split; [done|apply not_elem_of_nil].
    + destruct IH as [Hno|(model & rest & -> & Hno)].
      * left. cbn [String.list_ascii_of_string].
        apply not_elem_of_cons. split; [done|done].
      * right. exists (String c model), rest. split; [done|].
        cbn [String.list_ascii_of_string]. by apply not_elem_of_cons.
Qed.

(** The text the query casts is the one the specification names. *)
Lemma origin_token_substring (origin rest : string) :
  origin_token origin rest ↔
  substring_from (position_comma origin + 1) origin = rest.
Proof.
  assert (∀ o, ","%char ∉ String.list_ascii_of_string o →
               substring_from (position_comma o + 1) o = o) as Hwhole.
  { intros o Hno. unfold position_comma, substring_from.
    rewrite no_comma_index by done. by apply substring_all. }
  split.
  - intros [(model & -> & Hno)|[-> Hno]].
    + by apply origin_split.
    + by apply Hwhole.
  - intros <-. destruct (comma_split origin) as [Hno|(model & rest & -> & Hno)].
    + right. split; [|done]. by rewrite Hwhole.
    + left. exists model. split; [|done]. by rewrite origin_split.
Qed.

(** *** The characters *)

Lemma is_blank_decide (c : ascii) : is_blank c = bool_decide (blank c).
Proof. destruct c as [[] [] [] [] [] [] [] []]; vm_compute; reflexivity. Qed.

Lemma is_blank_true (c : ascii) : blank c → is_blank c = true.
Proof. intros Hc. rewrite is_blank_decide. by apply bool_decide_eq_true. Qed.

Lemma is_blank_blank (c : ascii) : is_blank c = true → blank c.
Proof. rewrite is_blank_decide. by intros Hc%bool_decide_eq_true. Qed.

Lemma digit_of_digit_char (d : Z) :
  0 ≤ d ≤ 9 → digit_of (digit_char d) = Some d.
Proof.
  intros Hd.
  assert (d = 0 ∨ d = 1 ∨ d = 2 ∨ d = 3 ∨ d = 4 ∨ d = 5 ∨ d = 6 ∨ d = 7 ∨
          d = 8 ∨ d = 9) as Hcases by lia.
  repeat (destruct Hcases as [->|Hcases]; [reflexivity|]). by subst.
Qed.

Lemma digit_of_some (c : ascii) (d : Z) :
  digit_of c = Some d → c = digit_char d ∧ 0 ≤ d ≤ 9.
Proof.
  destruct c as [[] [] [] [] [] [] [] []]; intros Hd; vm_compute in Hd;
    first [discriminate | injection Hd as <-; split; [reflexivity|lia]].
Qed.

Lemma blank_no_digit (c : ascii) : is_blank c = true → digit_of c = None.
Proof.
  destruct c as [[] [] [] [] [] [] [] []]; intros Hb; vm_compute in Hb;
    first [discriminate | reflexivity].
Qed.

Lemma digit_no_blank (c : ascii) (d : Z) :
  digit_of c = Some d →
  is_blank c = false ∧ c ≠ "-"%char ∧ c ≠ "+"%char.
Proof.
  destruct c as [[] [] [] [] [] [] [] []]; intros Hd; vm_compute in Hd;
    first [discriminate | by repeat split].
Qed.

(** *** Blanks and digits *)

Lemma skip_blanks_app (lead rest : list ascii) :
  Forall blank lead → skip_blanks (lead ++ rest) = skip_blanks rest.
Proof.
  induction 1 as [|c lead Hc _ IH]; [done|].
  cbn. by rewrite (is_blank_true c Hc).
Qed.

Lemma skip_blanks_all (l : list ascii) :
  skip_blanks l = [] ↔ Forall blank l.
Proof.
  split.
  - induction l as [|c l IH]; [by constructor|].
    cbn. destruct (is_blank c) eqn:Hc; [|done].
    intros Hrest. constructor; [by apply is_blank_blank|by apply IH].
  - intros Hall. rewrite <- (app_nil_r l). by rewrite skip_blanks_app.
Qed.

Lemma skip_blanks_split (l : list ascii) :
  ∃ lead, l = lead ++ skip_blanks l ∧ Forall blank lead.
Proof.
  induction l as [|c l (lead & Hl & Hlead)]; [by exists []|].
  cbn. destruct (is_blank c) eqn:Hc.
  - exists (c :: lead). split; [cbn; by f_equal|].
    constructor; [by apply is_blank_blank|done].
  - by exists [].
Qed.

Lemma decimal_from (acc : Z) (ds : list Z) :
  foldl (λ a d, 10 * a + d) acc ds = acc * 10 ^ Z.of_nat (length ds) + decimal ds.
Proof.
  unfold decimal. revert acc.
  induction ds as [|d ds IH] using rev_ind; intros acc.
  - cbn. lia.
  - rewrite !foldl_snoc, IH, length_app. cbn [length].
    rewrite Nat2Z.inj_add, Z.pow_add_r by lia.
    change (Z.of_nat 1) with 1. lia.
Qed.

Lemma decimal_nonneg (ds : list Z) :
  Forall (λ d, 0 ≤ d ≤ 9) ds → 0 ≤ decimal ds.
Proof.
  unfold decimal. induction ds as [|d ds IH] using rev_ind; intros Hds.
  - done.
  - apply Forall_app in Hds as [Hds Hd]. rewrite Forall_singleton in Hd.
    rewrite foldl_snoc. specialize (IH Hds). lia.
Qed.

Lemma read_digits_app (ds : list Z) (rest : list ascii) (acc : Z) :
  Forall (λ d, 0 ≤ d ≤ 9) ds →
  head rest ≫= digit_of = None →
  read_digits acc ((digit_char <$> ds) ++ rest) =
  (foldl (λ a d, 10 * a + d) acc ds, rest).
Proof.
  intros Hds Hrest. revert acc.
  induction Hds as [|d ds Hd _ IH]; intros acc.
  - cbn. destruct rest as [|c rest]; [done|].
    cbn in Hrest. cbn. by rewrite Hrest.
  - cbn [fmap list_fmap app read_digits foldl].
    rewrite digit_of_digit_char by done. apply IH.
Qed.

Lemma read_digits_split (l : list ascii) (acc : Z) :
  ∃ ds, l = (digit_char <$> ds) ++ (read_digits acc l).2 ∧
        Forall (λ d, 0 ≤ d ≤ 9) ds ∧
        (read_digits acc l).1 = foldl (λ a d, 10 * a + d) acc ds.
Proof.
  revert acc. induction l as [|c l IH]; intros acc.
  - by exists [].
  - cbn [read_digits]. destruct (digit_of c) as [d|] eqn:Hc.
    + destruct (IH (10 * acc + d)) as (ds & Hl & Hds & Hv).
      apply digit_of_some in Hc as [-> Hd].
      exists (d :: ds). split; [|split].
      * cbn. by f_equal.
      * by constructor.
      * done.
    + by exists [].
Qed.

(** *** The cast *)

Lemma cast_digits_reads (negative : bool) (l : list ascii) (n : Z) :
  cast_digits negative l = Ok n ↔
  ∃ ds trail,
    l = (digit_char <$> ds) ++ trail ∧
    ds ≠ [] ∧ Forall (λ d, 0 ≤ d ≤ 9) ds ∧ Forall blank trail ∧
    n = (if negative then - decimal ds else decimal ds) ∧
    -2147483648 ≤ n ≤ 2147483647.
Proof.
  split.
  - unfold cast_digits. destruct l as [|c l]; [done|].
    destruct (digit_of c) as [d|] eqn:Hc; [|done].
    destruct (read_digits_split (c :: l) 0) as (ds & Hl & Hds & Hv).
    destruct (read_digits 0 (c :: l)) as [v rest] eqn:Hread.
    cbn [fst snd] in Hl, Hv.
    assert (ds ≠ []) as Hne.
    { intros ->. cbn in Hl. subst rest.
      cbn [read_digits] in Hread. rewrite Hc in Hread.
      destruct (read_digits_split l (10 * 0 + d)) as (ds' & Hl' & _).
      rewrite Hread in Hl'. cbn [snd] in Hl'.
      apply (f_equal length) in Hl'. rewrite length_app in Hl'.
      cbn in Hl'. lia. }
    rewrite decimal_from in Hv. cbn in Hv.
    assert (v = decimal ds) as -> by lia.
    pose proof (decimal_nonneg ds Hds) as Hpos.
    unfold int4_min.
    case_bool_decide as Hbig; [done|].
    case_bool_decide as Htrail; [done|].
    assert (Forall blank rest) as Hblank.
    { apply skip_blanks_all. by destruct (skip_blanks rest). }
    destruct negative; cbn [negb andb].
    + intros [= <-]. exists ds, rest. repeat split; try done; lia.
    + case_bool_decide as Hedge; [done|].
      intros [= <-]. exists ds, rest. repeat split; try done; lia.
  - intros (ds & trail & -> & Hne & Hds & Htrail & -> & Hrange).
    destruct ds as [|d ds]; [done|].
    unfold cast_digits. cbn [fmap list_fmap app].
    pose proof Hds as Hds'. apply Forall_cons in Hds' as [Hd _].
    rewrite digit_of_digit_char by done.
    change (digit_char d :: (digit_char <$> ds) ++ trail)
      with ((digit_char <$> d :: ds) ++ trail).
    rewrite read_digits_app; [|done|].
    2:{ destruct trail as [|c trail]; [done|]. cbn.
        apply blank_no_digit, is_blank_true.
        by apply Forall_cons in Htrail as [? _]. }
    fold (decimal (d :: ds)).
    pose proof (decimal_nonneg (d :: ds) Hds) as Hpos.
    unfold int4_min.
    rewrite bool_decide_false by (destruct negative; lia).
    rewrite (proj2 (skip_blanks_all trail) Htrail).
    rewrite bool_decide_false by (by intros []).
    destruct negative; cbn [negb andb]; [done|].
    rewrite bool_decide_false by lia. done.
Qed.

(** The cast returns [n] exactly on the texts that read as [n]. *)
Lemma cast_integer_reads (text : string) (n : Z) :
  cast_integer text = Ok n ↔ reads_integer text n.
Proof.
  unfold cast_integer, reads_integer.
  generalize (String.list_ascii_of_string text). intros l.
  unfold cast_chars.
  destruct (skip_blanks_split l) as (lead & Hl & Hlead).
  split.
  - destruct (skip_blanks l) as [|c r] eqn:Hskip.
    { intros Hcast. apply cast_digits_reads in Hcast
        as (ds & trail & Hnil & Hne & _).
      by destruct ds. }
    case_bool_decide as Hminus; [|case_bool_decide as Hplus].
    + intros Hcast. apply cast_digits_reads in Hcast
        as (ds & trail & -> & Hne & Hds & Htrail & -> & Hrange).
      exists lead, ["-"%char], ds, trail. subst c.
      rewrite bool_decide_true by done.
      split_and!; first [done | lia | set_solver].
    + intros Hcast. apply cast_digits_reads in Hcast
        as (ds & trail & -> & Hne & Hds & Htrail & -> & Hrange).
      exists lead, ["+"%char], ds, trail. subst c.
      rewrite bool_decide_false by done.
      split_and!; first [done | lia | set_solver].
    + intros Hcast. apply cast_digits_reads in Hcast
        as (ds & trail & Hcr & Hne & Hds & Htrail & -> & Hrange).
      exists lead, [], ds, trail. rewrite Hl, Hcr.
      rewrite bool_decide_false by done.
      split_and!; first [done | lia | set_solver].
  - intros (lead' & sign & ds & trail & -> & Hlead' & Htrail & Hsign & Hne &
            Hds & -> & Hrange).
    rewrite skip_blanks_app by done.
    destruct ds as [|d ds]; [done|].
    pose proof Hds as Hds'. apply Forall_cons in Hds' as [Hd _].
    pose proof (digit_of_digit_char d Hd) as Hdigit.
    apply digit_no_blank in Hdigit as (Hnb & Hnm & Hnp).
    assert (sign = [] ∨ sign = ["+"%char] ∨ sign = ["-"%char])
      as [->|[->| ->]] by set_solver.
    + rewrite bool_decide_false in Hrange |- * by done.
      cbn [app fmap list_fmap skip_blanks]. rewrite Hnb.
      rewrite !bool_decide_false by done.
      apply cast_digits_reads. exists (d :: ds), trail.
      split_and!; first [done | lia].
    + rewrite bool_decide_false in Hrange |- * by done.
      cbn [app skip_blanks].
      change (is_blank "+") with false. cbn iota.
      rewrite bool_decide_false by done. rewrite bool_decide_true by done.
      apply cast_digits_reads. exists (d :: ds), trail.
      split_and!; first [done | lia].
    + rewrite bool_decide_true in Hrange |- * by done.
      cbn [app skip_blanks].
      change (is_blank "-") with false. cbn iota.
      rewrite bool_decide_true by done.
      apply cast_digits_reads. exists (d :: ds), trail.
      split_and!; first [done | lia].
Qed.

(** The cast of the query returns [n] exactly on the origins the
    specification reads as [n]. *)
Lemma origin_id_reads (origin : string) (n : Z) :
  origin_id origin = Ok n ↔ origin_reads origin n.
Proof.
  unfold origin_id, origin_reads. rewrite cast_integer_reads. split.
  - intros Hreads. eexists. split; [|exact Hreads].
    by apply origin_token_substring.
  - intros (rest & Htoken & Hreads).
    apply origin_token_substring in Htoken. by rewrite Htoken.
Qed.

(** ** Residual query engine *)

Lemma elem_of_inner_join {A B} (on : A → B → bool) (l : list A) (r : list B) a b :
  (a, b) ∈ inner_join on l r ↔ a ∈ l ∧ b ∈ r ∧ on a b = true.
Proof.
  unfold inner_join. rewrite list_elem_of_bind. split.
  - intros (a' & Hin & Ha). apply list_elem_of_fmap in Hin as (b' & [= -> ->] & Hb).
    apply list_elem_of_filter in Hb as [Hon Hb]. apply Is_true_true in Hon. done.
  - intros (Ha & Hb & Hon). exists a. split; [|done].
    apply list_elem_of_fmap. exists b. split; [done|].
    apply list_elem_of_filter. split; [|done]. by apply Is_true_true.
Qed.

Lemma elem_of_group_keys {A} (key : A → Z) (rows : list A) k :
  k ∈ (group_by key rows).*1 ↔ ∃ r, r ∈ rows ∧ key r = k.
Proof.
  unfold group_by. rewrite <- list_fmap_compose.
  rewrite list_elem_of_fmap. split.
  - intros (k' & -> & Hk). cbn. rewrite elem_of_remove_dups in Hk.
    apply list_elem_of_fmap in Hk as (r & -> & Hr). by exists r.
  - intros (r & Hr & <-). exists (key r). split; [done|].
    rewrite elem_of_remove_dups. apply list_elem_of_fmap. by exists r.
Qed.

Lemma elem_of_group_by {A} (key : A → Z) (rows : list A) g :
  g ∈ group_by key rows ↔
  (∃ r, r ∈ rows ∧ key r = g.1) ∧ g.2 = filter (λ r, key r = g.1) rows.
Proof.
  unfold group_by. rewrite list_elem_of_fmap. split.
  - intros (k & -> & Hk). cbn. split; [|done].
    rewrite elem_of_remove_dups in Hk.
    apply list_elem_of_fmap in Hk as (r & -> & Hr). by exists r.
  - intros [(r & Hr & Hkey) Hrows]. exists g.1. split.
    + destruct g as [k rows']. cbn in *. by subst.
    + rewrite elem_of_remove_dups. apply list_elem_of_fmap. by exists r.
Qed.

Lemma filter_bind_const {A B} (P : B → Prop) `{∀ b, Decision (P b)}
    (Q : A → Prop) `{∀ a, Decision (Q a)} (f : A → list B) (l : list A) :
  (∀ a b, b ∈ f a → (P b ↔ Q a)) →
  filter P (l ≫= f) = filter Q l ≫= f.
Proof.
  intros HPQ. induction l as [|a l IH]; [done|].
  rewrite bind_cons, filter_app, IH.
  destruct (decide (Q a)) as [Hq|Hq].
  - rewrite (filter_cons_True Q) by done. rewrite bind_cons. f_equal.
    apply filter_all. apply Forall_forall. intros b Hb. by apply (HPQ a).
  - rewrite (filter_cons_False Q) by done.
    rewrite filter_none; [done|]. apply Forall_forall. intros b Hb HP.
    apply Hq. by apply (HPQ a b).
Qed.

Lemma filter_key_unique {V} (Q : Z * V → Prop) `{∀ x, Decision (Q x)}
    (l : list (Z * V)) k v :
  NoDup l.*1 → (k, v) ∈ l →
  filter (λ x, x.1 = k) (filter Q l) = if decide (Q (k, v)) then [(k, v)] else [].
Proof.
  induction l as [|[k' v'] l IH]; intros Hnd Hin.
  - by apply elem_of_nil in Hin.
  - rewrite fmap_cons in Hnd. apply NoDup_cons in Hnd as [Hnotin Hnd].
    apply elem_of_cons in Hin as [[= <- <-]|Hin].
    + assert (filter (λ x : Z * V, x.1 = k) (filter Q l) = []) as Hrest.
      { apply filter_none. apply Forall_forall. intros [k2 v2] Hx Hk.
        apply list_elem_of_filter in Hx as [_ Hx].
        cbn in Hk. subst k2. apply Hnotin. apply list_elem_of_fmap.
        by exists (k, v2). }
      destruct (decide (Q (k, v))) as [Hq|Hq].
      * rewrite (filter_cons_True Q) by done.
        rewrite filter_cons_True by done. by rewrite Hrest.
      * by rewrite (filter_cons_False Q) by done.
    + assert (k' ≠ k) as Hne.
      { intros ->. apply Hnotin. apply list_elem_of_fmap. by exists (k, v). }
      destruct (decide (Q (k', v'))) as [Hq|Hq].
      * rewrite (filter_cons_True Q) by done.
        rewrite filter_cons_False by done. by apply IH.
      * rewrite (filter_cons_False Q) by done. by apply IH.
Qed.

Lemma filter_key_absent {V} (Q : Z * V → Prop) `{∀ x, Decision (Q x)}
    (l : list (Z * V)) k :
  k ∉ l.*1 → filter (λ x, x.1 = k) (filter Q l) = [].
Proof.
  intros Hnotin. apply filter_none. apply Forall_forall.
  intros [k' v'] Hx Hk. apply list_elem_of_filter in Hx as [_ Hx].
  cbn in Hk. subst k'. apply Hnotin.
  apply list_elem_of_fmap. by exists (k, v').
Qed.

Section Grouped.
Variable σ : Store.

Lemma joined_rows_fst s r : r ∈ joined_rows σ s → r.1 = s.
Proof.
  unfold joined_rows. destruct (filter _ _) as [|b bs].
  - intros Hr. apply list_elem_of_singleton in Hr. by subst.
  - intros Hr. apply list_elem_of_fmap in Hr as (b' & -> & _). done.
Qed.

Lemma joined_rows_head s : ∃ r rows, joined_rows σ s = r :: rows.
Proof.
  unfold joined_rows. destruct (filter _ _) as [|b bs]; cbn; eauto.
Qed.

Lemma joined_rows_sum sid s :
  sumZ ((λ r, coalesce_amount r.2) <$> joined_rows σ (sid, s)) =
  sumZ (Payment.amount <$> payments_of σ sid).
Proof.
  unfold joined_rows, payments_of. cbn [fst].
  rewrite (list_filter_iff _ (λ p, Payment.sale p = Some sid))
    by (intros p; apply bool_decide_spec).
  destruct (filter _ (payments σ)) as [|b bs]; [done|].
  rewrite <- list_fmap_compose. done.
Qed.

Lemma kept_group (sid : Z) :
  filter (λ r : (Z * Sale.t) * option Payment.t, r.1.1 = sid)
    (filter (λ r : (Z * Sale.t) * option Payment.t, candidate r.1.2)
            (map_to_list (sales σ) ≫= joined_rows σ)) =
  match sales σ !! sid with
  | Some s => if decide (candidate s) then joined_rows σ (sid, s) else []
  | None => []
  end.
Proof.
  rewrite (filter_bind_const _ (λ s : Z * Sale.t, candidate s.2)),
          (filter_bind_const _ (λ s : Z * Sale.t, s.1 = sid)).
  2: { intros a b Hb. by rewrite (joined_rows_fst a b Hb). }
  2: { intros a b Hb. by rewrite (joined_rows_fst a b Hb). }
  destruct (sales σ !! sid) as [s|] eqn:Hs.
  - rewrite (filter_key_unique _ _ sid s).
    + cbn [snd]. destruct (decide (candidate s)); [|done].
      rewrite bind_cons. cbn. by rewrite app_nil_r.
    + apply NoDup_fst_map_to_list.
    + by apply elem_of_map_to_list.
  - rewrite filter_key_absent; [done|].
    intros Hin. apply list_elem_of_fmap in Hin as ([k v] & -> & Hin).
    apply elem_of_map_to_list in Hin. cbn in Hs. congruence.
Qed.

Lemma elem_of_grouped sid :
  sid ∈ grouped σ ↔
  ∃ s total,
    sales σ !! sid = Some s ∧
    Sale.state s ∈ [SaleConfirmed; SaleProcessing; SaleDone] ∧
    Sale.total_amount_cache s = Some total ∧
    sumZ (Payment.amount <$> payments_of σ sid) < total.
Proof.
  unfold grouped. rewrite list_elem_of_fmap.
  change (left_join _ _ _) with (map_to_list (sales σ) ≫= joined_rows σ).
  split.
  - intros ([k rows] & -> & Hg). apply list_elem_of_filter in Hg as [Hhaving Hg].
    apply elem_of_group_by in Hg as [_ Hrows]. cbn [fst snd] in *.
    change (filter (λ r, is_Some _ ∧ _) _)
      with (filter (λ r : (Z * Sale.t) * option Payment.t, candidate r.1.2)
              (map_to_list (sales σ) ≫= joined_rows σ)) in Hrows.
    rewrite kept_group in Hrows.
    destruct (sales σ !! k) as [s|] eqn:Hs; [|by subst rows].
    destruct (decide (candidate s)) as [[Hcache Hstate]|]; [|by subst rows].
    subst rows. destruct (joined_rows_head (k, s)) as (r & rows & Hrows).
    assert (r.1 = (k, s)) as Hr.
    { apply joined_rows_fst. rewrite Hrows. apply list_elem_of_here. }
    rewrite <- (joined_rows_sum k s). rewrite Hrows in *. cbn [snd] in Hhaving.
    rewrite Hr in Hhaving. cbn [snd] in Hhaving.
    destruct Hcache as [total Hcache]. rewrite Hcache in Hhaving.
    apply bool_decide_unpack in Hhaving.
    exists s, total. repeat split; try done.
    unfold residual_state in Hstate. by apply bool_decide_unpack in Hstate.
  - intros (s & total & Hs & Hstate & Hcache & Hsum).
    assert (candidate s) as Hcand.
    { split; [by eexists|]. unfold residual_state. by apply bool_decide_pack. }
    exists (sid, joined_rows σ (sid, s)). split; [done|].
    destruct (joined_rows_head (sid, s)) as (r & rows & Hrows).
    assert (r.1 = (sid, s)) as Hr.
    { apply joined_rows_fst. rewrite Hrows. apply list_elem_of_here. }
    apply list_elem_of_filter. split.
    + cbn [snd]. rewrite <- (joined_rows_sum sid s) in Hsum.
      rewrite Hrows in *. rewrite Hr. cbn [snd]. rewrite Hcache.
      by apply bool_decide_pack.
    + apply elem_of_group_by. cbn [fst snd].
      change (filter (λ r, is_Some _ ∧ _) _)
        with (filter (λ r : (Z * Sale.t) * option Payment.t, candidate r.1.2)
                (map_to_list (sales σ) ≫= joined_rows σ)).
      split.
      * exists r. split; [|by rewrite Hr].
        assert (r ∈ filter (λ r : (Z * Sale.t) * option Payment.t, r.1.1 = sid)
                  (filter (λ r : (Z * Sale.t) * option Payment.t, candidate r.1.2)
                     (map_to_list (sales σ) ≫= joined_rows σ))) as Hin.
        { rewrite kept_group, Hs. rewrite decide_True by done.
          rewrite Hrows. apply list_elem_of_here. }
        apply list_elem_of_filter in Hin as [_ Hin]. done.
      * rewrite kept_group, Hs. by rewrite decide_True.
Qed.
End Grouped.

Lemma origin_keys_ok (ils : list InvoiceLine.t) :
  (∀ il o, il ∈ ils → InvoiceLine.origin il = Some o →
           ∃ n, origin_reads o n) →
  ∃ keyed,
    res_map origin_key ils = Ok keyed ∧
    ∀ il key, (il, key) ∈ keyed ↔
      il ∈ ils ∧
      ((InvoiceLine.origin il = None ∧ key = None) ∨
       ∃ o n, InvoiceLine.origin il = Some o ∧ origin_reads o n ∧
              key = Some n).
Proof.
  intros Hwf.
  assert (∀ il, il ∈ ils →
            origin_key il =
            Ok (il, InvoiceLine.origin il ≫= λ o,
                      match origin_id o with
                      | Ok n => Some n
                      | Raise _ => None
                      end)) as Hkey.
  { intros il Hil. unfold origin_key.
    destruct (InvoiceLine.origin il) as [o|] eqn:Ho; [|done].
    destruct (Hwf il o Hil Ho) as [n Hn]. apply origin_id_reads in Hn.
    cbn. by rewrite Hn. }
  eexists. split; [exact (res_map_ok _ _ ils Hkey)|].
  intros il key. rewrite list_elem_of_fmap. split.
  - intros (il' & [= <- ->] & Hil). split; [done|].
    destruct (InvoiceLine.origin il) as [o|] eqn:Ho; [|by left].
    right. destruct (Hwf il o Hil Ho) as [n Hn].
    exists o, n. split; [done|]. split; [done|].
    apply origin_id_reads in Hn. cbn. by rewrite Hn.
  - intros [Hil [[Ho ->]|(o & n & Ho & Hn & ->)]].
    + exists il. split; [|done]. by rewrite Ho.
    + exists il. split; [|done]. rewrite Ho. cbn.
      apply origin_id_reads in Hn. by rewrite Hn.
Qed.

(** C1. On a store where the origin of every invoice line, when set,
    reads as an integer of 32 bits after its first comma (the form
    'model,id' of a reference), [search_residual_amount] returns, whatever
    the name and the clause, exactly the sales that are in state
    confirmed, processing or done, have a cached total, have payments
    whose amounts sum to strictly less than that total, and have a line
    to which the origin of an invoice line of a posted invoice reads. A
    sale whose cached total is unset is never returned. How an origin
    reads is said by [origin_reads], on the text alone. *)
Theorem search_residual_amount_spec (name : string)
    (clause : string * string * Z) (σ : Store) :
  (∀ il o, il ∈ invoice_lines σ → InvoiceLine.origin il = Some o →
           ∃ n, origin_reads o n) →
  ∃ ids,
    search_residual_amount name clause σ = Ok ids ∧
    (∀ sid, sid ∈ ids ↔ outstanding σ sid) ∧
    (∀ sid s, sales σ !! sid = Some s → Sale.total_amount_cache s = None →
              sid ∉ ids).
Proof.
  intros Hwf. unfold search_residual_amount, residual_query.
  destruct (origin_keys_ok (invoice_lines σ) Hwf) as (keyed & -> & Hkeyed).
  cbn [res_bind].
  eexists. split; [reflexivity|].
  match goal with
  | |- (∀ sid, sid ∈ ?ids ↔ _) ∧ _ =>
      assert (∀ sid, sid ∈ ids ↔ outstanding σ sid) as Hiff
  end.
  { intros sid. rewrite elem_of_group_keys. unfold outstanding. split.
    - intros ([[[g sl] [il key]] [iid inv]] & Hrow & <-).
      apply list_elem_of_filter in Hrow as [Hposted Hrow].
      apply elem_of_inner_join in Hrow as (Hrow & Hinv & Hon3).
      apply elem_of_inner_join in Hrow as (Hrow & Hil & Hon2).
      apply elem_of_inner_join in Hrow as (Hg & Hsl & Hon1).
      cbn [fst snd] in *.
      apply bool_decide_eq_true in Hon1, Hon2, Hon3.
      apply elem_of_grouped in Hg as (s & total & Hs & Hstate & Hcache & Hsum).
      apply Hkeyed in Hil as [Hil [[_ ->]|(o & n & Ho & Hn & ->)]]; [done|].
      injection Hon2 as ->.
      apply elem_of_map_to_list in Hinv.
      exists s, total. repeat split; try done.
      exists sl, il, o, iid, inv. repeat split; done.
    - intros (s & total & Hs & Hstate & Hcache & Hsum &
              sl & il & o & iid & inv & Hsl & Hsale & Hil & Ho & Hid & Hinv &
              Hlook & Hposted).
      exists (((sid, sl), (il, Some (SaleLine.id sl))), (iid, inv)).
      split; [|done]. apply list_elem_of_filter. split; [done|].
      apply elem_of_inner_join. repeat split.
      + apply elem_of_inner_join. repeat split.
        * apply elem_of_inner_join.
          repeat split; [|done|by apply bool_decide_eq_true].
          apply elem_of_grouped. by exists s, total.
        * apply Hkeyed. split; [done|]. right.
          by exists o, (SaleLine.id sl).
        * by apply bool_decide_eq_true.
      + by apply elem_of_map_to_list.
      + by apply bool_decide_eq_true. }
  split; [done|].
  intros sid s Hs Hnone Hin. apply Hiff in Hin.
  destruct Hin as (s' & total & Hs' & _ & Hcache & _). congruence.
Qed.

(** ** The operations on the example store *)

Ltac by_compute := vm_compute; reflexivity.

Ltac decide_compute :=
  match goal with
  | |- ?P => apply (bool_decide_unpack P); vm_compute; exact I
  end.

Lemma get_paid_amount_is_sum_witness :
  entry (get_paid_amount Example.shop [2; 5] ["paid_amount"]) "paid_amount" 5
  = Some 100.
Proof.
  apply (proj2 (proj2 (get_paid_amount_is_sum Example.shop))
           [2; 5] ["paid_amount"] "paid_amount" 5); decide_compute.
Defined.

Lemma get_residual_amount_is_difference_witness :
  ∃ result,
    get_residual_amount Example.shop [2; 5] ["residual_amount"] = Ok result ∧
    entry result "residual_amount" 2 = Some (50 - paid_amount Example.shop 2).
Proof.
  destruct (get_residual_amount_is_difference Example.shop [2; 5]
              ["residual_amount"]) as (result & Hrun & Hentry).
  - intros sid Hin. apply elem_of_cons in Hin as [->|Hin].
    + exists Example.sale2, 50. split; by_compute.
    + apply elem_of_cons in Hin as [->|Hin].
      * exists Example.sale5, 100. split; by_compute.
      * by apply elem_of_nil in Hin.
  - exists result. split; [exact Hrun|].
    apply (Hentry "residual_amount" 2 Example.sale2 50).
    + decide_compute.
    + decide_compute.
    + by_compute.
    + by_compute.
Defined.

Section OnTheShop.
#[local] Existing Instance Demo.collaborators.
Import Example.

Lemma search_residual_amount_spec_witness :
  ∃ ids,
    search_residual_amount "residual_amount" ("residual_amount", ">", 0) shop
      = Ok ids ∧
    (∀ sid, sid ∈ ids ↔ outstanding shop sid) ∧
    (∀ sid s, sales shop !! sid = Some s →
              Sale.total_amount_cache s = None → sid ∉ ids).
Proof.
  apply (search_residual_amount_spec "residual_amount"
           ("residual_amount", ">", 0) shop).
  intros il o Hil Ho. apply list_elem_of_singleton in Hil. subst il.
  injection Ho as <-. exists 21, "21". split.
  - left. exists "sale.line". split; [reflexivity|decide_compute].
  - exists [], [], [2; 1], []. split_and!; try done.
    + set_solver.
    + repeat constructor; lia.
Defined.

Lemma missing_invoice_stops_witness :
  let w1 := mkWorld shop [EvWorkflowToEnd [3]] in
  let w2 := (advance 3 w1).2 in
  workflow_to_end [3] (mkWorld shop []) =
    (Raise (UserError "not_customer_invoice" ["S3"]), w2) ∧
  ∃ evs, log w2 = [] ++ EvWorkflowToEnd [3] :: evs ∧
         Forall (λ ev, transition_event ev) evs ∧
         Forall (λ ev, invoice_event ev = false ∧ payment_event ev = false) evs.
Proof.
  intros w1 w2.
  apply (missing_invoice_stops [] [] 3
           (Demo.sale_with_state SaleProcessing sale3)
           (mkWorld shop []) w1 w2 no_locals); by_compute.
Defined.

Lemma rerun_on_done_sale_witness :
  ∃ r w' evs,
    workflow_to_end [1] settled = (r, w') ∧
    log w' = [] ++ EvWorkflowToEnd [1] :: evs ∧
    Forall (λ ev, invoice_event ev = false) evs ∧
    head evs =
      Some (EvStatementLineWrite [(8, mkPaymentValues 8 None)]).
Proof.
  destruct (rerun_on_done_sale 1
              (default sale1 (sales (store settled) !! 1)) alice settled)
    as (r & w' & evs & Hrun & Hlog & Hev & Hhead).
  - by_compute.
  - by_compute.
  - by_compute.
  - decide_compute.
  - exists r, w', evs. repeat split; try done.
    destruct (Hhead eq_refl
                (8, default invoice2 (invoices (store settled) !! 8))
                (8, default invoice2 (invoices (store settled) !! 8)))
      as [Hfirst _].
    + by_compute.
    + by_compute.
    + decide_compute.
    + rewrite Hfirst. by_compute.
Defined.

Lemma next_state_decision_witness :
  let w := (record_payment cash 1 (mkWorld shop [])).2 in
  next_state 2 (mkWorld shop []) = (Ok StateStart, mkWorld shop []) ∧
  (next_state 1 w).1 = Ok StateEnd ∧
  sales (store (next_state 1 w).2) !! 1 ≫= Sale.description = Some "S1" ∧
  take 4 (log (next_state 1 w).2) =
    log w ++ [EvSaleSave 1; EvWorkflowToEnd [1]].
Proof.
  intros w. split.
  - apply (next_state_decision cash 2 sale2 (mkWorld shop [])).
    + by_compute.
    + decide_compute.
  - destruct (next_state_decision cash 1 (Demo.sale_with_number sale1) w)
      as (_ & _ & _ & Hdraft & _).
    + by_compute.
    + destruct Hdraft as (_ & _ & Hnext & _).
      * by_compute.
      * by_compute.
      * rewrite Hnext. split; [by_compute|]. split; by_compute.
Defined.


Lemma reconcile_without_receivable_witness :
  transition_start [5; 4] (mkWorld shop []) =
  (Raise (AttributeError "'NoneType' object has no attribute 'id'"),
   (reconcile_sale 5 (mkWorld shop [])).2).
Proof.
  apply (reconcile_without_receivable [5] [] 4 sale4 carol (mkWorld shop [])).
  - by_compute.
  - by_compute.
  - by_compute.
  - by_compute.
  - decide_compute.
Defined.

Lemma default_start_needs_device_witness :
  default_start shop 2 0 =
  Raise (AttributeError "'bool' object has no attribute 'journal'").
Proof.
  apply (default_start_needs_device shop 2 0 sale2).
  - by_compute.
  - by_compute.
  - reflexivity.
Defined.

(** C2. The attribution step run on two sales of different parties. The
    payment of sale 7 is attributed to the first posted invoice of its
    sale, invoice 7, whose party is its own, 10; yet its party is set to
    20, the party of invoice 2, the last invoice the first loop went over:
    [invoice.party] reads the variable of that loop, not the attributed
    invoice. And on sale 6, whose party has an invoice grouping method,
    the first loop never binds that variable and the step raises
    [UnboundLocalError]. *)
Theorem payment_rehomed_to_stale_invoice :
  let run := workflow_to_end [7; 2] (mkWorld shop []) in
  posted_invoices shop sale7 = [(7, invoice7)] ∧
  Invoice.party invoice7 = 10 ∧
  payments_of shop 7 = [payment7] ∧
  Payment.party payment7 = Some 10 ∧
  run.1 = Ok () ∧
  log run.2 =
    [EvWorkflowToEnd [7; 2];
     EvStatementLineWrite [(7, mkPaymentValues 7 (Some 20));
                           (2, mkPaymentValues 2 None)];
     EvDo [7; 2]] ∧
  Payment.party <$> payments_of (store run.2) 7 = [Some 20] ∧
  (workflow_to_end [6] (mkWorld shop [])).1 =
    Raise (UnboundLocalError "invoice").
Proof. repeat split; by_compute. Qed.

(** C6 as stated fails: a second run on a sale that is done, with its
    invoice posted, writes its statement line again. *)
Lemma rerun_repeats_attribution :
  ¬ (∀ (C : Collaborators) (sid : Z) (s : Sale.t) (w : World) r w',
       sales (store w) !! sid = Some s →
       Sale.state s = SaleDone →
       Forall (λ i, Invoice.state i.2 = InvPosted)
              (sale_invoices (store w) s) →
       workflow_to_end [sid] w = (r, w') →
       ∀ evs, log w' = log w ++ evs →
              Forall (λ ev, invoice_event ev = false ∧
                            payment_event ev = false) evs).
Proof.
  intros Hclaim.
  set (s := default sale1 (sales (store settled) !! 1)).
  set (run := workflow_to_end [1] settled).
  assert (sales (store settled) !! 1 = Some s) as Hs by by_compute.
  assert (Sale.state s = SaleDone) as Hdone by by_compute.
  assert (Forall (λ i, Invoice.state i.2 = InvPosted)
                 (sale_invoices (store settled) s)) as Hposted
    by decide_compute.
  assert (workflow_to_end [1] settled = (run.1, run.2)) as Hrun
    by by_compute.
  assert (log run.2 =
          log settled ++
          [EvWorkflowToEnd [1];
           EvStatementLineWrite [(8, mkPaymentValues 8 None)];
           EvDo [1]]) as Hlog by by_compute.
  pose proof (Hclaim Demo.collaborators 1 s settled run.1 run.2
                Hs Hdone Hposted Hrun _ Hlog) as Hnone.
  inversion Hnone as [|? ? _ Hrest]. inversion Hrest as [|? ? [_ Hpayment] _].
  discriminate Hpayment.
Qed.
End OnTheShop.
(** * Further properties *)

(** ** Payment aggregator, on any batch *)

Lemma bump_bump (a b : Z) (e : option Z) :
  (λ x, x + b) <$> ((λ x, x + a) <$> e) = (λ x, x + (a + b)) <$> e.
Proof. destruct e as [z|]; [|done]. cbn. f_equal. lia. Qed.

Lemma bump_zero (e : option Z) : (λ x, x + 0) <$> e = e.
Proof. destruct e as [z|]; [|done]. cbn. f_equal. lia. Qed.

Lemma occurrences_nil {A} `{EqDecision A} (x : A) : occurrences x [] = 0.
Proof. done. Qed.

Lemma occurrences_cons {A} `{EqDecision A} (x y : A) l :
  occurrences x (y :: l) =
  (if decide (y = x) then 1 else 0) + occurrences x l.
Proof.
  unfold occurrences. destruct (decide (y = x)) as [Heq|Hne].
  - rewrite filter_cons_True by done. cbn [length]. lia.
  - rewrite filter_cons_False by done. lia.
Qed.

Lemma occurrences_nonneg {A} `{EqDecision A} (x : A) l : 0 ≤ occurrences x l.
Proof. unfold occurrences. lia. Qed.

Lemma occurrences_pos {A} `{EqDecision A} (x : A) l :
  x ∈ l → 0 < occurrences x l.
Proof.
  induction l as [|y l IH]; intros Hin.
  - by apply elem_of_nil in Hin.
  - rewrite occurrences_cons. pose proof (occurrences_nonneg x l).
    apply elem_of_cons in Hin as [->|Hin].
    + rewrite decide_True by done. lia.
    + specialize (IH Hin). destruct (decide (y = x)); lia.
Qed.

Lemma occurrences_NoDup {A} `{EqDecision A} (x : A) l :
  NoDup l → x ∈ l → occurrences x l = 1.
Proof.
  induction 1 as [|y l Hnotin Hnd IH]; intros Hin.
  - by apply elem_of_nil in Hin.
  - rewrite occurrences_cons. apply elem_of_cons in Hin as [->|Hin].
    + rewrite decide_True by done.
      assert (occurrences y l = 0) as ->; [|done].
      unfold occurrences. rewrite filter_none; [done|].
      apply Forall_forall. intros z Hz ->. done.
    + rewrite decide_False by (intros ->; done). by rewrite IH.
Qed.

Lemma entry_add_sales_any σ name (sids : list Z) result name' sid' :
  entry (foldl (λ r sid,
                  foldl (λ r p, add_amount name sid (Payment.amount p) r)
                        r (payments_of σ sid))
               result sids) name' sid' =
  if decide (name = name')
  then (λ x, x + occurrences sid' sids
                 * sumZ (Payment.amount <$> payments_of σ sid'))
         <$> entry result name' sid'
  else entry result name' sid'.
Proof.
  revert result. induction sids as [|sid sids IH]; intros result; cbn [foldl].
  - rewrite occurrences_nil, Z.mul_0_l, bump_zero.
    by destruct (decide (name = name')).
  - rewrite IH, entry_add_payments, occurrences_cons.
    destruct (decide (name = name')) as [->|Hn].
    + destruct (decide (sid = sid')) as [->|Hs].
      * destruct (decide (name' = name' ∧ sid' = sid')) as [_|[]]; [|done..].
        rewrite bump_bump.
        destruct (entry result name' sid'); [|done]; cbn; f_equal; lia.
      * destruct (decide (name' = name' ∧ sid = sid')) as [[_ Heq]|_];
          [by destruct (Hs Heq)|].
        destruct (entry result name' sid'); [|done]; cbn; f_equal; lia.
    + by destruct (decide (name = name' ∧ sid = sid')) as [[Heq _]|_].
Qed.

Lemma entry_add_names_any σ (names : list string) (sids : list Z) result
    name' sid' :
  entry (foldl (λ r name,
           foldl (λ r sid,
                    foldl (λ r p, add_amount name sid (Payment.amount p) r)
                          r (payments_of σ sid))
                 r sids)
         result names) name' sid' =
  (λ x, x + occurrences name' names * occurrences sid' sids
            * sumZ (Payment.amount <$> payments_of σ sid'))
    <$> entry result name' sid'.
Proof.
  revert result. induction names as [|name names IH]; intros result;
    cbn [foldl].
  - rewrite occurrences_nil, !Z.mul_0_l. by rewrite bump_zero.
  - rewrite IH, entry_add_sales_any, occurrences_cons.
    destruct (decide (name = name')) as [->|Hn].
    + rewrite bump_bump. destruct (entry result name' sid'); [|done].
      cbn. f_equal. lia.
    + destruct (entry result name' sid'); [|done]; cbn; f_equal; lia.
Qed.

(** X1. Whatever the batch, the entry of [get_paid_amount] for a requested
    name and a requested sale is the sum of the payments of the sale times
    the number of times the sale is in the batch times the number of times
    the name is in [names]; there is no entry for a name or a sale that was
    not requested. *)
Theorem get_paid_amount_counts σ (sale_ids : list Z) (names : list string)
    name sid :
  entry (get_paid_amount σ sale_ids names) name sid =
  if decide (name ∈ names ∧ sid ∈ sale_ids)
  then Some (occurrences name names * occurrences sid sale_ids
             * sumZ (Payment.amount <$> payments_of σ sid))
  else None.
Proof.
  unfold get_paid_amount. rewrite entry_add_names_any, entry_zero_result.
  by destruct (decide (name ∈ names ∧ sid ∈ sale_ids)).
Qed.

Lemma res_map_raise {A B} (f : A → Res B) (e : Error) (l : list A) :
  (∀ x, x ∈ l → (∃ y, f x = Ok y) ∨ f x = Raise e) →
  (∃ x, x ∈ l ∧ f x = Raise e) →
  res_map f l = Raise e.
Proof.
  induction l as [|x l IH]; intros Hall (x0 & Hin & Hraise).
  - by apply elem_of_nil in Hin.
  - cbn [res_map]. destruct (Hall x) as [[y Hy]|Hx]; [set_solver| |].
    + rewrite Hy. cbn [res_bind]. rewrite IH; [done| |].
      * intros z Hz. apply Hall. set_solver.
      * apply elem_of_cons in Hin as [->|Hin]; [congruence|]. by exists x0.
    + by rewrite Hx.
Qed.

(** X2. [get_residual_amount] fails as a whole on a batch of existing sales
    one of which has no total: it raises [TypeError] whenever a name is
    requested, also for the sales that have a total. With no name requested
    it returns the empty dictionary. *)
Theorem get_residual_amount_unset_total σ (sale_ids : list Z)
    (names : list string) :
  (∀ sid, sid ∈ sale_ids → is_Some (sales σ !! sid)) →
  (∃ sid s, sid ∈ sale_ids ∧ sales σ !! sid = Some s ∧
            Sale.total_amount s = None) →
  (names ≠ [] →
     get_residual_amount σ sale_ids names =
     Raise (TypeError "unsupported operand type(s) for -")) ∧
  get_residual_amount σ sale_ids [] = Ok ∅.
Proof.
  intros Hexist (sid & s & Hin & Hs & Hnone). split; [|done].
  intros Hnames. unfold get_residual_amount.
  assert (res_map (residual_of σ) sale_ids =
          Raise (TypeError "unsupported operand type(s) for -")) as Hrow.
  { apply res_map_raise.
    - intros x Hx. destruct (Hexist x Hx) as [s' Hs']. unfold residual_of.
      rewrite Hs'. destruct (Sale.total_amount s'); eauto.
    - exists sid. split; [done|]. unfold residual_of. by rewrite Hs, Hnone. }
  destruct names as [|n names]; [done|].
  cbn [res_map]. rewrite Hrow. done.
Qed.

(** ** The origin of an invoice line *)

Lemma pretty_char_digit (d : N) :
  (d < 10)%N → pretty_N_char d = digit_char (Z.of_N d).
Proof.
  intros Hd. destruct d as [|p]; [done|].
  repeat (destruct p as [p|p|]; try done; try lia).
Qed.

Lemma pretty_go_chars (x : N) (s : string) :
  ∃ ds, String.list_ascii_of_string (pretty_N_go x s) =
          (digit_char <$> ds) ++ String.list_ascii_of_string s ∧
        Forall (λ d, 0 ≤ d ≤ 9) ds ∧
        decimal ds = Z.of_N x ∧
        ((0 < x)%N → ds ≠ []).
Proof.
  revert s. induction (N.lt_wf_0 x) as [x _ IH]. intros s.
  destruct (decide (0 < x)%N) as [Hpos|Hzero].
  - rewrite pretty_N_go_step by done.
    destruct (IH (x `div` 10)%N) with
      (s := String (pretty_N_char (x `mod` 10)) s)
      as (ds & Hchars & Hds & Hval & _).
    { apply N.div_lt; [done|lia]. }
    assert (x `mod` 10 < 10)%N as Hmod by (apply N.mod_lt; lia).
    exists (ds ++ [Z.of_N (x `mod` 10)]). split; [|split; [|split]].
    + rewrite Hchars. cbn [String.list_ascii_of_string].
      rewrite pretty_char_digit by done.
      rewrite fmap_app, <- app_assoc. done.
    + apply Forall_app. split; [done|]. apply Forall_singleton.
      revert Hmod. generalize (x `mod` 10)%N. intros m Hm. lia.
    + unfold decimal in *. rewrite foldl_snoc, Hval.
      rewrite (N.div_mod x 10) at 3 by lia.
      rewrite N2Z.inj_add, N2Z.inj_mul. done.
    + intros _. by destruct ds.
  - assert (x = 0%N) as -> by lia. exists [].
    rewrite pretty_N_go_0. split; [done|]. split; [done|]. split; [done|].
    lia.
Qed.

(** The cast of a number written in decimal with no blank and no zero
    before it. *)
Lemma cast_canonical (negative : bool) (ds : list Z) :
  ds ≠ [] → Forall (λ d, 0 ≤ d ≤ 9) ds →
  let n := if negative then - decimal ds else decimal ds in
  cast_chars ((if negative then ["-"%char] else []) ++ (digit_char <$> ds)) =
  if bool_decide (-2147483648 ≤ n ≤ 2147483647) then Ok n
  else Raise (DataError "value is out of range for type integer").
Proof.
  intros Hne Hds n.
  destruct ds as [|d ds]; [done|].
  pose proof Hds as Hds'. apply Forall_cons in Hds' as [Hd _].
  pose proof (digit_of_digit_char d Hd) as Hdigit.
  pose proof (digit_no_blank _ _ Hdigit) as (Hnb & Hnm & Hnp).
  pose proof (decimal_nonneg (d :: ds) Hds) as Hpos.
  assert (cast_chars ((if negative then ["-"%char] else [])
                        ++ (digit_char <$> d :: ds)) =
          cast_digits negative (digit_char <$> d :: ds)) as ->.
  { unfold cast_chars. destruct negative.
    - cbn [app skip_blanks]. change (is_blank "-") with false. cbn iota.
      by rewrite bool_decide_true.
    - cbn [app fmap list_fmap skip_blanks]. rewrite Hnb.
      by rewrite !bool_decide_false. }
  unfold cast_digits. cbn [fmap list_fmap]. rewrite Hdigit.
  change (digit_char d :: (digit_char <$> ds))
    with (digit_char <$> d :: ds).
  rewrite <- (app_nil_r (digit_char <$> d :: ds)).
  rewrite read_digits_app by done.
  fold (decimal (d :: ds)). unfold int4_min. cbn [skip_blanks].
  rewrite (bool_decide_false ([] ≠ [])) by (by intros []).
  subst n. destruct negative; cbn [negb andb];
    repeat case_bool_decide; try done; lia.
Qed.

Lemma cast_pretty (id : Z) :
  cast_integer (pretty id) =
  if bool_decide (-2147483648 ≤ id ≤ 2147483647) then Ok id
  else Raise (DataError "value is out of range for type integer").
Proof.
  assert (∀ p : positive,
            ∃ ds, String.list_ascii_of_string (pretty (N.pos p)) =
                    digit_char <$> ds ∧
                  Forall (λ d, 0 ≤ d ≤ 9) ds ∧ decimal ds = Z.pos p ∧
                  ds ≠ []) as Hpretty.
  { intros p. unfold pretty, pretty_N. rewrite decide_False by done.
    destruct (pretty_go_chars (N.pos p) "") as (ds & Hchars & Hds & Hval & Hne).
    exists ds. rewrite Hchars. cbn [String.list_ascii_of_string].
    rewrite app_nil_r. split_and!; try done. apply Hne. lia. }
  unfold cast_integer. destruct id as [|p|p].
  - by vm_compute.
  - destruct (Hpretty p) as (ds & Hchars & Hds & Hval & Hne).
    change (pretty (Z.pos p)) with (pretty (N.pos p)). rewrite Hchars.
    pose proof (cast_canonical false ds Hne Hds) as Hcast.
    cbn [app] in Hcast. cbv zeta in Hcast. rewrite Hcast, Hval. done.
  - destruct (Hpretty p) as (ds & Hchars & Hds & Hval & Hne).
    change (pretty (Z.neg p)) with ("-" +:+ pretty (N.pos p)).
    change (String.list_ascii_of_string ("-" +:+ pretty (N.pos p)))
      with ("-"%char :: String.list_ascii_of_string (pretty (N.pos p))).
    rewrite Hchars.
    pose proof (cast_canonical true ds Hne Hds) as Hcast.
    cbn [app] in Hcast. cbv zeta in Hcast. rewrite Hcast, Hval. done.
Qed.

(** X3. The cast reads back the identifier a reference is written with,
    as long as it is an integer of 32 bits: for a model name with no comma
    the origin ['model,id'] gives [id] when [id] is between -2147483648
    and 2147483647, and the cast fails, out of range, for every other
    [id]. *)
Theorem origin_id_reference (model : string) (id : Z) :
  ","%char ∉ String.list_ascii_of_string model →
  (-2147483648 ≤ id ≤ 2147483647 →
     origin_id (model +:+ "," +:+ pretty id) = Ok id) ∧
  (¬ (-2147483648 ≤ id ≤ 2147483647) →
     origin_id (model +:+ "," +:+ pretty id) =
     Raise (DataError "value is out of range for type integer")).
Proof.
  intros Hno. unfold origin_id.
  change (model +:+ "," +:+ pretty id)
    with (model +:+ String "," (pretty id)).
  rewrite origin_split by done. rewrite cast_pretty.
  split; intros Hrange.
  - by rewrite bool_decide_true.
  - by rewrite bool_decide_false.
Qed.

(** ** Residual query engine and the getter *)

Lemma get_residual_amount_single σ sid s total name :
  sales σ !! sid = Some s → Sale.total_amount s = Some total →
  ∃ result,
    get_residual_amount σ [sid] [name] = Ok result ∧
    entry result name sid = Some (total - paid_amount σ sid).
Proof.
  intros Hs Ht. eexists. split.
  - unfold get_residual_amount. cbn [res_map]. unfold residual_of.
    rewrite Hs, Ht. cbn [res_bind]. reflexivity.
  - unfold entry. cbn [list_to_map foldr fst snd uncurry].
    rewrite lookup_insert_eq. cbn [mbind option_bind].
    by rewrite lookup_insert_eq.
Qed.

Lemma group_by_keys {A} (key : A → Z) (rows : list A) :
  (group_by key rows).*1 = remove_dups (key <$> rows).
Proof.
  unfold group_by. generalize (remove_dups (key <$> rows)). intros l.
  induction l as [|k l IH]; [done|]. rewrite !fmap_cons. cbn [fst].
  by rewrite IH.
Qed.

Lemma residual_query_grouped σ ids sid :
  residual_query σ = Ok ids → sid ∈ ids → sid ∈ grouped σ.
Proof.
  unfold residual_query.
  destruct (res_map origin_key (invoice_lines σ)) as [keyed|e]; [|done].
  cbn [res_bind]. intros [= <-] Hin.
  apply elem_of_group_keys in Hin as ([[[g sl] il] inv] & Hrow & <-).
  apply list_elem_of_filter in Hrow as [_ Hrow].
  apply elem_of_inner_join in Hrow as (Hrow & _ & _).
  apply elem_of_inner_join in Hrow as (Hrow & _ & _).
  apply elem_of_inner_join in Hrow as (Hg & _ & _).
  done.
Qed.

(** X4. The search and the getter agree: every sale the search returns,
    when its total is the cached one, has a residual amount, as
    [get_residual_amount] computes it, that is strictly positive; and the
    search returns no sale twice. *)
Theorem search_residual_amount_positive (name : string)
    (clause : string * string * Z) (σ : Store) (ids : list Z) :
  search_residual_amount name clause σ = Ok ids →
  NoDup ids ∧
  ∀ sid s, sid ∈ ids → sales σ !! sid = Some s →
    Sale.total_amount s = Sale.total_amount_cache s →
    ∃ result r,
      get_residual_amount σ [sid] [name] = Ok result ∧
      entry result name sid = Some r ∧ 0 < r.
Proof.
  unfold search_residual_amount. intros Hrun. split.
  - unfold residual_query in Hrun.
    destruct (res_map origin_key (invoice_lines σ)) as [keyed|e]; [|done].
    cbn [res_bind] in Hrun. injection Hrun as <-.
    rewrite group_by_keys. apply NoDup_remove_dups.
  - intros sid s Hin Hs Htotal.
    apply (residual_query_grouped σ ids sid Hrun) in Hin.
    apply elem_of_grouped in Hin as (s' & total & Hs' & _ & Hcache & Hsum).
    assert (s' = s) as -> by congruence.
    rewrite Hcache in Htotal.
    destruct (get_residual_amount_single σ sid s total name Hs Htotal)
      as (result & Hget & Hentry).
    exists result, (total - paid_amount σ sid). split; [done|].
    split; [done|]. rewrite paid_amount_sum. lia.
Qed.

(** ** Payment wizard: the statement and the payment *)

Lemma date_desc_total : Total date_desc.
Proof. intros a b. unfold date_desc. lia. Qed.

Lemma date_desc_trans : Transitive date_desc.
Proof. intros a b c. unfold date_desc. lia. Qed.

#[local] Existing Instance date_desc_total.
#[local] Existing Instance date_desc_trans.

Lemma elem_of_draft_statements σ journal st :
  st ∈ draft_statements σ journal ↔
  st ∈ statements σ ∧ Statement.journal st = journal ∧
  Statement.state st = StDraft.
Proof.
  unfold draft_statements. rewrite merge_sort_Permutation.
  rewrite list_elem_of_filter. naive_solver.
Qed.

(** X5. The statement [transition_pay_] puts the payment on: the search
    gives nothing exactly when the journal has no draft statement;
    otherwise its first result is a draft statement of the journal whose
    date no other draft statement of the journal exceeds. *)
Theorem draft_statements_newest σ journal :
  (draft_statements σ journal = [] ↔
   ∀ st, st ∈ statements σ → Statement.journal st = journal →
         Statement.state st ≠ StDraft) ∧
  (∀ first rest, draft_statements σ journal = first :: rest →
     first ∈ statements σ ∧ Statement.journal first = journal ∧
     Statement.state first = StDraft ∧
     ∀ st, st ∈ statements σ → Statement.journal st = journal →
           Statement.state st = StDraft →
           Statement.date st ≤ Statement.date first).
Proof.
  split.
  - split.
    + intros Hnone st Hin Hj Hdraft.
      assert (st ∈ draft_statements σ journal) as Hst
        by by apply elem_of_draft_statements.
      rewrite Hnone in Hst. by apply elem_of_nil in Hst.
    + intros Hnone. destruct (draft_statements σ journal) as [|st l] eqn:E;
        [done|].
      assert (st ∈ draft_statements σ journal) as Hst
        by (rewrite E; apply list_elem_of_here).
      apply elem_of_draft_statements in Hst as (Hin & Hj & Hdraft).
      by destruct (Hnone st Hin Hj).
  - intros first rest Hfound.
    assert (first ∈ draft_statements σ journal) as Hfirst
      by (rewrite Hfound; apply list_elem_of_here).
    apply elem_of_draft_statements in Hfirst as (Hin & Hj & Hdraft).
    repeat split; try done.
    intros st Hst Hjst Hdst.
    assert (st ∈ draft_statements σ journal) as Hmem
      by by apply elem_of_draft_statements.
    pose proof (StronglySorted_merge_sort date_desc
                  (filter (λ st, Statement.journal st = journal ∧
                                 Statement.state st = StDraft)
                          (statements σ))) as Hsorted.
    fold (draft_statements σ journal) in Hsorted.
    rewrite Hfound in Hsorted, Hmem.
    apply StronglySorted_inv in Hsorted as [_ Hall].
    apply elem_of_cons in Hmem as [->|Hmem]; [lia|].
    rewrite Forall_forall in Hall. by apply Hall.
Qed.

Lemma payments_of_snoc σ (pay : Payment.t) sid :
  payments_of (with_payments σ (payments σ ++ [pay])) sid =
  payments_of σ sid ++ (if decide (Payment.sale pay = Some sid) then [pay] else []).
Proof.
  unfold payments_of. cbn [payments with_payments]. rewrite filter_app.
  reflexivity.
Qed.

Lemma paid_amount_snoc σ (pay : Payment.t) sid :
  paid_amount (with_payments σ (payments σ ++ [pay])) sid =
  paid_amount σ sid +
  (if decide (Payment.sale pay = Some sid) then Payment.amount pay else 0).
Proof.
  rewrite !paid_amount_sum, payments_of_snoc, fmap_app, sumZ_app.
  f_equal. destruct (decide _); [|done]. unfold sumZ. cbn. lia.
Qed.

Lemma max_id_bound (l : list Z) (x : Z) :
  x ∈ l → x ≤ foldr Z.max 0 l.
Proof.
  induction l as [|y l IH]; intros Hin.
  - by apply elem_of_nil in Hin.
  - cbn [foldr]. apply elem_of_cons in Hin as [->|Hin]; [lia|].
    specialize (IH Hin). lia.
Qed.

Lemma next_payment_id_fresh σ :
  next_payment_id σ ∉ Payment.id <$> payments σ.
Proof.
  unfold next_payment_id. intros Hin. apply max_id_bound in Hin. lia.
Qed.

Section RecordPayment.
Context `{Collaborators}.

Lemma record_payment_run form active_id w statement rest s w1 s1 p :
  draft_statements (store w) (Form.journal form) = statement :: rest →
  sales (store w) !! active_id = Some s →
  when (negb (truthy_string (Sale.number s)))
       (call (EvSetNumber [active_id]) (set_number [active_id])) w
    = (Ok (), w1) →
  sales (store w1) !! active_id = Some s1 →
  parties (store w1) !! Sale.party s1 = Some p →
  record_payment form active_id w =
  match receivable_id p with
  | None =>
      (Raise (UserError "party_without_account_receivable" [Party.name p]), w1)
  | Some account =>
      match Form.payment_amount form with
      | Some amount =>
          if bool_decide (amount ≠ 0) then
            let pay := new_payment (store w1) statement s1 active_id account
                         amount in
            (Ok (), mkWorld (with_payments (store w1)
                               (payments (store w1) ++ [pay]))
                            (log w1 ++ [EvStatementLineSave pay]))
          else (Ok (), w1)
      | None => (Ok (), w1)
      end
  end.
Proof.
  intros Hst Hs Hnum Hs1 Hp.
  unfold record_payment. unfold bind at 1. unfold gets at 1. rewrite Hst.
  unfold bind at 1. unfold read_sale at 1, lift at 1. rewrite Hs.
  unfold bind at 1. rewrite Hnum.
  unfold bind at 1. unfold read_sale at 1, lift at 1. rewrite Hs1.
  unfold bind at 1. unfold read_party at 1, lift at 1. rewrite Hp.
  destruct (receivable_id p) as [account|]; [|done].
  destruct (Form.payment_amount form) as [amount|]; [|done].
  cbn [truthy_amount]. destruct (bool_decide (amount ≠ 0)); [|done].
  done.
Qed.

Lemma receivable_id_some (p : Party.t) (account : Z) :
  Party.account_receivable p = Some account → account ≠ 0 →
  receivable_id p = Some account.
Proof.
  intros Hacc Hnz. unfold receivable_id. rewrite Hacc.
  by rewrite bool_decide_true.
Qed.

(** X6. With no draft statement for the journal of the form,
    [transition_pay_] raises the user error 'not_draft_statement' with the
    name of the journal before anything else: no number is set, no payment
    is saved and the world is as it was. *)
Theorem transition_pay_no_statement form active_id w :
  (∀ st, st ∈ statements (store w) →
         Statement.journal st = Form.journal form →
         Statement.state st ≠ StDraft) →
  transition_pay_ form active_id w =
  (Raise (UserError "not_draft_statement" [Form.journal_name form]), w).
Proof.
  intros Hnone.
  assert (draft_statements (store w) (Form.journal form) = []) as Hempty.
  { destruct (draft_statements (store w) (Form.journal form)) as [|st l] eqn:E;
      [done|].
    assert (st ∈ draft_statements (store w) (Form.journal form)) as Hst
      by (rewrite E; apply list_elem_of_here).
    apply elem_of_draft_statements in Hst as (Hin & Hj & Hdraft).
    by destruct (Hnone st Hin Hj). }
  unfold transition_pay_, record_payment. unfold bind at 1. unfold bind at 1.
  unfold gets. by rewrite Hempty.
Qed.

(** X7. When the party of the sale has no receivable account,
    [transition_pay_] raises the user error
    'party_without_account_receivable' with the name of the party. The
    number of the sale is set before the account is looked at: the only call
    made is that of [set_number], for a sale that had no number; no payment
    is saved and the workflow is not entered. *)
Theorem transition_pay_no_account form active_id w statement rest s w1 s1 p :
  draft_statements (store w) (Form.journal form) = statement :: rest →
  sales (store w) !! active_id = Some s →
  when (negb (truthy_string (Sale.number s)))
       (call (EvSetNumber [active_id]) (set_number [active_id])) w
    = (Ok (), w1) →
  sales (store w1) !! active_id = Some s1 →
  parties (store w1) !! Sale.party s1 = Some p →
  Party.account_receivable p = None →
  transition_pay_ form active_id w =
    (Raise (UserError "party_without_account_receivable" [Party.name p]), w1) ∧
  log w1 = log w ++ (if truthy_string (Sale.number s) then []
                     else [EvSetNumber [active_id]]) ∧
  (truthy_string (Sale.number s) = true → w1 = w).
Proof.
  intros Hst Hs Hnum Hs1 Hp Hacc. split; [|split].
  - unfold transition_pay_. unfold bind at 1.
    rewrite (record_payment_run form active_id w statement rest s w1 s1 p)
      by done.
    unfold receivable_id. by rewrite Hacc.
  - revert Hnum. destruct (truthy_string (Sale.number s)); cbn.
    + intros [= <-]. by rewrite app_nil_r.
    + unfold call. destruct (set_number [active_id] (store w)); [|done].
      by intros [= <-].
  - intros Htruthy. rewrite Htruthy in Hnum. cbn in Hnum. by injection Hnum.
Qed.

(** X8. When [transition_pay_] records a payment (a draft statement, a
    receivable account whose identifier is not 0, an amount that is not
    zero), it appends one
    statement line: on the first statement found, dated today, of the
    amount of the form, for the party and the receivable account of the
    sale, described by the number of the sale, linked to the sale, with no
    invoice and no move. Its identifier is new. The paid amount of the
    sale grows by the amount and that of every other sale is unchanged. *)
Theorem record_payment_saves form active_id w statement rest s w1 s1 p
    account amount :
  draft_statements (store w) (Form.journal form) = statement :: rest →
  sales (store w) !! active_id = Some s →
  when (negb (truthy_string (Sale.number s)))
       (call (EvSetNumber [active_id]) (set_number [active_id])) w
    = (Ok (), w1) →
  sales (store w1) !! active_id = Some s1 →
  parties (store w1) !! Sale.party s1 = Some p →
  Party.account_receivable p = Some account →
  account ≠ 0 →
  Form.payment_amount form = Some amount →
  amount ≠ 0 →
  let pay :=
    Payment.mk (next_payment_id (store w1)) (Statement.id statement) today
      amount (Some (Sale.party s1)) account (Sale.number s1) (Some active_id)
      None None in
  ∃ w2,
    record_payment form active_id w = (Ok (), w2) ∧
    payments (store w2) = payments (store w1) ++ [pay] ∧
    log w2 = log w1 ++ [EvStatementLineSave pay] ∧
    sales (store w2) = sales (store w1) ∧
    invoices (store w2) = invoices (store w1) ∧
    (Payment.id pay ∉ (Payment.id <$> payments (store w1))) ∧
    paid_amount (store w2) active_id =
      paid_amount (store w1) active_id + amount ∧
    ∀ other, other ≠ active_id →
      paid_amount (store w2) other = paid_amount (store w1) other.
Proof.
  intros Hst Hs Hnum Hs1 Hp Hacc Hid Hamount Hnz pay.
  eexists. split.
  { rewrite (record_payment_run form active_id w statement rest s w1 s1 p)
      by done.
    rewrite (receivable_id_some p account), Hamount by done. rewrite bool_decide_true by done. reflexivity. }
  cbn [store log]. fold pay.
  change (new_payment (store w1) statement s1 active_id account amount)
    with pay.
  repeat split.
  - apply next_payment_id_fresh.
  - rewrite paid_amount_snoc. by rewrite decide_True.
  - intros other Hother. rewrite paid_amount_snoc.
    rewrite decide_False; [lia|]. cbn. congruence.
Qed.

(** X9. For a party with a receivable account whose identifier is not 0,
    a form with no amount, or with the amount zero, records nothing:
    [record_payment] returns with the world the numbering left, and the
    paid amounts are what they were. *)
Theorem record_payment_nothing form active_id w statement rest s w1 s1 p
    account :
  draft_statements (store w) (Form.journal form) = statement :: rest →
  sales (store w) !! active_id = Some s →
  when (negb (truthy_string (Sale.number s)))
       (call (EvSetNumber [active_id]) (set_number [active_id])) w
    = (Ok (), w1) →
  sales (store w1) !! active_id = Some s1 →
  parties (store w1) !! Sale.party s1 = Some p →
  Party.account_receivable p = Some account →
  account ≠ 0 →
  Form.payment_amount form = None ∨ Form.payment_amount form = Some 0 →
  record_payment form active_id w = (Ok (), w1) ∧
  transition_pay_ form active_id w = next_state active_id w1.
Proof.
  intros Hst Hs Hnum Hs1 Hp Hacc Hid Hamount.
  assert (record_payment form active_id w = (Ok (), w1)) as Hrun.
  { rewrite (record_payment_run form active_id w statement rest s w1 s1 p)
      by done.
    rewrite (receivable_id_some p account) by done.
    by destruct Hamount as [-> | ->]. }
  split; [done|]. unfold transition_pay_, bind. by rewrite Hrun.
Qed.

(** X20. A receivable account whose identifier is 0 counts as none: the
    test [account_receivable and account_receivable.id] is false for it,
    and [transition_pay_] raises the user error
    'party_without_account_receivable' with the name of the party, whatever
    the amount of the form; no payment is saved and the workflow is not
    entered. *)
Theorem transition_pay_zero_account form active_id w statement rest s w1 s1 p :
  draft_statements (store w) (Form.journal form) = statement :: rest →
  sales (store w) !! active_id = Some s →
  when (negb (truthy_string (Sale.number s)))
       (call (EvSetNumber [active_id]) (set_number [active_id])) w
    = (Ok (), w1) →
  sales (store w1) !! active_id = Some s1 →
  parties (store w1) !! Sale.party s1 = Some p →
  Party.account_receivable p = Some 0 →
  record_payment form active_id w =
    (Raise (UserError "party_without_account_receivable" [Party.name p]), w1) ∧
  transition_pay_ form active_id w =
    (Raise (UserError "party_without_account_receivable" [Party.name p]), w1).
Proof.
  intros Hst Hs Hnum Hs1 Hp Hacc.
  assert (record_payment form active_id w =
          (Raise (UserError "party_without_account_receivable"
                    [Party.name p]), w1)) as Hrun.
  { rewrite (record_payment_run form active_id w statement rest s w1 s1 p)
      by done.
    unfold receivable_id. rewrite Hacc.
    by rewrite bool_decide_false by (intros Hne; by apply Hne). }
  split; [done|]. unfold transition_pay_. unfold bind at 1. by rewrite Hrun.
Qed.
End RecordPayment.

Lemma default_payment_amount_left σ s sid total :
  Sale.total_amount s = Some total →
  default_payment_amount σ s sid = Ok (Some (total - paid_amount σ sid)).
Proof.
  intros Htotal. unfold default_payment_amount. rewrite Htotal.
  case_bool_decide as Hpaid; [done|].
  try apply dec_stable in Hpaid. rewrite Hpaid. do 2 f_equal. lia.
Qed.

(** X10. The amount [default_start] proposes is what is left to pay: for a
    sale with a total, the total less the paid amount, whether or not
    something was paid. The device of the sale goes before that of the
    user: with a device on the sale, the journal and the journals are those
    of that device, whoever the user is. A sale without total gives no
    amount when nothing is paid, and [TypeError] when something is. *)
Theorem default_start_amount_left σ active_id user s d dev :
  sales σ !! active_id = Some s →
  resolve_device σ s user = Some d →
  devices σ !! d = Some dev →
  (∀ d', Sale.sale_device s = Some d' → d = d') ∧
  (∀ total, Sale.total_amount s = Some total →
     default_start σ active_id user =
     Ok (Defaults.mk (Device.journal dev) (Device.journals dev)
           (Some (total - paid_amount σ active_id))
           (Sale.currency_digits s) (Sale.party s))) ∧
  (Sale.total_amount s = None → paid_amount σ active_id = 0 →
     default_start σ active_id user =
     Ok (Defaults.mk (Device.journal dev) (Device.journals dev) None
           (Sale.currency_digits s) (Sale.party s))) ∧
  (Sale.total_amount s = None → paid_amount σ active_id ≠ 0 →
     default_start σ active_id user =
     Raise (TypeError "unsupported operand type(s) for -")).
Proof.
  intros Hs Hd Hdev. split; [|split; [|split]].
  - intros d' Hsale. unfold resolve_device in Hd. rewrite Hsale in Hd.
    congruence.
  - intros total Htotal. unfold default_start. rewrite Hs, Hd.
    rewrite (bool_decide_false (Some d = None)) by done.
    rewrite andb_false_r. rewrite Hdev.
    by rewrite (default_payment_amount_left σ s active_id total).
  - intros Htotal Hpaid. unfold default_start. rewrite Hs, Hd.
    rewrite (bool_decide_false (Some d = None)) by done.
    rewrite andb_false_r. rewrite Hdev.
    unfold default_payment_amount. rewrite bool_decide_false by lia.
    by rewrite Htotal.
  - intros Htotal Hpaid. unfold default_start. rewrite Hs, Hd.
    rewrite (bool_decide_false (Some d = None)) by done.
    rewrite andb_false_r. rewrite Hdev.
    unfold default_payment_amount. rewrite bool_decide_true by done.
    by rewrite Htotal.
Qed.

(** X11. A sale takes the device of the user who creates it
    ([default_sale_device]); the payment wizard then opens for every user,
    with the journals of that device, also for a user who has no device. *)
Theorem default_device_opens_wizard σ creator active_id user s d dev total :
  default_sale_device σ creator = Some d →
  sales σ !! active_id = Some s →
  Sale.sale_device s = default_sale_device σ creator →
  devices σ !! d = Some dev →
  Sale.total_amount s = Some total →
  d ≠ 0 ∧
  user_devices σ !! creator = Some d ∧
  ∃ defaults,
    default_start σ active_id user = Ok defaults ∧
    Defaults.journal defaults = Device.journal dev ∧
    Defaults.journals defaults = Device.journals dev ∧
    Defaults.payment_amount defaults = Some (total - paid_amount σ active_id).
Proof.
  intros Hdefault Hs Hsale Hdev Htotal.
  assert (d ≠ 0 ∧ user_devices σ !! creator = Some d) as [Hnz Huser].
  { unfold default_sale_device in Hdefault.
    destruct (user_devices σ !! creator) as [d'|]; [|done].
    case_bool_decide; [|done]. by simplify_eq. }
  split; [done|]. split; [done|].
  exists (Defaults.mk (Device.journal dev) (Device.journals dev)
            (Some (total - paid_amount σ active_id))
            (Sale.currency_digits s) (Sale.party s)).
  split; [|done].
  unfold default_start. rewrite Hs. unfold resolve_device.
  rewrite Hsale, Hdefault.
  rewrite (bool_decide_false (Some d = None)) by done.
  rewrite andb_false_r. rewrite Hdev.
  by rewrite (default_payment_amount_left σ s active_id total).
Qed.

Section PayDefault.
Context `{Collaborators}.

Lemma record_payment_numbered form active_id w s w2 :
  sales (store w) !! active_id = Some s →
  truthy_string (Sale.number s) = true →
  record_payment form active_id w = (Ok (), w2) →
  sales (store w2) = sales (store w) ∧
  paid_amount (store w2) active_id =
    paid_amount (store w) active_id + default 0 (Form.payment_amount form).
Proof.
  intros Hs Hnum. unfold record_payment.
  unfold bind at 1. unfold gets at 1.
  destruct (draft_statements (store w) (Form.journal form))
    as [|statement rest]; [done|].
  unfold bind at 1. unfold read_sale at 1, lift at 1. rewrite Hs.
  unfold bind at 1. rewrite Hnum. cbn [negb when ret].
  unfold bind at 1. unfold read_sale at 1, lift at 1. rewrite Hs.
  unfold bind at 1. unfold read_party at 1, lift at 1.
  destruct (parties (store w) !! Sale.party s) as [p|]; [|done].
  destruct (receivable_id p) as [account|]; [|done].
  destruct (Form.payment_amount form) as [amount|].
  - cbn [truthy_amount default]. case_bool_decide as Hnz.
    + cbn. intros [= <-]. cbn [store]. split; [done|].
      rewrite paid_amount_snoc. by rewrite decide_True.
    + cbn. intros [= <-]. split; [done|]. try apply dec_stable in Hnz. lia.
  - cbn. intros [= <-]. split; [done|]. lia.
Qed.

Lemma next_state_settled active_id w s :
  sales (store w) !! active_id = Some s →
  Sale.total_amount s = Some (paid_amount (store w) active_id) →
  (next_state active_id w).1 ≠ Ok StateStart.
Proof.
  intros Hs Htotal. unfold next_state.
  unfold bind at 1. unfold read_sale at 1, lift at 1. rewrite Hs.
  unfold bind at 1. unfold gets at 1.
  rewrite bool_decide_false by (by intros []).
  case_bool_decide; [done|].
  unfold bind at 1. unfold write at 1.
  unfold bind at 1.
  destruct (workflow_to_end [active_id] _) as [[[]|e] w3]; done.
Qed.

(** X12. Paying the amount [default_start] proposes settles the sale: for
    a numbered sale with a total, [transition_pay_] with that amount does
    not come back to 'start'; it ends or it raises. *)
Theorem pay_default_amount_ends σ form active_id user s total defaults w :
  store w = σ →
  sales σ !! active_id = Some s →
  truthy_string (Sale.number s) = true →
  Sale.total_amount s = Some total →
  default_start σ active_id user = Ok defaults →
  Form.payment_amount form = Defaults.payment_amount defaults →
  (transition_pay_ form active_id w).1 ≠ Ok StateStart.
Proof.
  intros <- Hs Hnum Htotal Hdefault Hform.
  assert (Form.payment_amount form =
          Some (total - paid_amount (store w) active_id)) as Hamount.
  { rewrite Hform. revert Hdefault. unfold default_start. rewrite Hs.
    destruct (_ && _); [done|].
    destruct (resolve_device (store w) s user) as [d|]; [|done].
    destruct (devices (store w) !! d) as [dev|]; [|done].
    rewrite (default_payment_amount_left (store w) s active_id total) by done.
    cbn. by intros [= <-]. }
  unfold transition_pay_. unfold bind at 1.
  destruct (record_payment form active_id w) as [[[]|e] w2] eqn:Hrec;
    [|done].
  destruct (record_payment_numbered form active_id w s w2 Hs Hnum Hrec)
    as [Hsales Hpaid].
  apply (next_state_settled active_id w2 s).
  - by rewrite Hsales.
  - rewrite Htotal, Hpaid, Hamount. cbn. f_equal. lia.
Qed.
End PayDefault.

Ltac solve_sublist :=
  cbn; repeat first [apply sublist_nil | apply sublist_skip | apply sublist_cons].

Section WorkflowShape.
Context `{Collaborators}.

Lemma when_call_log (b : bool) ev f w :
  log (when b (call ev f) w).2 = log w ++ (if b then [ev] else []).
Proof.
  destruct b; cbn.
  - unfold call. by destruct (f (store w)).
  - by rewrite app_nil_r.
Qed.

(** X13. The head of the first loop calls [quote], [confirm] and
    [process] in that order, each at most once and on the one sale, and
    nothing else. A sale that is neither a draft, a quotation nor
    confirmed gets no call and the world is as it was. *)
Theorem advance_calls_in_order sid w :
  (∃ evs, log (advance sid w).2 = log w ++ evs ∧
          evs `sublist_of` [EvQuote [sid]; EvConfirm [sid]; EvProcess [sid]]) ∧
  (∀ s, sales (store w) !! sid = Some s →
        Sale.state s ∉ [SaleDraft; SaleQuotation; SaleConfirmed] →
        advance sid w = (Ok (), w)).
Proof.
  split.
  - unfold advance.
    unfold bind at 1. unfold read_sale at 1, lift at 1.
    destruct (sales (store w) !! sid) as [s|];
      [|exists []; split; [by rewrite app_nil_r|solve_sublist]].
    unfold bind at 1.
    pose proof (when_call_log (bool_decide (Sale.state s = SaleDraft))
                  (EvQuote [sid]) (quote [sid]) w) as H1.
    destruct (when _ _ w) as [[[]|e1] w1]; cbn [snd] in H1;
      [|eexists; split; [exact H1|case_bool_decide; solve_sublist]].
    unfold bind at 1. unfold read_sale at 1, lift at 1.
    destruct (sales (store w1) !! sid) as [s1|];
      [|eexists; split; [exact H1|case_bool_decide; solve_sublist]].
    unfold bind at 1.
    pose proof (when_call_log (bool_decide (Sale.state s1 = SaleQuotation))
                  (EvConfirm [sid]) (confirm [sid]) w1) as H2.
    destruct (when _ _ w1) as [[[]|e2] w2]; cbn [snd] in H2;
      rewrite H1, <- app_assoc in H2;
      [|eexists; split; [exact H2|repeat case_bool_decide; solve_sublist]].
    unfold bind at 1. unfold read_sale at 1, lift at 1.
    destruct (sales (store w2) !! sid) as [s2|];
      [|eexists; split; [exact H2|repeat case_bool_decide; solve_sublist]].
    pose proof (when_call_log (bool_decide (Sale.state s2 = SaleConfirmed))
                  (EvProcess [sid]) (process [sid]) w2) as H3.
    rewrite H2, <- !app_assoc in H3.
    eexists; split; [exact H3|repeat case_bool_decide; solve_sublist].
  - intros s Hs Hstate.
    assert (Sale.state s ≠ SaleDraft ∧ Sale.state s ≠ SaleQuotation ∧
            Sale.state s ≠ SaleConfirmed) as (Hd & Hq & Hc).
    { repeat split; intros Heq; apply Hstate; rewrite Heq; set_solver. }
    unfold advance, bind, read_sale, lift. rewrite Hs.
    rewrite !bool_decide_false by done. cbn. rewrite Hs.
    rewrite !bool_decide_false by done. cbn. rewrite Hs.
    by rewrite !bool_decide_false by done.
Qed.

(** X14. What the first loop stages for a draft invoice, once written,
    fills the dates that are missing with today and keeps a date the
    invoice has; the description becomes the reference of the sale; the
    state, the party and the lines to pay are not touched. An invoice that
    is not a draft stages nothing and is not posted. *)
Theorem staged_write_keeps_dates reference loc iid inv :
  (Invoice.state inv = InvDraft →
   ∃ values,
     staged_invoices (stage_invoice reference loc (iid, inv)) =
       staged_invoices loc ++ [(iid, values)] ∧
     iid ∈ to_post (stage_invoice reference loc (iid, inv)) ∧
     apply_invoice_values values inv =
       Invoice.mk InvDraft
         (Some (default today (Invoice.invoice_date inv)))
         (Some (default today (Invoice.accounting_date inv)))
         (Some reference) (Invoice.party inv) (Invoice.lines_to_pay inv)) ∧
  (Invoice.state inv ≠ InvDraft →
   staged_invoices (stage_invoice reference loc (iid, inv)) =
     staged_invoices loc ∧
   to_post (stage_invoice reference loc (iid, inv)) = to_post loc) ∧
  invoice_var (stage_invoice reference loc (iid, inv)) = Some iid.
Proof.
  split; [|split].
  - intros Hdraft. unfold stage_invoice.
    rewrite bool_decide_false by (by intros []).
    eexists. split; [reflexivity|]. split.
    + cbn. unfold set_add. case_bool_decide; [done|].
      apply elem_of_app. right. apply list_elem_of_here.
    + unfold apply_invoice_values. cbn. rewrite Hdraft.
      by destruct (Invoice.invoice_date inv), (Invoice.accounting_date inv).
  - intros Hstate. unfold stage_invoice. by rewrite bool_decide_true.
  - unfold stage_invoice. by case_bool_decide.
Qed.

Lemma stage_invoice_consistent reference loc i :
  NoDup (to_post loc) ∧
  (∀ j, j ∈ to_post loc ↔ j ∈ (staged_invoices loc).*1) ∧
  (staged_invoices loc ≠ [] → invoice_var loc ≠ None) →
  NoDup (to_post (stage_invoice reference loc i)) ∧
  (∀ j, j ∈ to_post (stage_invoice reference loc i) ↔
        j ∈ (staged_invoices (stage_invoice reference loc i)).*1) ∧
  (staged_invoices (stage_invoice reference loc i) ≠ [] →
   invoice_var (stage_invoice reference loc i) ≠ None).
Proof.
  intros (Hnd & Hsame & Hvar). destruct i as [iid inv].
  unfold stage_invoice. case_bool_decide as Hstate; cbn.
  - done.
  - split; [|split]; [| |done].
    + unfold set_add. case_bool_decide as Hin; [done|].
      apply NoDup_app. split; [done|]. split.
      * intros j Hj Hj'. apply list_elem_of_singleton in Hj'. by subst.
      * apply NoDup_singleton.
    + intros j. rewrite fmap_app, elem_of_app. cbn.
      rewrite <- Hsame. unfold set_add. case_bool_decide as Hin.
      * rewrite list_elem_of_singleton. split; [by left|].
        intros [Hj|Hj]; [done|by subst].
      * by rewrite elem_of_app.
Qed.

Lemma foldl_stage_consistent reference invs loc :
  NoDup (to_post loc) ∧
  (∀ j, j ∈ to_post loc ↔ j ∈ (staged_invoices loc).*1) ∧
  (staged_invoices loc ≠ [] → invoice_var loc ≠ None) →
  let loc' := foldl (stage_invoice reference) loc invs in
  NoDup (to_post loc') ∧
  (∀ j, j ∈ to_post loc' ↔ j ∈ (staged_invoices loc').*1) ∧
  (staged_invoices loc' ≠ [] → invoice_var loc' ≠ None).
Proof.
  revert loc. induction invs as [|i invs IH]; intros loc Hloc; [done|].
  cbn [foldl]. apply IH. by apply stage_invoice_consistent.
Qed.

Lemma prepare_sale_consistent loc sid w loc' w' :
  prepare_sale loc sid w = (Ok loc', w') →
  NoDup (to_post loc) ∧
  (∀ j, j ∈ to_post loc ↔ j ∈ (staged_invoices loc).*1) ∧
  (staged_invoices loc ≠ [] → invoice_var loc ≠ None) →
  NoDup (to_post loc') ∧
  (∀ j, j ∈ to_post loc' ↔ j ∈ (staged_invoices loc').*1) ∧
  (staged_invoices loc' ≠ [] → invoice_var loc' ≠ None).
Proof.
  unfold prepare_sale. unfold bind at 1.
  destruct (advance sid w) as [[[]|e] w1]; [|done].
  unfold bind at 1. unfold read_sale at 1, lift at 1.
  destruct (sales (store w1) !! sid) as [s|]; [|done].
  unfold bind at 1. unfold gets at 1.
  destruct (_ && _); [done|].
  unfold bind at 1. unfold read_party at 1, lift at 1.
  destruct (parties (store w1) !! Sale.party s) as [p|]; [|done].
  destruct (_ && _); cbn; intros [= <- <-] Hloc.
  - by apply foldl_stage_consistent.
  - done.
Qed.

Lemma for_each_prepare_consistent sale_ids loc w loc' w' :
  for_each prepare_sale sale_ids loc w = (Ok loc', w') →
  NoDup (to_post loc) ∧
  (∀ j, j ∈ to_post loc ↔ j ∈ (staged_invoices loc).*1) ∧
  (staged_invoices loc ≠ [] → invoice_var loc ≠ None) →
  NoDup (to_post loc') ∧
  (∀ j, j ∈ to_post loc' ↔ j ∈ (staged_invoices loc').*1) ∧
  (staged_invoices loc' ≠ [] → invoice_var loc' ≠ None).
Proof.
  revert loc w. induction sale_ids as [|sid sale_ids IH]; intros loc w.
  - cbn. by intros [= <- <-].
  - cbn [for_each]. unfold bind at 1.
    destruct (prepare_sale loc sid w) as [[loc1|e] w1] eqn:Hprep; [|done].
    intros Hrest Hloc. apply (IH loc1 w1 Hrest).
    by apply (prepare_sale_consistent loc sid w loc1 w1).
Qed.

Lemma attribute_fold_ids σ invoice (s : Sale.t) (pays : list Payment.t)
    to_write to_write' :
  res_fold (attribute_payment σ invoice s) pays to_write = Ok to_write' →
  to_write'.*1 = to_write.*1 ++
    match posted_invoices σ s with
    | [] => []
    | _ :: _ => Payment.id <$> pays
    end.
Proof.
  revert to_write. induction pays as [|pay pays IH]; intros to_write.
  - cbn. intros [= <-]. destruct (posted_invoices σ s); by rewrite app_nil_r.
  - cbn [res_fold]. unfold attribute_payment at 1.
    destruct (posted_invoices σ s) as [|first rest] eqn:Hposted.
    + cbn [res_bind]. intros Hrest. by apply IH in Hrest.
    + destruct invoice as [iid|]; [|done].
      destruct (invoices σ !! iid) as [inv|]; [|done].
      cbn [res_bind]. intros Hrest. apply IH in Hrest.
      rewrite Hrest. rewrite fmap_app, <- app_assoc. done.
Qed.

Lemma settle_fold σ invoice sale_ids acc acc' :
  res_fold (settle_sale σ invoice) sale_ids acc = Ok acc' →
  acc'.1.*1 = acc.1.*1 ++ attributable σ sale_ids ∧
  acc'.2 = acc.2 ++ filter (λ sid, is_done σ sid) sale_ids.
Proof.
  revert acc. induction sale_ids as [|sid sale_ids IH]; intros acc.
  - cbn. intros [= <-]. by rewrite !app_nil_r.
  - cbn [res_fold]. unfold settle_sale at 1.
    destruct (sales σ !! sid) as [s|] eqn:Hs; [|done].
    destruct (res_fold (attribute_payment σ invoice s) (payments_of σ sid)
                acc.1) as [to_write|e] eqn:Hfold; [|done].
    cbn [res_bind]. intros Hrest. apply IH in Hrest as [Hw Hd].
    cbn [fst snd] in Hw, Hd. apply attribute_fold_ids in Hfold.
    split.
    + rewrite Hw, Hfold. unfold attributable. cbn [mbind list_bind].
      fold (attributable σ sale_ids). rewrite Hs.
      rewrite <- app_assoc. done.
    + rewrite Hd. destruct (is_done σ sid) eqn:Hdone.
      * rewrite filter_cons_True by (by apply Is_true_true_2).
        by rewrite <- app_assoc.
      * rewrite filter_cons_False by (by apply Is_true_false_2). done.
Qed.

(** X15. The second loop of [workflow_to_end], when it returns: the
    statement lines staged for writing are, sale after sale, the payments
    of the sales that have a posted invoice, and the sales passed to [do]
    are those of the list that [is_done] accepts, in the order of the
    list. *)
Theorem settle_stages σ invoice sale_ids acc :
  res_fold (settle_sale σ invoice) sale_ids ([], []) = Ok acc →
  acc.1.*1 = attributable σ sale_ids ∧
  acc.2 = filter (λ sid, is_done σ sid) sale_ids.
Proof. intros Hrun. by apply settle_fold in Hrun. Qed.

Lemma settle_unbound σ sale_ids acc :
  (∀ sid, sid ∈ sale_ids → is_Some (sales σ !! sid)) →
  attributable σ sale_ids ≠ [] →
  res_fold (settle_sale σ None) sale_ids acc =
  Raise (UnboundLocalError "invoice").
Proof.
  revert acc. induction sale_ids as [|sid sale_ids IH]; intros acc Hall Hsome.
  - done.
  - cbn [res_fold]. unfold settle_sale at 1.
    destruct (Hall sid) as [s Hs]; [apply list_elem_of_here|]. rewrite Hs.
    unfold attributable in Hsome. cbn [mbind list_bind] in Hsome.
    fold (attributable σ sale_ids) in Hsome. rewrite Hs in Hsome.
    destruct (posted_invoices σ s) as [|first rest] eqn:Hposted.
    + rewrite attribute_none by done. cbn [res_bind].
      apply IH; [|done]. intros sid' Hin. apply Hall. by apply list_elem_of_further.
    + destruct (payments_of σ sid) as [|pay pays] eqn:Hpays.
      * cbn [res_fold res_bind]. apply IH; [|done].
        intros sid' Hin. apply Hall. by apply list_elem_of_further.
      * cbn [res_fold]. unfold attribute_payment at 1. rewrite Hposted. done.
Qed.

(** X16. When the first loop leaves the variable [invoice] unbound (no
    sale went through the loop over its invoices: each has no invoice or a
    party with a grouping method) and a sale of the list has a posted
    invoice and a payment, [workflow_to_end] raises [UnboundLocalError]:
    nothing is written to the statement lines and [do] is not called. *)
Theorem workflow_unbound_invoice sale_ids w loc w1 :
  for_each prepare_sale sale_ids no_locals
    (mkWorld (store w) (log w ++ [EvWorkflowToEnd sale_ids])) = (Ok loc, w1) →
  invoice_var loc = None →
  (∀ sid, sid ∈ sale_ids → is_Some (sales (store w1) !! sid)) →
  attributable (store w1) sale_ids ≠ [] →
  workflow_to_end sale_ids w = (Raise (UnboundLocalError "invoice"), w1).
Proof.
  intros Hprep Hvar Hall Hsome.
  assert (to_post loc = []) as Hpost.
  { destruct (for_each_prepare_consistent sale_ids no_locals _ loc w1 Hprep)
      as (_ & Hsame & Hbound).
    { split; [apply NoDup_nil_2|]. split; [done|done]. }
    destruct (staged_invoices loc) as [|x l] eqn:Hstaged.
    - destruct (to_post loc) as [|i l'] eqn:Hp; [done|].
      exfalso. apply (elem_of_nil i). apply (Hsame i).
      apply list_elem_of_here.
    - exfalso. by apply Hbound. }
  unfold workflow_to_end. unfold bind at 1. cbn [emit].
  unfold emit. unfold bind at 1. rewrite Hprep.
  unfold bind at 1. rewrite Hpost. cbn [when ret].
  rewrite bool_decide_false by (by intros []). cbn [when ret].
  unfold bind at 1. unfold lift at 1. rewrite Hvar.
  by rewrite settle_unbound.
Qed.

Lemma posting_step loc w1 w2 :
  when (bool_decide (to_post loc ≠ []))
       (invoice_write (staged_invoices loc) ;;;
        call (EvInvoicePost (to_post loc)) (post (to_post loc))) w1
    = (Ok (), w2) →
  (if bool_decide (to_post loc ≠ [])
   then post (to_post loc)
             (store (invoice_write (staged_invoices loc) w1).2)
        = Ok (store w2)
   else store w2 = store w1) ∧
  log w2 = log w1 ++
    (if bool_decide (to_post loc ≠ [])
     then [EvInvoiceWrite (staged_invoices loc); EvInvoicePost (to_post loc)]
     else []).
Proof.
  destruct (bool_decide (to_post loc ≠ [])); cbn [when].
  - unfold bind, invoice_write, write, call. cbn [store log snd].
    destruct (post _ _) as [σ|e]; [|done].
    intros [= <-]. cbn [store log]. split; [done|]. by rewrite <- app_assoc.
  - intros [= <-]. split; [done|]. by rewrite app_nil_r.
Qed.

Lemma closing_step (acc : list (Z * PaymentValues) * list Z) w2 w' :
  (when (bool_decide (acc.1 ≠ [])) (statement_line_write acc.1) ;;;
   when (bool_decide (acc.2 ≠ [])) (call (EvDo acc.2) (do_ acc.2))) w2
    = (Ok (), w') →
  (let written :=
     if bool_decide (acc.1 ≠ [])
     then store (statement_line_write acc.1 w2).2 else store w2 in
   if bool_decide (acc.2 ≠ []) then do_ acc.2 written = Ok (store w')
   else store w' = written) ∧
  log w' = log w2 ++
    (if bool_decide (acc.1 ≠ []) then [EvStatementLineWrite acc.1] else [])
    ++ (if bool_decide (acc.2 ≠ []) then [EvDo acc.2] else []).
Proof.
  unfold bind.
  destruct (bool_decide (acc.1 ≠ [])); cbn [when];
    unfold statement_line_write, write, ret; cbn [store log snd];
    destruct (bool_decide (acc.2 ≠ [])); cbn [when];
    unfold call, ret; cbn [store log];
    try (destruct (do_ _ _) as [σ|e]; [|done]);
    intros [= <-]; cbn [store log]; (split; [done|]);
    rewrite ?app_nil_r, <- ?app_assoc; done.
Qed.

(** X17. A run of [workflow_to_end] that returns, step by step. The
    first loop makes the transition calls and leaves the world [w1]. Then,
    only when an invoice was staged, the staged values are written and
    [Invoice.post] is called on a list without duplicates that holds
    exactly the invoices the write is for; [w2] is the world after it. The
    second loop reads the store of [w2], the one after the posting: it
    stages the payments of the sales that have a posted invoice there, and
    keeps for [do] the sales [is_done] accepts there. Then, only when a
    payment was staged, one [StatementLine.write]; then, only when a sale
    is done, one [do], which gives the final store. No call is made on an
    empty list, and the log holds these calls in this order and no
    other. *)
Theorem workflow_to_end_order sale_ids w w' :
  workflow_to_end sale_ids w = (Ok (), w') →
  ∃ transitions loc w1 w2 acc,
    for_each prepare_sale sale_ids no_locals
      (mkWorld (store w) (log w ++ [EvWorkflowToEnd sale_ids]))
      = (Ok loc, w1) ∧
    log w1 = log w ++ [EvWorkflowToEnd sale_ids] ++ transitions ∧
    Forall transition_event transitions ∧
    NoDup (to_post loc) ∧
    (∀ i, i ∈ to_post loc ↔ i ∈ (staged_invoices loc).*1) ∧
    (if bool_decide (to_post loc ≠ [])
     then post (to_post loc)
               (store (invoice_write (staged_invoices loc) w1).2)
          = Ok (store w2)
     else store w2 = store w1) ∧
    res_fold (settle_sale (store w2) (invoice_var loc)) sale_ids ([], [])
      = Ok acc ∧
    acc.1.*1 = attributable (store w2) sale_ids ∧
    acc.2 = filter (λ sid, is_done (store w2) sid) sale_ids ∧
    (let written :=
       if bool_decide (acc.1 ≠ [])
       then store (statement_line_write acc.1 w2).2 else store w2 in
     if bool_decide (acc.2 ≠ []) then do_ acc.2 written = Ok (store w')
     else store w' = written) ∧
    log w' = log w ++ [EvWorkflowToEnd sale_ids] ++ transitions
      ++ (if bool_decide (to_post loc ≠ [])
          then [EvInvoiceWrite (staged_invoices loc);
                EvInvoicePost (to_post loc)]
          else [])
      ++ (if bool_decide (acc.1 ≠ []) then [EvStatementLineWrite acc.1]
          else [])
      ++ (if bool_decide (acc.2 ≠ []) then [EvDo acc.2] else []).
Proof.
  unfold workflow_to_end. unfold bind at 1. unfold emit at 1.
  unfold bind at 1.
  destruct (for_each prepare_sale sale_ids no_locals _)
    as [[loc|e] w1] eqn:Hprep; [|done].
  destruct (emits_for_each transition_event prepare_sale sale_ids no_locals
              (λ loc sid _, emits_prepare_sale loc sid) _ _ _ Hprep)
    as (transitions & Hlog1 & Htrans).
  cbn [log] in Hlog1.
  destruct (for_each_prepare_consistent sale_ids no_locals _ loc w1 Hprep)
    as (Hnd & Hsame & _).
  { split; [apply NoDup_nil_2|]. split; done. }
  unfold bind at 1.
  destruct (when (bool_decide (to_post loc ≠ [])) _ w1) as [[[]|e] w2]
    eqn:Hposting; [|done].
  apply posting_step in Hposting as [Hpost Hlog2].
  unfold bind at 1. unfold lift at 1.
  destruct (res_fold (settle_sale (store w2) (invoice_var loc)) sale_ids
              ([], [])) as [acc|e] eqn:Hsettle; [|done].
  pose proof (settle_fold _ _ _ _ _ Hsettle) as [Hwrite Hdo].
  cbn in Hwrite, Hdo.
  intros Hclosing. apply closing_step in Hclosing as [Hfinal Hlog3].
  exists transitions, loc, w1, w2, acc.
  split_and!; try done.
  - by rewrite Hlog1, <- app_assoc.
  - rewrite Hlog3, Hlog2, Hlog1. by rewrite <- !app_assoc.
Qed.
End WorkflowShape.

Ltac no_call :=
  exists []; split; [by rewrite app_nil_r|split; [constructor|cbn; lia]].

Section ReconcileCalls.
Context `{Collaborators}.

Lemma reconcile_sale_log sid w :
  ∃ evs, log (reconcile_sale sid w).2 = log w ++ evs ∧
         Forall (λ ev, ∃ lines, lines ≠ [] ∧ ev = EvReconcile lines) evs ∧
         (length evs ≤ 1)%nat.
Proof.
  unfold reconcile_sale.
  unfold bind at 1. unfold read_sale at 1, lift at 1.
  destruct (sales (store w) !! sid) as [s|];
    [|no_call].
  unfold bind at 1. unfold read_party at 1, lift at 1.
  destruct (parties (store w) !! Sale.party s) as [p|];
    [|no_call].
  unfold bind at 1. unfold lift at 1.
  destruct (collect_payment_lines _ _ _ _) as [acc|e];
    [|no_call].
  case_bool_decide as Hne; cbn [andb when].
  - destruct (bool_decide (acc.2 = 0)); cbn [when].
    + exists [EvReconcile acc.1]. split; [|split].
      * unfold call. by destruct (reconcile _ _).
      * apply Forall_singleton. by exists acc.1.
      * done.
    + no_call.
  - no_call.
Qed.

(** X18. [transition_start] of the reconciliation wizard calls nothing
    but [Line.reconcile], never on an empty list and at most once for each
    sale of the context, and it never leads back to 'start': it ends or
    it raises. *)
Theorem transition_start_calls active_ids w :
  (transition_start active_ids w).1 ≠ Ok StateStart ∧
  ∃ evs, log (transition_start active_ids w).2 = log w ++ evs ∧
         Forall (λ ev, ∃ lines, lines ≠ [] ∧ ev = EvReconcile lines) evs ∧
         (length evs ≤ length active_ids)%nat.
Proof.
  assert (∃ evs,
    log (for_each (λ _ sid, reconcile_sale sid) active_ids () w).2
      = log w ++ evs ∧
    Forall (λ ev, ∃ lines, lines ≠ [] ∧ ev = EvReconcile lines) evs ∧
    (length evs ≤ length active_ids)%nat) as Hloop.
  { revert w. induction active_ids as [|sid active_ids IH]; intros w.
    - no_call.
    - cbn [for_each]. unfold bind.
      destruct (reconcile_sale_log sid w) as (evs1 & Hlog1 & Hall1 & Hlen1).
      destruct (reconcile_sale sid w) as [[[]|e] w1]; cbn [snd] in Hlog1.
      + destruct (IH w1) as (evs2 & Hlog2 & Hall2 & Hlen2).
        exists (evs1 ++ evs2). split; [|split].
        * by rewrite Hlog2, Hlog1, app_assoc.
        * by apply Forall_app.
        * rewrite length_app. cbn. lia.
      + exists evs1. split; [done|]. split; [done|]. cbn. lia. }
  unfold transition_start, bind.
  destruct (for_each _ active_ids () w) as [[[]|e] w1]; done.
Qed.
End ReconcileCalls.

(** X19. [Sale.copy] passes to the base class a dictionary in which
    'payments' is [None], whatever the caller gave for it, and every other
    key as the caller gave it; a dictionary given by the caller is left
    changed in the same way, and a second copy with it passes the same
    defaults. *)
Theorem copy_drops_payments {V R}
    (super_copy : list Z → gmap string (option V) → R) sales default :
  ∃ passed,
    (copy super_copy sales default).1 = super_copy sales passed ∧
    passed !! "payments" = Some None ∧
    (∀ key, key ≠ "payments" →
       passed !! key = (default ≫= λ d, d !! key)) ∧
    ((copy super_copy sales default).2 = (λ _, passed) <$> default) ∧
    (copy super_copy sales (Some passed)).1 = super_copy sales passed.
Proof.
  exists (copy_default default). split; [done|]. split; [|split; [|split]].
  - unfold copy_default. apply lookup_insert_eq.
  - intros key Hkey. unfold copy_default.
    rewrite lookup_insert_ne by done. by destruct default.
  - done.
  - cbn. f_equal. unfold copy_default. apply insert_insert_eq.
Qed.

(** ** The further properties on the example store *)

Lemma get_residual_amount_unset_total_witness :
  get_residual_amount Cases.unpriced [2; 8] ["residual_amount"] =
  Raise (TypeError "unsupported operand type(s) for -").
Proof.
  apply (get_residual_amount_unset_total Cases.unpriced [2; 8]
           ["residual_amount"]).
  - intros sid Hin. apply elem_of_cons in Hin as [->|Hin].
    + exists Example.sale2. by_compute.
    + apply list_elem_of_singleton in Hin as ->.
      exists Cases.sale8. by_compute.
  - exists 8, Cases.sale8. split; [decide_compute|]. split; by_compute.
  - discriminate.
Defined.

Lemma origin_id_reference_witness :
  origin_id ("sale.line" +:+ "," +:+ pretty 21) = Ok 21 ∧
  origin_id ("sale.line" +:+ "," +:+ pretty 2147483648) =
    Raise (DataError "value is out of range for type integer").
Proof.
  split.
  - apply (origin_id_reference "sale.line" 21); [decide_compute|lia].
  - apply (origin_id_reference "sale.line" 2147483648); [decide_compute|lia].
Defined.

Section OnTheShopAgain.
#[local] Existing Instance Demo.collaborators.
Import Example.

Lemma search_residual_amount_positive_witness :
  ∃ result r,
    get_residual_amount shop [2] ["residual_amount"] = Ok result ∧
    entry result "residual_amount" 2 = Some r ∧ 0 < r.
Proof.
  destruct (search_residual_amount_positive "residual_amount"
              ("residual_amount", ">", 0) shop [2]) as [_ Hpos].
  - by_compute.
  - apply (Hpos 2 sale2).
    + decide_compute.
    + by_compute.
    + by_compute.
Defined.

Lemma draft_statements_newest_witness :
  Statement.date (Statement.mk 1 3 StDraft 5) ≤
  Statement.date (Statement.mk 2 3 StDraft 9).
Proof.
  destruct (draft_statements_newest shop 3) as [_ Hfirst].
  destruct (Hfirst (Statement.mk 2 3 StDraft 9) [Statement.mk 1 3 StDraft 5])
    as (_ & _ & _ & Hmax).
  - by_compute.
  - apply Hmax.
    + apply list_elem_of_here.
    + by_compute.
    + by_compute.
Defined.

Lemma transition_pay_no_statement_witness :
  transition_pay_ Cases.bank 1 (mkWorld shop []) =
  (Raise (UserError "not_draft_statement" ["Bank"]), mkWorld shop []).
Proof.
  apply (transition_pay_no_statement Cases.bank 1 (mkWorld shop [])).
  intros st Hin Hjournal. exfalso. revert Hin Hjournal.
  cbn [store statements shop]. intros Hin.
  apply elem_of_cons in Hin as [->|Hin]; [discriminate|].
  apply list_elem_of_singleton in Hin as ->. discriminate.
Defined.

Lemma transition_pay_no_account_witness :
  transition_pay_ cash 4 (mkWorld shop []) =
  (Raise (UserError "party_without_account_receivable" ["Carol"]),
   mkWorld shop []).
Proof.
  apply (transition_pay_no_account cash 4 (mkWorld shop [])
           (Statement.mk 2 3 StDraft 9) [Statement.mk 1 3 StDraft 5]
           sale4 (mkWorld shop []) sale4 carol); by_compute.
Defined.

Lemma record_payment_saves_witness :
  ∃ w2, record_payment cash 1 (mkWorld shop []) = (Ok (), w2) ∧
        paid_amount (store w2) 1 = 100.
Proof.
  destruct (record_payment_saves cash 1 (mkWorld shop [])
              (Statement.mk 2 3 StDraft 9) [Statement.mk 1 3 StDraft 5]
              sale1
              (call (EvSetNumber [1]) (set_number [1]) (mkWorld shop [])).2
              (Demo.sale_with_number sale1) alice 7 100)
    as (w2 & Hrun & _ & _ & _ & _ & _ & Hpaid & _).
  - by_compute.
  - by_compute.
  - by_compute.
  - by_compute.
  - by_compute.
  - by_compute.
  - discriminate.
  - by_compute.
  - discriminate.
  - exists w2. split; [exact Hrun|]. rewrite Hpaid. by_compute.
Defined.

Lemma record_payment_nothing_witness :
  record_payment Cases.nothing 2 (mkWorld shop []) = (Ok (), mkWorld shop []).
Proof.
  apply (record_payment_nothing Cases.nothing 2 (mkWorld shop [])
           (Statement.mk 2 3 StDraft 9) [Statement.mk 1 3 StDraft 5]
           sale2 (mkWorld shop []) sale2 bob 7).
  - by_compute.
  - by_compute.
  - by_compute.
  - by_compute.
  - by_compute.
  - by_compute.
  - discriminate.
  - by left.
Defined.

Lemma default_start_amount_left_witness :
  default_start shop 2 5 =
  Ok (Defaults.mk (Some 3) [3; 4] (Some (50 - paid_amount shop 2)) 2 20).
Proof.
  apply (default_start_amount_left shop 2 5 sale2 1
           (Device.mk (Some 3) [3; 4])).
  - by_compute.
  - by_compute.
  - by_compute.
  - by_compute.
Defined.

Lemma default_device_opens_wizard_witness :
  ∃ defaults,
    default_start shop 1 99 = Ok defaults ∧
    Defaults.journal defaults = Some 3 ∧
    Defaults.journals defaults = [3; 4] ∧
    Defaults.payment_amount defaults = Some (100 - paid_amount shop 1).
Proof.
  apply (default_device_opens_wizard shop 5 1 99 sale1 1
           (Device.mk (Some 3) [3; 4]) 100); by_compute.
Defined.

Lemma pay_default_amount_ends_witness :
  (transition_pay_ Cases.cash30 2 (mkWorld shop [])).1 ≠ Ok StateStart.
Proof.
  apply (pay_default_amount_ends shop Cases.cash30 2 5 sale2 50
           (Defaults.mk (Some 3) [3; 4] (Some 30) 2 20) (mkWorld shop []));
    by_compute.
Defined.

Lemma advance_calls_in_order_witness :
  advance 4 (mkWorld shop []) = (Ok (), mkWorld shop []).
Proof.
  apply (proj2 (advance_calls_in_order 4 (mkWorld shop [])) sale4).
  - by_compute.
  - decide_compute.
Defined.

Lemma staged_write_keeps_dates_witness :
  ∃ values,
    staged_invoices (stage_invoice "S1" no_locals (9, Cases.draft_invoice)) =
      [] ++ [(9, values)] ∧
    9 ∈ to_post (stage_invoice "S1" no_locals (9, Cases.draft_invoice)) ∧
    apply_invoice_values values Cases.draft_invoice =
      Invoice.mk InvDraft (Some 3) (Some today) (Some "S1") 10 [].
Proof.
  apply (proj1 (staged_write_keeps_dates "S1" no_locals 9
                  Cases.draft_invoice)).
  reflexivity.
Defined.

Lemma settle_stages_witness :
  [2; 6] = attributable shop [2; 6] ∧
  [2; 6] = filter (λ sid, is_done shop sid) [2; 6].
Proof.
  apply (settle_stages shop (Some 2) [2; 6]
           ([(2, mkPaymentValues 2 None); (6, mkPaymentValues 6 (Some 20))],
            [2; 6])).
  by_compute.
Defined.

Lemma workflow_unbound_invoice_witness :
  workflow_to_end [6] (mkWorld shop []) =
  (Raise (UnboundLocalError "invoice"), mkWorld shop [EvWorkflowToEnd [6]]).
Proof.
  apply (workflow_unbound_invoice [6] (mkWorld shop []) no_locals
           (mkWorld shop [EvWorkflowToEnd [6]])).
  - by_compute.
  - reflexivity.
  - intros sid Hin. apply list_elem_of_singleton in Hin as ->.
    exists sale6. by_compute.
  - vm_compute. discriminate.
Defined.

Lemma workflow_to_end_order_witness :
  let w' := (workflow_to_end [1] (mkWorld shop [])).2 in
  ∃ transitions loc w1 w2 acc,
    for_each prepare_sale [1] no_locals
      (mkWorld (store (mkWorld shop []))
               (log (mkWorld shop []) ++ [EvWorkflowToEnd [1]]))
      = (Ok loc, w1) ∧
    log w1 = log (mkWorld shop []) ++ [EvWorkflowToEnd [1]] ++ transitions ∧
    Forall transition_event transitions ∧
    NoDup (to_post loc) ∧
    (∀ i, i ∈ to_post loc ↔ i ∈ (staged_invoices loc).*1) ∧
    (if bool_decide (to_post loc ≠ [])
     then post (to_post loc)
               (store (invoice_write (staged_invoices loc) w1).2)
          = Ok (store w2)
     else store w2 = store w1) ∧
    res_fold (settle_sale (store w2) (invoice_var loc)) [1] ([], [])
      = Ok acc ∧
    acc.1.*1 = attributable (store w2) [1] ∧
    acc.2 = filter (λ sid, is_done (store w2) sid) [1] ∧
    (let written :=
       if bool_decide (acc.1 ≠ [])
       then store (statement_line_write acc.1 w2).2 else store w2 in
     if bool_decide (acc.2 ≠ []) then do_ acc.2 written = Ok (store w')
     else store w' = written) ∧
    log w' = log (mkWorld shop []) ++ [EvWorkflowToEnd [1]] ++ transitions
      ++ (if bool_decide (to_post loc ≠ [])
          then [EvInvoiceWrite (staged_invoices loc);
                EvInvoicePost (to_post loc)]
          else [])
      ++ (if bool_decide (acc.1 ≠ []) then [EvStatementLineWrite acc.1]
          else [])
      ++ (if bool_decide (acc.2 ≠ []) then [EvDo acc.2] else []).
Proof.
  intros w'.
  apply (workflow_to_end_order [1] (mkWorld shop []) w').
  by_compute.
Defined.

Lemma transition_pay_zero_account_witness :
  transition_pay_ cash 9 (mkWorld Cases.zero_account []) =
  (Raise (UserError "party_without_account_receivable" ["Erin"]),
   mkWorld Cases.zero_account []).
Proof.
  apply (transition_pay_zero_account cash 9 (mkWorld Cases.zero_account [])
           (Statement.mk 2 3 StDraft 9) [Statement.mk 1 3 StDraft 5]
           Cases.sale9 (mkWorld Cases.zero_account []) Cases.sale9
           Cases.erin); by_compute.
Defined.

Lemma copy_drops_payments_witness :
  ∃ passed : gmap string (option Z),
    (copy (λ _ d, d) [1] (Some {["payments" := Some 5; "state" := Some 1]})).1
      = passed ∧
    passed !! "payments" = Some None ∧
    passed !! "state" = Some (Some 1).
Proof.
  destruct (copy_drops_payments (V := Z) (λ _ d, d) [1]
              (Some {["payments" := Some 5; "state" := Some 1]}))
    as (passed & Hrun & Hpay & Hother & _).
  exists passed. split; [exact Hrun|]. split; [exact Hpay|].
  rewrite Hother by discriminate. by_compute.
Defined.
End OnTheShopAgain.
